(** * ProvenanceCrate: graph indexes, selector resolution, lineage and
      provenance walks of [provenance_context/__init__.py]

    The development embeds the query core of the module: the entity and
    action indexes ([_build_indexes]), the summarisers, the selector
    resolver ([get_file_entities]), the one-hop lineage query, the two
    breadth-first walkers and the site view.  File-system access, media-type
    guessing and the TOON encoder are not part of it. *)

From Stdlib Require Import String Ascii List Bool ZArith Lia Arith PeanoNat.
From Stdlib Require Import Sorting.Sorted Sorting.Permutation.
From Stdlib Require Import Structures.OrderedTypeEx.
Import ListNotations.
Local Open Scope string_scope.
Local Open Scope list_scope.

Set Implicit Arguments.

(* ===================================================================== *)
(** ** Python values used by the module *)
(* ===================================================================== *)

(** Truthiness of a [str]: only the empty string is falsy. *)
Definition str_truthy (s : string) : bool := negb (s =? "").

(** Truthiness of a [str | None]. *)
Definition truthy (o : option string) : bool :=
  match o with
  | Some s => str_truthy s
  | None => false
  end.

(** [a or b] on optional strings. *)
Definition py_or (a b : option string) : option string :=
  if truthy a then a else b.

(** [pattern in s] on strings: [pattern] occurs in [s] as a substring. *)
Fixpoint str_in (pattern s : string) : bool :=
  prefix pattern s
  || match s with
     | EmptyString => false
     | String _ s' => str_in pattern s'
     end.

(** [x in xs] for a list or a set of strings. *)
Definition mem (x : string) (xs : list string) : bool :=
  existsb (String.eqb x) xs.

(** Equality of an optional string attribute with a string,
    [ent.get(key) == s]. *)
Definition opt_eqb (o : option string) (s : string) : bool :=
  match o with
  | Some s' => s' =? s
  | None => false
  end.

(** Outcome of code that may raise: [self.by_id[k]] raises [KeyError]. *)
Inductive result (A : Type) : Type :=
| Ok (a : A)
| KeyError (key : string).
Arguments Ok {A} a.
Arguments KeyError {A} key.

Definition bind {A B : Type} (m : result A) (f : A -> result B) : result B :=
  match m with
  | Ok a => f a
  | KeyError k => KeyError k
  end.

Notation "x <- m ;; k" := (bind m (fun x => k))
  (at level 61, m at next level, right associativity).

(** [mapM]: run a raising computation over a list, left to right. *)
Fixpoint map_result {A B : Type} (f : A -> result B) (l : list A)
  : result (list B) :=
  match l with
  | [] => Ok []
  | a :: l' =>
      b <- f a ;;
      bs <- map_result f l' ;;
      Ok (b :: bs)
  end.

(* ===================================================================== *)
(** ** Insertion-ordered dictionaries with string keys *)
(* ===================================================================== *)

(** A Python [dict] keeps its keys in the order of their first insertion;
    assigning to an existing key replaces the value in place. *)
Module Dict.
Section Dict.
Variable V : Type.

Definition t := list (string * V).

Definition empty : t := [].

(** [d.get(k)] *)
Fixpoint get (k : string) (d : t) : option V :=
  match d with
  | [] => None
  | (k', v) :: d' => if k' =? k then Some v else get k d'
  end.

(** [d.get(k, dflt)] *)
Definition get_default (k : string) (dflt : V) (d : t) : V :=
  match get k d with
  | Some v => v
  | None => dflt
  end.

(** [d[k] = v] *)
Fixpoint set (k : string) (v : V) (d : t) : t :=
  match d with
  | [] => [(k, v)]
  | (k', v') :: d' =>
      if k' =? k then (k, v) :: d' else (k', v') :: set k v d'
  end.

(** [d[k]], which raises on a missing key. *)
Definition item (k : string) (d : t) : result V :=
  match get k d with
  | Some v => Ok v
  | None => KeyError k
  end.

Definition keys (d : t) : list string := map fst d.
Definition values (d : t) : list V := map snd d.
Definition items (d : t) : list (string * V) := d.
End Dict.
Arguments empty {V}.
End Dict.

(* ===================================================================== *)
(** ** Data model: JSON-LD entities of the [@graph] *)
(* ===================================================================== *)

(** A reference inside [object], [result], [instrument], ...: either the
    id itself or a nested object, which may or may not carry an ["@id"]. *)
Inductive ref : Type :=
| RefId (s : string)
| RefObj (oid : option string).

(** The ["@type"] attribute: absent, one tag, or a list of tags. *)
Inductive type_tags : Type :=
| TypeAbsent
| TypeOne (t : string)
| TypeMany (ts : list string).

(** An entity record.  ["@id"] is mandatory; every other attribute the
    module reads is optional ([None] is an absent key). *)
Record entity : Type := mkEntity {
  e_id : string;                       (* "@id" *)
  e_type : type_tags;                  (* "@type" *)
  e_alternateName : option string;
  e_name : option string;
  e_value : option string;
  e_sha1 : option string;
  e_encodingFormat : option string;
  e_fileFormat : option string;
  e_exampleOfWork : option ref;
  e_startTime : option string;
  e_endTime : option string;
  e_instrument : option ref;
  e_object : option (list ref);
  e_result : option (list ref);
  e_input : option (list ref);
  e_output : option (list ref)
}.

(** [ent.get(key, [])] for a list-valued attribute. *)
Definition get_list (l : option (list ref)) : list ref :=
  match l with
  | Some l => l
  | None => []
  end.

(** [obj.get("@id") if isinstance(obj, dict) else obj] *)
Definition ref_id (obj : ref) : option string :=
  match obj with
  | RefObj oid => oid
  | RefId s => Some s
  end.

(** [_has_type]: the tag is the type, or one of the types. *)
Definition has_type (ent : entity) (tname : string) : bool :=
  match e_type ent with
  | TypeMany ts => mem tname ts
  | TypeOne t => t =? tname
  | TypeAbsent => false
  end.

(** The crate object: the graph and the indexes derived from it. *)
Record ProvenanceCrate : Type := mkCrate {
  graph : list entity;
  by_id : Dict.t entity;
  actions : list entity;
  actions_by_result : Dict.t (list string);
  actions_by_input : Dict.t (list string)
}.

(* ===================================================================== *)
(** ** Index construction *)
(* ===================================================================== *)

(** [index[oid].append(act_id)] on a [defaultdict(list)]. *)
Definition index_append (index : Dict.t (list string)) (oid act_id : string)
  : Dict.t (list string) :=
  Dict.set oid (Dict.get_default oid [] index ++ [act_id]) index.

(** The inner loop [for obj in act.get(key, [])]. *)
Definition index_refs (act_id : string) (index : Dict.t (list string))
  (objs : list ref) : Dict.t (list string) :=
  fold_left
    (fun index obj =>
       let oid := ref_id obj in
       if truthy oid then
         match oid with
         | Some oid => index_append index oid act_id
         | None => index
         end
       else index)
    objs index.

(** One round of the outer loop [for act in self.actions]: first the
    ["result"] list into [actions_by_result], then the ["object"] list into
    [actions_by_input]. *)
Definition index_action
  (idx : Dict.t (list string) * Dict.t (list string)) (act : entity)
  : Dict.t (list string) * Dict.t (list string) :=
  let act_id := e_id act in
  (index_refs act_id (fst idx) (get_list (e_result act)),
   index_refs act_id (snd idx) (get_list (e_object act))).

(** [_build_indexes] *)
Definition build_indexes (self : ProvenanceCrate) : ProvenanceCrate :=
  let by_id := fold_left (fun d e => Dict.set (e_id e) e d) (graph self)
                 Dict.empty in
  let actions := filter (fun e => has_type e "CreateAction") (graph self) in
  let idx := fold_left index_action actions (Dict.empty, Dict.empty) in
  {| graph := graph self;
     by_id := by_id;
     actions := actions;
     actions_by_result := fst idx;
     actions_by_input := snd idx |}.

(** [__init__]: store the graph, then build the indexes. *)
Definition init (g : list entity) : ProvenanceCrate :=
  build_indexes
    {| graph := g;
       by_id := Dict.empty;
       actions := [];
       actions_by_result := Dict.empty;
       actions_by_input := Dict.empty |}.

(* ===================================================================== *)
(** ** Summarisers *)
(* ===================================================================== *)

Record file_summary : Type := mkFileSummary {
  fs_id : string;
  fs_name : option string;
  fs_sha1 : option string;
  fs_encodingFormat : option string;
  fs_exampleOfWork : option ref
}.

Record dataset_summary : Type := mkDatasetSummary {
  ds_id : string;
  ds_name : option string
}.

Record param_summary : Type := mkParamSummary {
  ps_id : string;
  ps_name : option string;
  ps_value : option string;
  ps_exampleOfWork : option ref
}.

Record action_summary : Type := mkActionSummary {
  as_id : string;
  as_name : option string;
  as_startTime : option string;
  as_endTime : option string
}.

Record tool_summary : Type := mkToolSummary {
  ts_id : string;
  ts_name : option string;
  ts_type : type_tags;
  ts_inputs : list ref;
  ts_outputs : list ref
}.

(** The [{"id": ..., "type": ...}] record of an input or output that is
    neither a file, a dataset nor a parameter. *)
Record other_summary : Type := mkOtherSummary {
  os_id : string;
  os_type : type_tags
}.

Definition summarise_file (ent : entity) : file_summary :=
  {| fs_id := e_id ent;
     fs_name := e_alternateName ent;
     fs_sha1 := e_sha1 ent;
     fs_encodingFormat := py_or (e_encodingFormat ent) (e_fileFormat ent);
     fs_exampleOfWork := e_exampleOfWork ent |}.

Definition summarise_dataset (ent : entity) : dataset_summary :=
  {| ds_id := e_id ent;
     ds_name := e_alternateName ent |}.

Definition summarise_param (ent : entity) : param_summary :=
  {| ps_id := e_id ent;
     ps_name := e_name ent;
     ps_value := e_value ent;
     ps_exampleOfWork := e_exampleOfWork ent |}.

Definition summarise_action (ent : entity) : action_summary :=
  {| as_id := e_id ent;
     as_name := e_name ent;
     as_startTime := e_startTime ent;
     as_endTime := e_endTime ent |}.

Definition summarise_tool (ent : option entity) : option tool_summary :=
  match ent with
  | None => None
  | Some ent =>
      Some {| ts_id := e_id ent;
              ts_name := e_name ent;
              ts_type := e_type ent;
              ts_inputs := get_list (e_input ent);
              ts_outputs := get_list (e_output ent) |}
  end.

(* ===================================================================== *)
(** ** Selector resolution *)
(* ===================================================================== *)

(** [e.get("alternateName", "")], for an attribute that is absent or a
    string: the entity record holds no other value of it. *)
Definition altname_or_empty (e : entity) : string :=
  match e_alternateName e with
  | Some alt => alt
  | None => ""
  end.

(** [_find_files_by_altname] *)
Definition find_files_by_altname (self : ProvenanceCrate) (pattern : string)
  : list entity :=
  filter (fun e => has_type e "File" && str_in pattern (altname_or_empty e))
    (graph self).

(** [get_file_entities] *)
Definition get_file_entities (self : ProvenanceCrate) (file_selector : string)
  : list entity :=
  let ent := Dict.get file_selector (by_id self) in
  match (match ent with
         | Some ent => if has_type ent "File" then Some ent else None
         | None => None
         end) with
  | Some ent => [ent]
  | None =>
      let vals := Dict.values (by_id self) in
      let exact :=
        filter (fun e => has_type e "File"
                         && opt_eqb (e_alternateName e) file_selector) vals in
      match exact with
      | _ :: _ => exact
      | [] => find_files_by_altname self file_selector
      end
  end.

(* ===================================================================== *)
(** ** Partitioning an action's inputs *)
(* ===================================================================== *)

(** [self.by_id.get(oid)] where [oid] may be [None]. *)
Definition get_opt (oid : option string) (d : Dict.t entity) : option entity :=
  match oid with
  | Some k => Dict.get k d
  | None => None
  end.

Record input_buckets : Type := mkInputs {
  in_files : list file_summary;
  in_datasets : list dataset_summary;
  in_parameters : list param_summary;
  in_other : list other_summary
}.

Definition empty_inputs : input_buckets :=
  {| in_files := []; in_datasets := []; in_parameters := []; in_other := [] |}.

(** Body of the loop [for obj in act.get("object", [])]: a reference that
    does not resolve is passed over, a resolved one goes to the first
    bucket whose type test succeeds. *)
Definition add_input (d : Dict.t entity) (inputs : input_buckets) (obj : ref)
  : input_buckets :=
  let oid := ref_id obj in
  match get_opt oid d with
  | None => inputs
  | Some ent =>
      if has_type ent "File" then
        {| in_files := in_files inputs ++ [summarise_file ent];
           in_datasets := in_datasets inputs;
           in_parameters := in_parameters inputs;
           in_other := in_other inputs |}
      else if has_type ent "Dataset" then
        {| in_files := in_files inputs;
           in_datasets := in_datasets inputs ++ [summarise_dataset ent];
           in_parameters := in_parameters inputs;
           in_other := in_other inputs |}
      else if has_type ent "PropertyValue" then
        {| in_files := in_files inputs;
           in_datasets := in_datasets inputs;
           in_parameters := in_parameters inputs ++ [summarise_param ent];
           in_other := in_other inputs |}
      else
        {| in_files := in_files inputs;
           in_datasets := in_datasets inputs;
           in_parameters := in_parameters inputs;
           in_other := in_other inputs
                       ++ [{| os_id := e_id ent; os_type := e_type ent |}] |}
  end.

(** The input partition shared by the lineage query and both walkers. *)
Definition partition_inputs (d : Dict.t entity) (objs : list ref)
  : input_buckets :=
  fold_left (add_input d) objs empty_inputs.

(** Resolution of an action's ["instrument"] to a tool entity. *)
Definition resolve_tool (self : ProvenanceCrate) (act : entity)
  : option entity :=
  let inst_id :=
    match e_instrument act with
    | Some inst => ref_id inst
    | None => None
    end in
  if truthy inst_id then get_opt inst_id (by_id self) else None.

(* ===================================================================== *)
(** ** Direct lineage *)
(* ===================================================================== *)

Record produced_by : Type := mkProducedBy {
  pb_action : action_summary;
  pb_tool : option tool_summary;
  pb_inputs : input_buckets
}.

(** A lineage record; [lr_note = None] is a record without ["note"] key. *)
Record lineage_record : Type := mkLineage {
  lr_file : file_summary;
  lr_produced_by : option produced_by;
  lr_site_ids : list (option string);
  lr_note : option string
}.

Definition no_producer_note : string :=
  "No CreateAction found that lists this file in its result.".

(** [[p["value"] for p in inputs["parameters"] if p.get("name") == "site_id"]] *)
Definition site_ids_of (inputs : input_buckets) : list (option string) :=
  map ps_value
    (filter (fun p => opt_eqb (ps_name p) "site_id") (in_parameters inputs)).

(** Body of [for act_id in producers]. *)
Definition lineage_of_producer (self : ProvenanceCrate) (f : entity)
  (act_id : string) : result lineage_record :=
  act <- Dict.item act_id (by_id self) ;;
  let tool := resolve_tool self act in
  let inputs := partition_inputs (by_id self) (get_list (e_object act)) in
  let site_ids := site_ids_of inputs in
  Ok {| lr_file := summarise_file f;
        lr_produced_by :=
          Some {| pb_action := summarise_action act;
                  pb_tool := summarise_tool tool;
                  pb_inputs := inputs |};
        lr_site_ids := site_ids;
        lr_note := None |}.

(** Body of [for f in files]: the records appended for one file. *)
Definition lineage_of_file (self : ProvenanceCrate) (f : entity)
  : result (list lineage_record) :=
  let fid := e_id f in
  let producers := Dict.get_default fid [] (actions_by_result self) in
  match producers with
  | [] =>
      Ok [{| lr_file := summarise_file f;
             lr_produced_by := None;
             lr_site_ids := [];
             lr_note := Some no_producer_note |}]
  | _ :: _ => map_result (lineage_of_producer self f) producers
  end.

(** [get_file_lineage] *)
Definition get_file_lineage (self : ProvenanceCrate) (file_selector : string)
  : result (list lineage_record) :=
  let files := get_file_entities self file_selector in
  rs <- map_result (lineage_of_file self) files ;;
  Ok (concat rs).

(* ===================================================================== *)
(** ** State of a provenance walk *)
(* ===================================================================== *)

Record edge : Type := mkEdge {
  edge_type : string;
  edge_action : string;
  edge_entity : string
}.

(** A value of [entity_nodes]: a file summary or a dataset summary. *)
Inductive node_summary : Type :=
| FileNode (s : file_summary)
| DatasetNode (s : dataset_summary).

(** [summary.get("sha1")]: a dataset summary has no such key. *)
Definition node_sha1 (s : node_summary) : option string :=
  match s with
  | FileNode s => fs_sha1 s
  | DatasetNode _ => None
  end.

Record output_buckets : Type := mkOutputs {
  out_files : list file_summary;
  out_datasets : list dataset_summary;
  out_other : list other_summary
}.

Definition empty_outputs : output_buckets :=
  {| out_files := []; out_datasets := []; out_other := [] |}.

(** A value of [action_nodes]; the ancestry walk writes no ["outputs"]. *)
Record action_node : Type := mkActionNode {
  an_action : action_summary;
  an_tool : option tool_summary;
  an_inputs : input_buckets;
  an_outputs : option output_buckets
}.

(** The local variables of the [while q:] loop. *)
Record walk_state : Type := mkState {
  q : list (string * Z);
  visited_entities : list string;
  visited_actions : list string;
  entity_nodes : Dict.t node_summary;
  action_nodes : Dict.t action_node;
  edges : list edge
}.

Definition set_q (st : walk_state) (q' : list (string * Z)) : walk_state :=
  {| q := q';
     visited_entities := visited_entities st;
     visited_actions := visited_actions st;
     entity_nodes := entity_nodes st;
     action_nodes := action_nodes st;
     edges := edges st |}.

(** [q.append((ent_id, depth))] *)
Definition q_append (st : walk_state) (item : string * Z) : walk_state :=
  set_q st (q st ++ [item]).

(** [visited_entities.add(ent_id)] *)
Definition add_visited_entity (st : walk_state) (ent_id : string)
  : walk_state :=
  {| q := q st;
     visited_entities := ent_id :: visited_entities st;
     visited_actions := visited_actions st;
     entity_nodes := entity_nodes st;
     action_nodes := action_nodes st;
     edges := edges st |}.

(** [visited_actions.add(act_id)] *)
Definition add_visited_action (st : walk_state) (act_id : string)
  : walk_state :=
  {| q := q st;
     visited_entities := visited_entities st;
     visited_actions := act_id :: visited_actions st;
     entity_nodes := entity_nodes st;
     action_nodes := action_nodes st;
     edges := edges st |}.

(** [entity_nodes[ent_id] = summary] *)
Definition set_entity_node (st : walk_state) (ent_id : string)
  (s : node_summary) : walk_state :=
  {| q := q st;
     visited_entities := visited_entities st;
     visited_actions := visited_actions st;
     entity_nodes := Dict.set ent_id s (entity_nodes st);
     action_nodes := action_nodes st;
     edges := edges st |}.

(** [action_nodes[act_id] = node] *)
Definition set_action_node (st : walk_state) (act_id : string)
  (n : action_node) : walk_state :=
  {| q := q st;
     visited_entities := visited_entities st;
     visited_actions := visited_actions st;
     entity_nodes := entity_nodes st;
     action_nodes := Dict.set act_id n (action_nodes st);
     edges := edges st |}.

(** [edges.append({"type": t, "action": act_id, "entity": ent_id})] *)
Definition append_edge (st : walk_state) (t act_id ent_id : string)
  : walk_state :=
  {| q := q st;
     visited_entities := visited_entities st;
     visited_actions := visited_actions st;
     entity_nodes := entity_nodes st;
     action_nodes := action_nodes st;
     edges := edges st
              ++ [{| edge_type := t;
                     edge_action := act_id;
                     edge_entity := ent_id |}] |}.

(** [max_depth is None or depth + 1 <= max_depth] *)
Definition within_depth (max_depth : option Z) (depth : Z) : bool :=
  match max_depth with
  | None => true
  | Some m => (depth + 1 <=? m)%Z
  end.

(** The summary stored for a dequeued entity: files and datasets only. *)
Definition classify_node (ent : entity) : option node_summary :=
  if has_type ent "File" then Some (FileNode (summarise_file ent))
  else if has_type ent "Dataset" then Some (DatasetNode (summarise_dataset ent))
  else None.

(** The state before the loop: the roots queued at depth 0. *)
Definition initial_state (root_ids : list string) : walk_state :=
  {| q := map (fun fid => (fid, 0%Z)) root_ids;
     visited_entities := [];
     visited_actions := [];
     entity_nodes := Dict.empty;
     action_nodes := Dict.empty;
     edges := [] |}.

(** [while q: ...] with an iteration budget: [None] when the budget runs
    out before the queue is empty. *)
Fixpoint walk_loop (step : walk_state -> walk_state) (fuel : nat)
  (st : walk_state) : option walk_state :=
  match q st with
  | [] => Some st
  | _ :: _ =>
      match fuel with
      | O => None
      | S fuel' => walk_loop step fuel' (step st)
      end
  end.

(** The dictionary both walkers return; [r_descendant_files] is [None]
    where the key is not part of the result. *)
Record walk_result : Type := mkResult {
  r_root_files : list file_summary;
  r_entities : Dict.t node_summary;
  r_actions : Dict.t action_node;
  r_edges : list edge;
  r_descendant_files : option (list node_summary)
}.

(* ===================================================================== *)
(** ** Ancestry (upstream walk) *)
(* ===================================================================== *)

(** Body of [for f_in in inputs["files"]] and [for d_in in
    inputs["datasets"]]. *)
Definition ancestry_recurse (max_depth : option Z) (act_id : string)
  (depth : Z) (st : walk_state) (in_id : string) : walk_state :=
  let st := append_edge st "used" act_id in_id in
  if within_depth max_depth depth then q_append st (in_id, (depth + 1)%Z)
  else st.

(** Body of [for act_id in self.actions_by_result.get(ent_id, [])]. *)
Definition ancestry_visit_action (self : ProvenanceCrate)
  (max_depth : option Z) (ent_id : string) (depth : Z)
  (st : walk_state) (act_id : string) : walk_state :=
  match Dict.get act_id (by_id self) with
  | None => st
  | Some act =>
      let st := append_edge st "generated" act_id ent_id in
      if mem act_id (visited_actions st) then st
      else
        let st := add_visited_action st act_id in
        let tool := resolve_tool self act in
        let inputs := partition_inputs (by_id self) (get_list (e_object act)) in
        let st :=
          set_action_node st act_id
            {| an_action := summarise_action act;
               an_tool := summarise_tool tool;
               an_inputs := inputs;
               an_outputs := None |} in
        let st :=
          fold_left
            (fun st f_in => ancestry_recurse max_depth act_id depth st (fs_id f_in))
            (in_files inputs) st in
        fold_left
          (fun st d_in => ancestry_recurse max_depth act_id depth st (ds_id d_in))
          (in_datasets inputs) st
  end.

(** One iteration of the [while q:] loop of [get_file_ancestry]. *)
Definition ancestry_step (self : ProvenanceCrate) (max_depth : option Z)
  (st : walk_state) : walk_state :=
  match q st with
  | [] => st
  | (ent_id, depth) :: q' =>
      let st := set_q st q' in
      if mem ent_id (visited_entities st) then st
      else
        let st := add_visited_entity st ent_id in
        match Dict.get ent_id (by_id self) with
        | None => st
        | Some ent =>
            match classify_node ent with
            | None => st
            | Some summary =>
                let st := set_entity_node st ent_id summary in
                fold_left (ancestry_visit_action self max_depth ent_id depth)
                  (Dict.get_default ent_id [] (actions_by_result self)) st
            end
        end
  end.

(** Total length of the lists [key] over the entries of [by_id]. *)
Definition total_refs (key : entity -> option (list ref)) (d : Dict.t entity)
  : nat :=
  list_sum (map (fun kv => length (get_list (key (snd kv)))) d).

(** Iteration budget of the ancestry loop: every queue item is a root or
    an input of an action expanded once. *)
Definition ancestry_budget (self : ProvenanceCrate) (root_ids : list string)
  : nat :=
  length root_ids + total_refs e_object (by_id self).

(** [get_file_ancestry], run with [fuel] loop iterations. *)
Definition get_file_ancestry_fuel (fuel : nat) (self : ProvenanceCrate)
  (file_selector : string) (max_depth : option Z) : option walk_result :=
  let files := get_file_entities self file_selector in
  match files with
  | [] =>
      Some {| r_root_files := [];
              r_entities := Dict.empty;
              r_actions := Dict.empty;
              r_edges := [];
              r_descendant_files := None |}
  | _ :: _ =>
      let root_ids := map e_id files in
      match walk_loop (ancestry_step self max_depth) fuel
              (initial_state root_ids) with
      | None => None
      | Some st =>
          Some {| r_root_files := map summarise_file files;
                  r_entities := entity_nodes st;
                  r_actions := action_nodes st;
                  r_edges := edges st;
                  r_descendant_files := None |}
      end
  end.

(** [get_file_ancestry] *)
Definition get_file_ancestry (self : ProvenanceCrate) (file_selector : string)
  (max_depth : option Z) : option walk_result :=
  get_file_ancestry_fuel
    (ancestry_budget self (map e_id (get_file_entities self file_selector)))
    self file_selector max_depth.

(* ===================================================================== *)
(** ** Descendants (downstream walk) *)
(* ===================================================================== *)

(** [if max_depth is None or depth + 1 <= max_depth: q.append(...)] *)
Definition descend_enqueue (max_depth : option Z) (depth : Z)
  (st : walk_state) (out_id : string) : walk_state :=
  if within_depth max_depth depth then q_append st (out_id, (depth + 1)%Z)
  else st.

(** Body of [for res in act.get("result", [])]: the output buckets grow
    together with the edges and the queue. *)
Definition descend_output (self : ProvenanceCrate) (max_depth : option Z)
  (act_id : string) (depth : Z) (acc : output_buckets * walk_state)
  (res : ref) : output_buckets * walk_state :=
  let outputs := fst acc in
  let st := snd acc in
  let oid := ref_id res in
  match get_opt oid (by_id self) with
  | None => acc
  | Some ent2 =>
      if has_type ent2 "File" then
        let fs := summarise_file ent2 in
        let outputs :=
          {| out_files := out_files outputs ++ [fs];
             out_datasets := out_datasets outputs;
             out_other := out_other outputs |} in
        let st := append_edge st "generated" act_id (e_id ent2) in
        (outputs, descend_enqueue max_depth depth st (e_id ent2))
      else if has_type ent2 "Dataset" then
        let ds := summarise_dataset ent2 in
        let outputs :=
          {| out_files := out_files outputs;
             out_datasets := out_datasets outputs ++ [ds];
             out_other := out_other outputs |} in
        let st := append_edge st "generated" act_id (e_id ent2) in
        (outputs, descend_enqueue max_depth depth st (e_id ent2))
      else
        ({| out_files := out_files outputs;
            out_datasets := out_datasets outputs;
            out_other := out_other outputs
                         ++ [{| os_id := e_id ent2; os_type := e_type ent2 |}] |},
         st)
  end.

(** Body of [for act_id in self.actions_by_input.get(ent_id, [])]. *)
Definition descend_visit_action (self : ProvenanceCrate)
  (max_depth : option Z) (ent_id : string) (depth : Z)
  (st : walk_state) (act_id : string) : walk_state :=
  match Dict.get act_id (by_id self) with
  | None => st
  | Some act =>
      let st := append_edge st "used" act_id ent_id in
      if mem act_id (visited_actions st) then st
      else
        let st := add_visited_action st act_id in
        let tool := resolve_tool self act in
        let inputs := partition_inputs (by_id self) (get_list (e_object act)) in
        let acc :=
          fold_left (descend_output self max_depth act_id depth)
            (get_list (e_result act)) (empty_outputs, st) in
        set_action_node (snd acc) act_id
          {| an_action := summarise_action act;
             an_tool := summarise_tool tool;
             an_inputs := inputs;
             an_outputs := Some (fst acc) |}
  end.

(** One iteration of the [while q:] loop of [get_file_descendants]. *)
Definition descend_step (self : ProvenanceCrate) (max_depth : option Z)
  (st : walk_state) : walk_state :=
  match q st with
  | [] => st
  | (ent_id, depth) :: q' =>
      let st := set_q st q' in
      if mem ent_id (visited_entities st) then st
      else
        let st := add_visited_entity st ent_id in
        match Dict.get ent_id (by_id self) with
        | None => st
        | Some ent =>
            match classify_node ent with
            | None => st
            | Some summary =>
                let st := set_entity_node st ent_id summary in
                fold_left (descend_visit_action self max_depth ent_id depth)
                  (Dict.get_default ent_id [] (actions_by_input self)) st
            end
        end
  end.

(** Iteration budget of the descendants loop: every queue item is a root
    or an output of an action expanded once. *)
Definition descend_budget (self : ProvenanceCrate) (root_ids : list string)
  : nat :=
  length root_ids + total_refs e_result (by_id self).

(** The final pass over [entity_nodes.items()]. *)
Definition collect_descendant_files (root_ids : list string)
  (entity_nodes : Dict.t node_summary) : list node_summary :=
  map snd
    (filter
       (fun kv =>
          negb (mem (fst kv) root_ids)
          && match node_sha1 (snd kv) with
             | Some _ => true
             | None => false
             end)
       (Dict.items entity_nodes)).

(** [get_file_descendants], run with [fuel] loop iterations. *)
Definition get_file_descendants_fuel (fuel : nat) (self : ProvenanceCrate)
  (file_selector : string) (max_depth : option Z) : option walk_result :=
  let roots := get_file_entities self file_selector in
  match roots with
  | [] =>
      Some {| r_root_files := [];
              r_entities := Dict.empty;
              r_actions := Dict.empty;
              r_edges := [];
              r_descendant_files := Some [] |}
  | _ :: _ =>
      let root_ids := map e_id roots in
      match walk_loop (descend_step self max_depth) fuel
              (initial_state root_ids) with
      | None => None
      | Some st =>
          Some {| r_root_files := map summarise_file roots;
                  r_entities := entity_nodes st;
                  r_actions := action_nodes st;
                  r_edges := edges st;
                  r_descendant_files :=
                    Some (collect_descendant_files root_ids (entity_nodes st)) |}
      end
  end.

(** [get_file_descendants] *)
Definition get_file_descendants (self : ProvenanceCrate)
  (file_selector : string) (max_depth : option Z) : option walk_result :=
  get_file_descendants_fuel
    (descend_budget self (map e_id (get_file_entities self file_selector)))
    self file_selector max_depth.

(* ===================================================================== *)
(** ** Site view *)
(* ===================================================================== *)

(** [set.add] *)
Definition set_add (x : string) (s : list string) : list string :=
  if mem x s then s else s ++ [x].

(** Insertion into a list sorted by [String.leb]. *)
Fixpoint insert_sorted (x : string) (l : list string) : list string :=
  match l with
  | [] => [x]
  | y :: l' => if String.leb x y then x :: l else y :: insert_sorted x l'
  end.

(** [sorted(xs)] on strings: ascending in the code-point order. *)
Definition sorted (xs : list string) : list string :=
  fold_right insert_sorted [] xs.

Record step_run : Type := mkStepRun {
  sr_action : action_summary;
  sr_tool : option tool_summary;
  sr_site_ids : list (option string)
}.

Record site_view : Type := mkSiteView {
  sv_site_id : string;
  sv_parameters : list param_summary;
  sv_datasets : list dataset_summary;
  sv_files : list file_summary;
  sv_step_runs : list step_run;
  sv_key_lineages : Dict.t lineage_record
}.

(** The test of step 1: a ["site_id"] parameter with the requested value. *)
Definition is_site_param (site_id : string) (e : entity) : bool :=
  has_type e "PropertyValue"
  && opt_eqb (e_name e) "site_id"
  && opt_eqb (e_value e) site_id.

(** The inner loop of step 4, which stops at the first matching input. *)
Definition has_site_input (self : ProvenanceCrate) (site_id : string)
  (act : entity) : bool :=
  existsb
    (fun obj =>
       match get_opt (ref_id obj) (by_id self) with
       | Some ent => is_site_param site_id ent
       | None => false
       end)
    (get_list (e_object act)).

(** Step 4: the set of ids of the actions tagged with the site. *)
Definition site_action_ids (self : ProvenanceCrate) (site_id : string)
  : list string :=
  fold_left
    (fun s act => if has_site_input self site_id act then set_add (e_id act) s
                  else s)
    (actions self) [].

(** The nested function [summarise_run]. *)
Definition summarise_run (self : ProvenanceCrate) (act : entity) : step_run :=
  let tool := resolve_tool self act in
  let sids :=
    fold_left
      (fun sids obj =>
         match get_opt (ref_id obj) (by_id self) with
         | Some ent =>
             if has_type ent "PropertyValue" && opt_eqb (e_name ent) "site_id"
             then sids ++ [e_value ent]
             else sids
         | None => sids
         end)
      (get_list (e_object act)) [] in
  {| sr_action := summarise_action act;
     sr_tool := summarise_tool tool;
     sr_site_ids := sids |}.

(** [[summarise_run(self.by_id[aid]) for aid in sorted(site_action_ids)]] *)
Definition site_step_runs (self : ProvenanceCrate) (site_id : string)
  : result (list step_run) :=
  map_result
    (fun aid => act <- Dict.item aid (by_id self) ;; Ok (summarise_run self act))
    (sorted (site_action_ids self site_id)).

Definition key_base_names (site_id : string) : list string :=
  [ "transect_time_series.csv";
    "transect_time_series_despiked.csv";
    "transect_time_series_smoothed.csv";
    "transect_time_series_tidally_corrected.csv";
    "tides.csv";
    (site_id ++ ".xlsx")%string;
    ("linear_" ++ site_id ++ ".json")%string ].

(** [site_id in s.get("site_ids", [])] *)
Definition mentions_site (site_id : string) (s : lineage_record) : bool :=
  existsb (fun v => opt_eqb v site_id) (lr_site_ids s).

(** Step 5: the loop [for base in key_base_names]. *)
Fixpoint site_key_lineages (self : ProvenanceCrate) (site_id : string)
  (bases : list string) (key_lineages : Dict.t lineage_record)
  : result (Dict.t lineage_record) :=
  match bases with
  | [] => Ok key_lineages
  | base :: bases' =>
      summaries <- get_file_lineage self base ;;
      let site_summaries := filter (mentions_site site_id) summaries in
      match site_summaries with
      | s :: _ => site_key_lineages self site_id bases'
                    (Dict.set base s key_lineages)
      | [] => site_key_lineages self site_id bases' key_lineages
      end
  end.

(** [get_site_artifacts] *)
Definition get_site_artifacts (self : ProvenanceCrate) (site_id : string)
  : result site_view :=
  let vals := Dict.values (by_id self) in
  let params := map summarise_param (filter (is_site_param site_id) vals) in
  let site_datasets :=
    map summarise_dataset
      (filter (fun e => has_type e "Dataset"
                        && str_in site_id (altname_or_empty e)) vals) in
  let site_files :=
    map summarise_file
      (filter (fun e => has_type e "File"
                        && str_in site_id (altname_or_empty e)) vals) in
  step_runs <- site_step_runs self site_id ;;
  key_lineages <- site_key_lineages self site_id (key_base_names site_id)
                    Dict.empty ;;
  Ok {| sv_site_id := site_id;
        sv_parameters := params;
        sv_datasets := site_datasets;
        sv_files := site_files;
        sv_step_runs := step_runs;
        sv_key_lineages := key_lineages |}.

(* ===================================================================== *)
(** ** Example graphs *)
(* ===================================================================== *)

(** An entity with only ["@id"] and ["@type"]. *)
Definition blank (id : string) (t : type_tags) : entity :=
  {| e_id := id; e_type := t;
     e_alternateName := None; e_name := None; e_value := None;
     e_sha1 := None; e_encodingFormat := None; e_fileFormat := None;
     e_exampleOfWork := None; e_startTime := None; e_endTime := None;
     e_instrument := None; e_object := None; e_result := None;
     e_input := None; e_output := None |}.

(** A [File] with a display name and an optional content hash. *)
Definition file_entity (id alt : string) (sha1 : option string) : entity :=
  {| e_id := id; e_type := TypeOne "File";
     e_alternateName := Some alt; e_name := None; e_value := None;
     e_sha1 := sha1; e_encodingFormat := Some "text/csv"; e_fileFormat := None;
     e_exampleOfWork := None; e_startTime := None; e_endTime := None;
     e_instrument := None; e_object := None; e_result := None;
     e_input := None; e_output := None |}.

(** A [Dataset] with an optional display name. *)
Definition dataset_entity (id : string) (alt : option string) : entity :=
  {| e_id := id; e_type := TypeOne "Dataset";
     e_alternateName := alt; e_name := None; e_value := None;
     e_sha1 := None; e_encodingFormat := None; e_fileFormat := None;
     e_exampleOfWork := None; e_startTime := None; e_endTime := None;
     e_instrument := None; e_object := None; e_result := None;
     e_input := None; e_output := None |}.

(** A [PropertyValue] with a name and a value. *)
Definition param_entity (id name value : string) : entity :=
  {| e_id := id; e_type := TypeOne "PropertyValue";
     e_alternateName := None; e_name := Some name; e_value := Some value;
     e_sha1 := None; e_encodingFormat := None; e_fileFormat := None;
     e_exampleOfWork := None; e_startTime := None; e_endTime := None;
     e_instrument := None; e_object := None; e_result := None;
     e_input := None; e_output := None |}.

(** A [CreateAction] with its instrument, inputs and outputs. *)
Definition action_entity (id name : string) (instrument : option ref)
  (object result : list ref) : entity :=
  {| e_id := id; e_type := TypeOne "CreateAction";
     e_alternateName := None; e_name := Some name; e_value := None;
     e_sha1 := None; e_encodingFormat := None; e_fileFormat := None;
     e_exampleOfWork := None; e_startTime := None; e_endTime := None;
     e_instrument := instrument; e_object := Some object;
     e_result := Some result;
     e_input := None; e_output := None |}.

(** A [SoftwareApplication]. *)
Definition tool_entity (id name : string) : entity :=
  {| e_id := id; e_type := TypeOne "SoftwareApplication";
     e_alternateName := None; e_name := Some name; e_value := None;
     e_sha1 := None; e_encodingFormat := None; e_fileFormat := None;
     e_exampleOfWork := None; e_startTime := None; e_endTime := None;
     e_instrument := None; e_object := None; e_result := None;
     e_input := None; e_output := None |}.

(** The graph of the [sample_crate] fixture of the test suite. *)
Definition sample_graph : list entity :=
  [ {| e_id := "./"; e_type := TypeOne "Dataset";
       e_alternateName := None; e_name := Some "Test Crate";
       e_value := None; e_sha1 := None; e_encodingFormat := None;
       e_fileFormat := None; e_exampleOfWork := None;
       e_startTime := None; e_endTime := None; e_instrument := None;
       e_object := None; e_result := None;
       e_input := None; e_output := None |};
    {| e_id := "#action1"; e_type := TypeMany ["CreateAction"; "Action"];
       e_alternateName := None; e_name := Some "Run of test workflow";
       e_value := None; e_sha1 := None; e_encodingFormat := None;
       e_fileFormat := None; e_exampleOfWork := None;
       e_startTime := Some "2024-01-01T00:00:00Z";
       e_endTime := Some "2024-01-01T01:00:00Z";
       e_instrument := Some (RefObj (Some "#tool1"));
       e_object := Some [RefObj (Some "#input1"); RefObj (Some "#param1")];
       e_result := Some [RefObj (Some "test_output.csv")];
       e_input := None; e_output := None |};
    {| e_id := "#tool1"; e_type := TypeOne "SoftwareApplication";
       e_alternateName := None; e_name := Some "test-tool";
       e_value := None; e_sha1 := None; e_encodingFormat := None;
       e_fileFormat := None; e_exampleOfWork := None;
       e_startTime := None; e_endTime := None; e_instrument := None;
       e_object := None; e_result := None;
       e_input := Some [RefObj (Some "#input1")];
       e_output := Some [RefObj (Some "test_output.csv")] |};
    file_entity "#input1" "input.csv" (Some "abc123");
    file_entity "test_output.csv" "test_output.csv" (Some "def456");
    param_entity "#param1" "site_id" "site001";
    dataset_entity "#dataset1" (Some "site001/");
    {| e_id := "site001_output.json"; e_type := TypeOne "File";
       e_alternateName := Some "site001_output.json"; e_name := None;
       e_value := None; e_sha1 := Some "ghi789";
       e_encodingFormat := Some "application/json";
       e_fileFormat := None; e_exampleOfWork := None;
       e_startTime := None; e_endTime := None; e_instrument := None;
       e_object := None; e_result := None;
       e_input := None; e_output := None |} ].

(** The graph of the [multi_file_crate] fixture: a chain of two actions;
    none of its files carries a content hash. *)
Definition multi_file_graph : list entity :=
  [ dataset_entity "./" None;
    file_entity "raw_data.csv" "raw_data.csv" None;
    action_entity "#action1" "Process raw data" (Some (RefObj (Some "#tool1")))
      [RefObj (Some "raw_data.csv")] [RefObj (Some "processed_data.csv")];
    file_entity "processed_data.csv" "processed_data.csv" None;
    action_entity "#action2" "Generate final output"
      (Some (RefObj (Some "#tool2")))
      [RefObj (Some "processed_data.csv")] [RefObj (Some "final_output.csv")];
    file_entity "final_output.csv" "final_output.csv" None;
    tool_entity "#tool1" "process-tool";
    tool_entity "#tool2" "finalize-tool" ].

(** The graph of the [site_crate] fixture. *)
Definition site_graph : list entity :=
  [ dataset_entity "./" None;
    action_entity "#action1" "Process site001" (Some (RefObj (Some "#tool1")))
      [RefObj (Some "#param_site001"); RefObj (Some "#dataset_site001")]
      [RefObj (Some "site001_output.csv")];
    param_entity "#param_site001" "site_id" "site001";
    dataset_entity "#dataset_site001" (Some "site001/");
    file_entity "site001_output.csv" "site001_output.csv" (Some "site001hash");
    tool_entity "#tool1" "site-processor" ].

(* ===================================================================== *)
(** ** Notions used to state the properties *)
(* ===================================================================== *)

(** [actions_by_result.get(x, [])] and [actions_by_input.get(x, [])]. *)
Definition producers (self : ProvenanceCrate) (x : string) : list string :=
  Dict.get_default x [] (actions_by_result self).

Definition consumers (self : ProvenanceCrate) (x : string) : list string :=
  Dict.get_default x [] (actions_by_input self).

(** A reference list names [x], inline or as a nested object with id [x]. *)
Definition refs_contain (x : string) (objs : list ref) : bool :=
  existsb (fun obj => opt_eqb (ref_id obj) x) objs.

(** How many references of the list name [x]. *)
Definition ref_count (x : string) (objs : list ref) : nat :=
  length (filter (fun obj => opt_eqb (ref_id obj) x) objs).

(** Number of references of a list that the indexing loop files under [x]. *)
Definition indexed_count (x : string) (objs : list ref) : nat :=
  length (filter (fun obj => truthy (ref_id obj) && opt_eqb (ref_id obj) x)
            objs).

(** A graph in which an action lists the empty id among its results. *)
Definition empty_id_graph : list entity :=
  [ action_entity "#run" "run" None [] [RefId ""];
    file_entity "" "nameless.csv" None ].

(** The three rules of the selector resolver, read off the graph. *)
Definition resolve_rules (g : list entity) (selector : string) : list entity :=
  match find (fun e => has_type e "File" && (e_id e =? selector)) g with
  | Some e => [e]
  | None =>
      match filter (fun e => has_type e "File"
                             && opt_eqb (e_alternateName e) selector) g with
      | e :: exact => e :: exact
      | [] =>
          filter (fun e => has_type e "File"
                           && str_in selector (altname_or_empty e)) g
      end
  end.

(** Two artifacts, the second one named like the id of the first. *)
Definition priority_graph : list entity :=
  [ file_entity "f1" "first.csv" None;
    file_entity "f2" "f1" None ].

(** The entities a reference list resolves to, in list order; a reference
    without id or with an id missing from the entity index yields none. *)
Definition resolve_refs (d : Dict.t entity) (objs : list ref) : list entity :=
  flat_map
    (fun obj =>
       match get_opt (ref_id obj) d with
       | Some ent => [ent]
       | None => []
       end)
    objs.

(** Kind of a resolved input: the first type test that succeeds decides. *)
Definition is_file (e : entity) : bool := has_type e "File".

Definition is_dataset (e : entity) : bool :=
  negb (has_type e "File") && has_type e "Dataset".

Definition is_parameter (e : entity) : bool :=
  negb (has_type e "File") && negb (has_type e "Dataset")
  && has_type e "PropertyValue".

Definition is_other (e : entity) : bool :=
  negb (has_type e "File") && negb (has_type e "Dataset")
  && negb (has_type e "PropertyValue").

(** The four buckets of a list of resolved inputs. *)
Definition bucket_inputs (ents : list entity) : input_buckets :=
  {| in_files := map summarise_file (filter is_file ents);
     in_datasets := map summarise_dataset (filter is_dataset ents);
     in_parameters := map summarise_param (filter is_parameter ents);
     in_other :=
       map (fun e => {| os_id := e_id e; os_type := e_type e |})
         (filter is_other ents) |}.

(** The values of the parameters named ["site_id"] among resolved inputs. *)
Definition site_id_values (ents : list entity) : list (option string) :=
  map e_value
    (filter (fun e => is_parameter e && opt_eqb (e_name e) "site_id") ents).

(** The record emitted for a file and one action that produces it. *)
Definition produced_record (self : ProvenanceCrate) (f act : entity)
  : lineage_record :=
  let ents := resolve_refs (by_id self) (get_list (e_object act)) in
  {| lr_file := summarise_file f;
     lr_produced_by :=
       Some {| pb_action := summarise_action act;
               pb_tool := summarise_tool (resolve_tool self act);
               pb_inputs := bucket_inputs ents |};
     lr_site_ids := site_id_values ents;
     lr_note := None |}.

(** The record emitted for a file that no action produces. *)
Definition orphan_record (f : entity) : lineage_record :=
  {| lr_file := summarise_file f;
     lr_produced_by := None;
     lr_site_ids := [];
     lr_note := Some "No CreateAction found that lists this file in its result." |}.

(** A file that no action lists as a result. *)
Definition orphan_graph : list entity :=
  [ file_entity "orphan.csv" "orphan.csv" (Some "0a") ].

(** One action that lists the same file twice in its ["result"]. *)
Definition twice_graph : list entity :=
  [ file_entity "twice.csv" "twice.csv" (Some "0b");
    action_entity "#once" "writes twice" None []
      [RefId "twice.csv"; RefObj (Some "twice.csv")] ].

(** The result of both walkers when the selector resolves to nothing. *)
Definition empty_ancestry : walk_result :=
  {| r_root_files := [];
     r_entities := Dict.empty;
     r_actions := Dict.empty;
     r_edges := [];
     r_descendant_files := None |}.

Definition empty_descendants : walk_result :=
  {| r_root_files := [];
     r_entities := Dict.empty;
     r_actions := Dict.empty;
     r_edges := [];
     r_descendant_files := Some [] |}.

(* ===================================================================== *)
(** ** The common shape of the two walks *)
(* ===================================================================== *)

(** Both [while] loops have the same skeleton.  They differ in the action
    index they follow, in the type of the edge between the dequeued entity
    and an action, and in what expanding an action records and queues.
    [walk_visit] and [walk_step] spell the skeleton out once, for the
    proofs; the walkers above are shown to be instances of it. *)
Section Walk.
Variable d : Dict.t entity.
Variable index : Dict.t (list string).
Variable entity_edge action_edge : string.
Variable expand : entity -> action_node * list string.
Variable max_depth : option Z.

(** The effect of one round of the loop over the actions of an entity:
    an edge is recorded; a first visit also records the action node, one
    edge per expanded id and, within the depth limit, one queue item. *)
Definition walk_visit (ent_id : string) (depth : Z) (st : walk_state)
  (act_id : string) : walk_state :=
  match Dict.get act_id d with
  | None => st
  | Some act =>
      let st := append_edge st entity_edge act_id ent_id in
      if mem act_id (visited_actions st) then st
      else
        {| q := q st
                ++ (if within_depth max_depth depth
                    then map (fun i => (i, (depth + 1)%Z)) (snd (expand act))
                    else []);
           visited_entities := visited_entities st;
           visited_actions := act_id :: visited_actions st;
           entity_nodes := entity_nodes st;
           action_nodes := Dict.set act_id (fst (expand act)) (action_nodes st);
           edges := edges st
                    ++ map (fun i => {| edge_type := action_edge;
                                        edge_action := act_id;
                                        edge_entity := i |})
                         (snd (expand act)) |}
  end.

Definition walk_step (st : walk_state) : walk_state :=
  match q st with
  | [] => st
  | (ent_id, depth) :: q' =>
      let st := set_q st q' in
      if mem ent_id (visited_entities st) then st
      else
        let st := add_visited_entity st ent_id in
        match Dict.get ent_id d with
        | None => st
        | Some ent =>
            match classify_node ent with
            | None => st
            | Some summary =>
                let st := set_entity_node st ent_id summary in
                fold_left (walk_visit ent_id depth)
                  (Dict.get_default ent_id [] index) st
            end
        end
  end.
End Walk.

(** Files and datasets: the entities a walk records and follows. *)
Definition is_data (e : entity) : bool :=
  has_type e "File" || has_type e "Dataset".

(** What the ancestry walk records and follows when it expands an action:
    the ids of its file inputs, then those of its dataset inputs. *)
Definition ancestry_expand (self : ProvenanceCrate) (act : entity)
  : action_node * list string :=
  let inputs := partition_inputs (by_id self) (get_list (e_object act)) in
  ({| an_action := summarise_action act;
      an_tool := summarise_tool (resolve_tool self act);
      an_inputs := inputs;
      an_outputs := None |},
   map fs_id (in_files inputs) ++ map ds_id (in_datasets inputs)).

(** The three buckets of a list of resolved outputs. *)
Definition bucket_outputs (ents : list entity) : output_buckets :=
  {| out_files := map summarise_file (filter is_file ents);
     out_datasets := map summarise_dataset (filter is_dataset ents);
     out_other :=
       map (fun e => {| os_id := e_id e; os_type := e_type e |})
         (filter (fun e => negb (is_data e)) ents) |}.

(** What the descendants walk records and follows when it expands an
    action: the ids of its file and dataset outputs, in list order. *)
Definition descend_expand (self : ProvenanceCrate) (act : entity)
  : action_node * list string :=
  let ents := resolve_refs (by_id self) (get_list (e_result act)) in
  ({| an_action := summarise_action act;
      an_tool := summarise_tool (resolve_tool self act);
      an_inputs := partition_inputs (by_id self) (get_list (e_object act));
      an_outputs := Some (bucket_outputs ents) |},
   map e_id (filter is_data ents)).

(** The loop iteration that starts in [st] dequeues [ent_id] and finds it
    not yet visited: it is the iteration that expands [ent_id]. *)
Definition expands (st : walk_state) (ent_id : string) : Prop :=
  match q st with
  | (e, _) :: _ => e = ent_id /\ ~ In ent_id (visited_entities st)
  | [] => False
  end.

(** The state after [n] iterations of a loop body. *)
Definition iterate (step : walk_state -> walk_state) (n : nat)
  (st : walk_state) : walk_state :=
  Nat.iter n step st.

(** Work left for a walk: the queue items, plus what the actions not yet
    expanded can still add to the queue. *)
Definition unexpanded (w : entity -> nat) (d : Dict.t entity)
  (visited : list string) : nat :=
  list_sum (map (fun kv => if mem (fst kv) visited then 0 else w (snd kv)) d).

Definition work_left (w : entity -> nat) (d : Dict.t entity)
  (st : walk_state) : nat :=
  length (q st) + unexpanded w d (visited_actions st).

(** *** Bookkeeping kept by the loop *)

Section WalkInvariants.
Variable d : Dict.t entity.
Variable index : Dict.t (list string).
Variable entity_edge : string.

(** [entity_nodes] holds the summaries of exactly the visited entities
    that resolve to a file or a dataset. *)
Definition nodes_consistent (st : walk_state) : Prop :=
  (forall k s, In (k, s) (entity_nodes st) ->
     exists ent, Dict.get k d = Some ent /\ classify_node ent = Some s)
  /\ (forall k, In k (Dict.keys (entity_nodes st)) ->
        In k (visited_entities st))
  /\ (forall k ent s, In k (visited_entities st) ->
        Dict.get k d = Some ent -> classify_node ent = Some s ->
        In k (Dict.keys (entity_nodes st))).

(** [action_nodes] holds the visited actions; each was reached from a
    recorded entity through the index; and for a recorded entity every
    resolvable action of its index list has its edge and its node. *)
Definition actions_consistent (st : walk_state) : Prop :=
  (forall a, In a (visited_actions st) ->
     In a (Dict.keys (action_nodes st)))
  /\ (forall a, In a (Dict.keys (action_nodes st)) ->
        Dict.get a d <> None
        /\ exists e, In e (Dict.keys (entity_nodes st))
                     /\ In a (Dict.get_default e [] index))
  /\ (forall e a, In e (Dict.keys (entity_nodes st)) ->
        In a (Dict.get_default e [] index) -> Dict.get a d <> None ->
        In {| edge_type := entity_edge; edge_action := a; edge_entity := e |}
          (edges st)
        /\ In a (Dict.keys (action_nodes st))).

(** Every root is still queued or already visited. *)
Definition roots_tracked (roots : list string) (st : walk_state) : Prop :=
  forall r, In r roots -> In r (visited_entities st) \/ In r (map fst (q st)).

(** Only roots are queued or visited, at depths that are not negative. *)
Definition roots_only (roots : list string) (st : walk_state) : Prop :=
  (forall it, In it (q st) -> In (fst it) roots /\ (0 <= snd it)%Z)
  /\ (forall k, In k (visited_entities st) -> In k roots).

(** Every edge joins an action and an entity of the index. *)
Definition edges_resolve (st : walk_state) : Prop :=
  forall ed, In ed (edges st) ->
    Dict.get (edge_entity ed) d <> None /\ Dict.get (edge_action ed) d <> None.
End WalkInvariants.

(** Everything the ancestry loop keeps, for a given list of roots. *)
Definition ancestry_invariant (g : list entity) (roots : list string)
  (st : walk_state) : Prop :=
  nodes_consistent (by_id (init g)) st
  /\ actions_consistent (by_id (init g)) (actions_by_result (init g))
       "generated" st
  /\ roots_tracked roots st
  /\ edges_resolve (by_id (init g)) st.

Definition descend_invariant (g : list entity) (roots : list string)
  (st : walk_state) : Prop :=
  nodes_consistent (by_id (init g)) st
  /\ actions_consistent (by_id (init g)) (actions_by_input (init g))
       "used" st
  /\ roots_tracked roots st
  /\ edges_resolve (by_id (init g)) st.

(** A reference resolves: it carries an id that the entity index knows. *)
Definition resolves (d : Dict.t entity) (obj : ref) : bool :=
  match get_opt (ref_id obj) d with
  | Some _ => true
  | None => false
  end.

(** One action with two outputs, after its input in the graph. *)
Definition fanout_graph : list entity :=
  [ file_entity "in.csv" "in.csv" (Some "00");
    file_entity "a.csv" "a.csv" (Some "01");
    file_entity "b.csv" "b.csv" (Some "02");
    action_entity "#split" "split" None
      [RefId "in.csv"] [RefId "a.csv"; RefId "b.csv"] ].

(** An action whose result and input name an id that is not in the graph. *)
Definition dangling_graph : list entity :=
  [ file_entity "kept.csv" "kept.csv" (Some "03");
    file_entity "made.csv" "made.csv" (Some "04");
    action_entity "#step" "step" (Some (RefId "#no-tool"))
      [RefId "ghost-in"; RefObj None; RefId "kept.csv"]
      [RefObj (Some "ghost-out"); RefId "made.csv"] ].

(** An action is tagged with a site: one of its inputs resolves to a
    [PropertyValue] named ["site_id"] whose value is the site id. *)
Definition tagged_with_site (self : ProvenanceCrate) (site_id : string)
  (act : entity) : Prop :=
  exists obj ent,
    In obj (get_list (e_object act))
    /\ get_opt (ref_id obj) (by_id self) = Some ent
    /\ has_type ent "PropertyValue" = true
    /\ e_name ent = Some "site_id"
    /\ e_value ent = Some site_id.

(** Strictly ascending order on strings. *)
Definition str_lt (a b : string) : Prop := String.ltb a b = true.

(** Two tagged actions, the later id first in the graph; the first one
    has two matching parameters. *)
Definition unsorted_site_graph : list entity :=
  [ param_entity "#p1" "site_id" "s1";
    param_entity "#p2" "site_id" "s1";
    action_entity "#b" "two tags" None [RefId "#p1"; RefId "#p2"] [];
    action_entity "#a" "one tag" None [RefObj (Some "#p1")] [] ].

(* ===================================================================== *)
(** ** Reachability in the provenance graph *)
(* ===================================================================== *)

(** An id is recordable when the entity index resolves it to a file or a
    dataset: these are the entities a walk stores in [entity_nodes]. *)
Definition recordable (d : Dict.t entity) (k : string) : Prop :=
  exists ent s, Dict.get k d = Some ent /\ classify_node ent = Some s.

(** The ids of the file and dataset inputs, resp. outputs, of an action. *)
Definition data_inputs (self : ProvenanceCrate) (act : entity) : list string :=
  map e_id
    (filter is_data (resolve_refs (by_id self) (get_list (e_object act)))).

Definition data_outputs (self : ProvenanceCrate) (act : entity) : list string :=
  map e_id
    (filter is_data (resolve_refs (by_id self) (get_list (e_result act)))).

Section Reach.
Variable d : Dict.t entity.
Variable index : Dict.t (list string).
Variable next : entity -> list string.

(** One hop of a walk: from a recordable entity, through an action of its
    index list that the entity index resolves, to an id that expanding the
    action follows. *)
Definition walk_edge (e e' : string) : Prop :=
  recordable d e
  /\ exists a act,
       In a (Dict.get_default e [] index)
       /\ Dict.get a d = Some act
       /\ In e' (next act).

(** [walk_path n x y]: [y] is [n] hops away from [x]. *)
Inductive walk_path : nat -> string -> string -> Prop :=
| path_here x : walk_path 0 x x
| path_hop n x y z :
    walk_path n x y -> walk_edge y z -> walk_path (S n) x z.

(** [y] is [n] hops away from one of the roots. *)
Definition walk_reach (roots : list string) (n : nat) (y : string) : Prop :=
  exists r, In r roots /\ walk_path n r y.
End Reach.

(** Upstream hops follow [actions_by_result] to the data inputs of the
    producing action; downstream hops follow [actions_by_input] to the
    data outputs of the consuming action. *)
Definition upstream_reach (self : ProvenanceCrate) :=
  walk_reach (by_id self) (actions_by_result self) (data_inputs self).

Definition downstream_reach (self : ProvenanceCrate) :=
  walk_reach (by_id self) (actions_by_input self) (data_outputs self).

(** The depth a limit allows: any, or at most [max 0 m] hops. *)
Definition depth_allowed (max_depth : option Z) (n : nat) : Prop :=
  match max_depth with
  | None => True
  | Some m => (Z.of_nat n <= Z.max 0 m)%Z
  end.

Section ReachInvariants.
Variable d : Dict.t entity.
Variable index : Dict.t (list string).
Variable next : entity -> list string.
Variable max_depth : option Z.
Variable roots : list string.

(** Every queued or visited id is reachable from a root, queued ids at
    the depth they are queued with, within the depth limit. *)
Definition reach_sound (st : walk_state) : Prop :=
  (forall it, In it (q st) ->
     exists n, Z.of_nat n = snd it
               /\ walk_reach d index next roots n (fst it)
               /\ depth_allowed max_depth n)
  /\ (forall k, In k (visited_entities st) ->
        exists n, walk_reach d index next roots n k
                  /\ depth_allowed max_depth n).

(** Every recorded action is a visited one, and what an expanded action
    leads to is queued or visited. *)
Definition expansion_tracked (st : walk_state) : Prop :=
  (forall a, In a (Dict.keys (action_nodes st)) -> In a (visited_actions st))
  /\ (forall a act i,
        In a (visited_actions st) -> Dict.get a d = Some act ->
        In i (next act) ->
        In i (visited_entities st) \/ In i (map fst (q st))).
End ReachInvariants.

Section EdgeInvariants.
Variable d : Dict.t entity.
Variable index : Dict.t (list string).
Variable entity_edge action_edge : string.
Variable expand : entity -> action_node * list string.

(** Every entry of [action_nodes] is the record of the entity its key
    resolves to. *)
Definition action_nodes_expanded (st : walk_state) : Prop :=
  forall a node, In (a, node) (action_nodes st) ->
    exists act, Dict.get a d = Some act /\ node = fst (expand act).

(** Every edge starts at a recorded action and is one of two kinds: the
    edge between a recorded entity and an action of its index list, or
    the edge between an expanded action and an id it leads to. *)
Definition edges_explained (st : walk_state) : Prop :=
  forall ed, In ed (edges st) ->
    In (edge_action ed) (Dict.keys (action_nodes st))
    /\ ((edge_type ed = entity_edge
         /\ In (edge_entity ed) (Dict.keys (entity_nodes st))
         /\ In (edge_action ed) (Dict.get_default (edge_entity ed) [] index))
        \/ (edge_type ed = action_edge
            /\ exists act, Dict.get (edge_action ed) d = Some act
                           /\ In (edge_entity ed) (snd (expand act)))).
End EdgeInvariants.

(** The state both walkers end in, with everything the loop keeps. *)
Definition walk_facts (g : list entity) (index : Dict.t (list string))
  (entity_edge action_edge : string)
  (expand : entity -> action_node * list string)
  (next : entity -> list string) (max_depth : option Z)
  (roots : list string) (st : walk_state) : Prop :=
  nodes_consistent (by_id (init g)) st
  /\ actions_consistent (by_id (init g)) index entity_edge st
  /\ roots_tracked roots st
  /\ action_nodes_expanded (by_id (init g)) expand st
  /\ edges_explained (by_id (init g)) index entity_edge action_edge expand st
  /\ (max_depth = None -> expansion_tracked (by_id (init g)) next st).

(** No queued depth is negative. *)
Definition depths_nonneg (st : walk_state) : Prop :=
  forall it, In it (q st) -> (0 <= snd it)%Z.

(* ===================================================================== *)
(** ** Media types *)
(* ===================================================================== *)

(** [s.endswith(suffix)]: some tail of [s] is [suffix]. *)
Fixpoint endswith (s suffix : string) : bool :=
  (s =? suffix)
  || match s with
     | EmptyString => false
     | String _ s' => endswith s' suffix
     end.

(** [o or ""] on an optional string. *)
Definition or_empty (o : option string) : string :=
  match py_or o (Some "") with
  | Some s => s
  | None => ""
  end.

(** [o in xs] where [o] may be [None] and [xs] holds strings. *)
Definition opt_mem (o : option string) (xs : list string) : bool :=
  match o with
  | Some s => mem s xs
  | None => false
  end.

(** [str.lower()] on ASCII text, letter by letter. *)
Definition lower_ascii (c : ascii) : ascii :=
  let n := nat_of_ascii c in
  if ((65 <=? n)%nat && (n <=? 90)%nat)%bool then ascii_of_nat (n + 32)
  else c.

Fixpoint ascii_lower (s : string) : string :=
  match s with
  | EmptyString => EmptyString
  | String c s' => String (lower_ascii c) (ascii_lower s')
  end.

Section MediaType.
(** [str.lower()], for which nothing is assumed. *)
Variable lower : string -> string.

(** [guess_media_type] *)
Definition guess_media_type (summary : file_summary) : option string :=
  let fmt := fs_encodingFormat summary in
  if truthy fmt then fmt
  else
    let name := lower (or_empty (fs_name summary)) in
    if endswith name ".csv" then Some "text/csv"
    else if endswith name ".json" then Some "application/json"
    else if endswith name ".geojson" then Some "application/geo+json"
    else if endswith name ".png" then Some "image/png"
    else if endswith name ".jpg" || endswith name ".jpeg"
      then Some "image/jpeg"
    else if endswith name ".tif" || endswith name ".tiff"
      then Some "image/tiff"
    else if endswith name ".xlsx"
      then Some "application/vnd.openxmlformats-officedocument.spreadsheetml.sheet"
    else None.

(** [is_csv] *)
Definition is_csv (summary : file_summary) : bool :=
  let mt := lower (or_empty (guess_media_type summary)) in
  mem mt ["text/csv"; "text/comma-separated-values"].

(** [is_image] *)
Definition is_image (summary : file_summary) : bool :=
  let mt := lower (or_empty (guess_media_type summary)) in
  prefix "image/" mt.

(** [is_json] *)
Definition is_json (summary : file_summary) : bool :=
  let mt := lower (or_empty (guess_media_type summary)) in
  mem mt ["application/json"; "application/ld+json"; "application/geo+json"].

(** [get_image_files]: the loop over the graph. *)
Definition get_image_files (self : ProvenanceCrate) : list file_summary :=
  fold_left
    (fun images ent =>
       if negb (has_type ent "File") then images
       else
         let summary := summarise_file ent in
         if is_image summary then images ++ [summary] else images)
    (graph self) [].

(** What [open_as_dataframe] does: it returns [None], raises [ValueError],
    or returns the frame read from the path. *)
Inductive opened (F : Type) : Type :=
| NoFile : opened F
| ValueError : opened F
| Frame : F -> opened F.

Section Openers.
(** The file system and the CSV reader: the path [get_local_path] finds
    for an entity, if any, and the frame [pd.read_csv] reads from it. *)
Variable path : Type.
Variable frame : Type.
Variable get_local_path : entity -> option path.
Variable read_csv : path -> frame.

(** [open_as_dataframe] *)
Definition open_as_dataframe (self : ProvenanceCrate) (file_selector : string)
  : opened frame :=
  match get_file_entities self file_selector with
  | [] => NoFile frame
  | ent :: _ =>
      match get_local_path ent with
      | None => NoFile frame
      | Some p =>
          let summary := summarise_file ent in
          let mt := guess_media_type summary in
          if negb (opt_mem mt ["text/csv"; "text/comma-separated-values"])
          then ValueError frame
          else Frame (read_csv p)
      end
  end.
End Openers.
End MediaType.

(** The suffixes [guess_media_type] knows, with the type of each. *)
Definition media_table : list (string * string) :=
  [ (".csv", "text/csv");
    (".json", "application/json");
    (".geojson", "application/geo+json");
    (".png", "image/png");
    (".jpg", "image/jpeg");
    (".jpeg", "image/jpeg");
    (".tif", "image/tiff");
    (".tiff", "image/tiff");
    (".xlsx",
     "application/vnd.openxmlformats-officedocument.spreadsheetml.sheet") ].

(* ===================================================================== *)
(** ** Breadth-first order of a walk *)
(* ===================================================================== *)

Section BfsInvariants.
Variable d : Dict.t entity.
Variable index : Dict.t (list string).
Variable next : entity -> list string.
Variable max_depth : option Z.
Variable roots : list string.

(** The depth at which each entity was visited and each action expanded,
    and the depth of the head of the queue: the loop does not store them,
    the invariant speaks of them. *)
Variable visit_depth : string -> Z.
Variable expand_depth : string -> Z.
Variable lo : Z.

(** The id [i] has been visited at depth [b] or less, or is queued at
    depth [b] or less. *)
Definition tracked_within (st : walk_state) (i : string) (b : Z) : Prop :=
  (In i (visited_entities st) /\ (visit_depth i <= b)%Z)
  \/ exists d', (d' <= b)%Z /\ In (i, d') (q st).

(** The queue holds items of depth [lo], then items of depth [lo + 1]. *)
Definition queue_layers (st : walk_state) : Prop :=
  exists q1 q2,
    q st = q1 ++ q2
    /\ (forall it, In it q1 -> snd it = lo)
    /\ (forall it, In it q2 -> snd it = (lo + 1)%Z).

(** The walk proceeds layer by layer: nothing was visited or expanded
    deeper than the head of the queue; every root is tracked at depth 0;
    what an action expanded within the depth limit leads to is tracked one
    level below it; and the actions of a visited file or dataset were
    expanded no deeper than it. *)
Definition bfs_layers (st : walk_state) : Prop :=
  queue_layers st
  /\ (forall k, In k (visited_entities st) -> (visit_depth k <= lo)%Z)
  /\ (forall a, In a (visited_actions st) -> (expand_depth a <= lo)%Z)
  /\ (forall r, In r roots -> tracked_within st r 0)
  /\ (forall a act i,
        In a (visited_actions st) -> Dict.get a d = Some act ->
        In i (next act) ->
        within_depth max_depth (expand_depth a) = true ->
        tracked_within st i (expand_depth a + 1))
  /\ (forall e a,
        In e (visited_entities st) -> recordable d e ->
        In a (Dict.get_default e [] index) -> Dict.get a d <> None ->
        In a (visited_actions st)
        /\ (expand_depth a <= visit_depth e)%Z).
End BfsInvariants.

(** The loop keeps the breadth-first order for some assignment of
    depths. *)
Definition bfs_invariant (d : Dict.t entity) (index : Dict.t (list string))
  (next : entity -> list string) (max_depth : option Z)
  (roots : list string) (st : walk_state) : Prop :=
  exists visit_depth expand_depth lo,
    bfs_layers d index next max_depth roots visit_depth expand_depth lo st.

(* ===================================================================== *)
(** ** The name test of the substring rule *)
(* ===================================================================== *)

(** What a graph may hold under ["alternateName"]: nothing, a string, or
    a value of another kind ([null], a number, a list, an object). *)
Inductive json_name : Type :=
| NameAbsent : json_name
| NameString : string -> json_name
| NameOther : json_name.

(** The test of [_find_files_by_altname] on that value:
    [alt = e.get("alternateName", "")], then
    [isinstance(alt, str) and pattern in alt]. *)
Definition altname_matches (pattern : string) (name : json_name) : bool :=
  match name with
  | NameAbsent => str_in pattern ""
  | NameString alt => str_in pattern alt
  | NameOther => false
  end.

(** The names an entity record holds: absent, or a string. *)
Definition name_of (e : entity) : json_name :=
  match e_alternateName e with
  | Some alt => NameString alt
  | None => NameAbsent
  end.

(* ===================================================================== *)
(** * Properties *)
(* ===================================================================== *)

(** ** Dictionaries *)

Section DictFacts.
Variable V : Type.
Implicit Types (d : Dict.t V) (k : string) (v : V).

Lemma dict_get_set_same d k v : Dict.get k (Dict.set k v d) = Some v.
Proof.
  induction d as [|[k' v'] d IH]; simpl.
  - now rewrite String.eqb_refl.
  - destruct (k' =? k) eqn:E; simpl.
    + now rewrite String.eqb_refl.
    + now rewrite E.
Qed.

Lemma dict_get_set_other d k k' v :
  k <> k' -> Dict.get k' (Dict.set k v d) = Dict.get k' d.
Proof.
  intros Hne. induction d as [|[k0 v0] d IH]; simpl.
  - apply String.eqb_neq in Hne. now rewrite Hne.
  - destruct (k0 =? k) eqn:E; simpl.
    + apply String.eqb_eq in E. subst k0.
      apply String.eqb_neq in Hne. now rewrite Hne.
    + now rewrite IH.
Qed.

Lemma dict_get_In d k v : Dict.get k d = Some v -> In (k, v) d.
Proof.
  induction d as [|[k' v'] d IH]; simpl; [discriminate|].
  destruct (k' =? k) eqn:E.
  - apply String.eqb_eq in E. intros [= ->]. subst. now left.
  - intros H. right. auto.
Qed.

Lemma dict_get_keys d k : In k (Dict.keys d) <-> Dict.get k d <> None.
Proof.
  induction d as [|[k' v'] d IH]; simpl.
  - split; [tauto | congruence].
  - destruct (k' =? k) eqn:E.
    + apply String.eqb_eq in E. split; [discriminate | auto].
    + apply String.eqb_neq in E. rewrite <- IH. split; [|tauto].
      intros [H | H]; [contradiction | exact H].
Qed.

Lemma dict_get_some_keys d k v : Dict.get k d = Some v -> In k (Dict.keys d).
Proof. intros H. apply dict_get_keys. congruence. Qed.

Lemma dict_keys_set d k v k' :
  In k' (Dict.keys (Dict.set k v d)) <-> k' = k \/ In k' (Dict.keys d).
Proof.
  rewrite !dict_get_keys.
  destruct (string_dec k k') as [-> | Hne].
  - rewrite dict_get_set_same. split; [auto | discriminate].
  - rewrite (dict_get_set_other _ _ Hne). split; [auto|].
    intros [-> | H]; [contradiction | exact H].
Qed.

Lemma dict_set_fresh d k v :
  ~ In k (Dict.keys d) -> Dict.set k v d = d ++ [(k, v)].
Proof.
  induction d as [|[k' v'] d IH]; simpl; [reflexivity|].
  intros Hn. destruct (k' =? k) eqn:E.
  - apply String.eqb_eq in E. tauto.
  - f_equal. apply IH. tauto.
Qed.

(** Assigning to a key present in the dictionary keeps the key order. *)
Lemma dict_keys_set_present d k v :
  In k (Dict.keys d) -> Dict.keys (Dict.set k v d) = Dict.keys d.
Proof.
  induction d as [|[k' v'] d IH]; simpl; [tauto|].
  intros H. destruct (k' =? k) eqn:E; simpl.
  - apply String.eqb_eq in E. now subst.
  - f_equal. apply IH. destruct H as [H | H]; [|exact H].
    apply String.eqb_neq in E. congruence.
Qed.

Lemma dict_In_set d k v k' v' :
  In (k', v') (Dict.set k v d) -> (k' = k /\ v' = v) \/ In (k', v') d.
Proof.
  induction d as [|[k0 v0] d IH]; simpl.
  - intros [[= <- <-] | []]. now left.
  - destruct (k0 =? k) eqn:E; simpl.
    + intros [[= <- <-] | H]; [now left | right; now right].
    + intros [H | H]; [right; now left|].
      destruct (IH H) as [? | ?]; [now left | right; now right].
Qed.

Lemma dict_get_default_set_same d k v dflt :
  Dict.get_default k dflt (Dict.set k v d) = v.
Proof. unfold Dict.get_default. now rewrite dict_get_set_same. Qed.

Lemma dict_get_default_set_other d k k' v dflt :
  k <> k' ->
  Dict.get_default k' dflt (Dict.set k v d) = Dict.get_default k' dflt d.
Proof.
  intros H. unfold Dict.get_default. now rewrite dict_get_set_other.
Qed.
End DictFacts.

(** ** Membership test and truthiness *)

Lemma mem_In x xs : mem x xs = true <-> In x xs.
Proof.
  unfold mem. rewrite existsb_exists. split.
  - intros [y [Hy E]]. apply String.eqb_eq in E. now subst.
  - intros H. exists x. split; [exact H | apply String.eqb_refl].
Qed.

Lemma mem_false x xs : mem x xs = false <-> ~ In x xs.
Proof.
  rewrite <- mem_In. destruct (mem x xs); split; congruence.
Qed.

Lemma truthy_some o : truthy o = true <-> exists s, o = Some s /\ s <> "".
Proof.
  destruct o as [s|]; simpl; unfold str_truthy.
  - rewrite negb_true_iff, String.eqb_neq. split.
    + intros H. now exists s.
    + now intros [s' [[= <-] H]].
  - split; [discriminate | now intros [s [? _]]].
Qed.

Lemma opt_eqb_true o s : opt_eqb o s = true <-> o = Some s.
Proof.
  destruct o as [s'|]; simpl.
  - rewrite String.eqb_eq. split; congruence.
  - split; discriminate.
Qed.

(** ** The entity index *)

Lemma by_id_init g :
  by_id (init g) = fold_left (fun d e => Dict.set (e_id e) e d) g Dict.empty.
Proof. reflexivity. Qed.

Lemma actions_init g :
  actions (init g) = filter (fun e => has_type e "CreateAction") g.
Proof. reflexivity. Qed.

Lemma graph_init g : graph (init g) = g.
Proof. reflexivity. Qed.

Lemma fold_set_entries g : forall (d : Dict.t entity) k e,
  In (k, e) (fold_left (fun d e => Dict.set (e_id e) e d) g d) ->
  In (k, e) d \/ (e_id e = k /\ In e g).
Proof.
  induction g as [|a g IH]; simpl; intros d k e H; [now left|].
  apply IH in H. destruct H as [H | [H1 H2]].
  - apply dict_In_set in H. destruct H as [[-> ->] | H]; [|now left].
    right. split; [reflexivity | now left].
  - right. split; [exact H1 | now right].
Qed.

Lemma fold_set_keys g : forall (d : Dict.t entity) k,
  In k (Dict.keys (fold_left (fun d e => Dict.set (e_id e) e d) g d)) <->
  In k (Dict.keys d) \/ In k (map e_id g).
Proof.
  induction g as [|a g IH]; simpl; intros d k; [tauto|].
  rewrite IH, dict_keys_set. split.
  - intros [[-> | H] | H]; auto.
  - intros [H | [<- | H]]; auto.
Qed.

Lemma dict_set_NoDup (V : Type) (d : Dict.t V) k v :
  NoDup (Dict.keys d) -> NoDup (Dict.keys (Dict.set k v d)).
Proof.
  intros Hd. destruct (in_dec string_dec k (Dict.keys d)) as [Hin | Hnin].
  - now rewrite dict_keys_set_present.
  - rewrite dict_set_fresh by exact Hnin. unfold Dict.keys.
    rewrite map_app. simpl. apply NoDup_app; [exact Hd | | ].
    + constructor; [tauto | constructor].
    + intros x Hx [<- | []]. contradiction.
Qed.

Lemma fold_set_NoDup g : forall (d : Dict.t entity),
  NoDup (Dict.keys d) ->
  NoDup (Dict.keys (fold_left (fun d e => Dict.set (e_id e) e d) g d)).
Proof.
  induction g as [|a g IH]; simpl; intros d Hd; [exact Hd|].
  apply IH. now apply dict_set_NoDup.
Qed.

Lemma dict_In_get (V : Type) (d : Dict.t V) k v :
  NoDup (Dict.keys d) -> In (k, v) d -> Dict.get k d = Some v.
Proof.
  induction d as [|[k' v'] d IH]; simpl; [tauto|].
  intros Hd [[= -> ->] | H].
  - now rewrite String.eqb_refl.
  - inversion Hd as [|? ? Hn Hd']; subst.
    destruct (k' =? k) eqn:E.
    + apply String.eqb_eq in E. subst k'. exfalso. apply Hn.
      change k with (fst (k, v)). now apply in_map.
    + now apply IH.
Qed.

(** An entry of the index is filed under its own id and is in the graph. *)
Lemma by_id_entry g k e :
  In (k, e) (by_id (init g)) -> e_id e = k /\ In e g.
Proof.
  rewrite by_id_init. intros H. apply fold_set_entries in H.
  destruct H as [[] | H]. exact H.
Qed.

Lemma by_id_get g k e :
  Dict.get k (by_id (init g)) = Some e -> e_id e = k /\ In e g.
Proof. intros H. apply dict_get_In in H. now apply by_id_entry. Qed.

Lemma by_id_keys g k :
  In k (Dict.keys (by_id (init g))) <-> In k (map e_id g).
Proof.
  rewrite by_id_init, fold_set_keys. simpl. tauto.
Qed.

Lemma by_id_defined g e :
  In e g -> exists e', Dict.get (e_id e) (by_id (init g)) = Some e'.
Proof.
  intros H.
  assert (Hk : In (e_id e) (Dict.keys (by_id (init g)))).
  { apply by_id_keys. now apply in_map. }
  apply dict_get_keys in Hk.
  destruct (Dict.get (e_id e) (by_id (init g))) as [e'|]; [|congruence].
  now exists e'.
Qed.

Lemma by_id_keys_NoDup g : NoDup (Dict.keys (by_id (init g))).
Proof. rewrite by_id_init. apply fold_set_NoDup. constructor. Qed.

Lemma by_id_value g e :
  In e (Dict.values (by_id (init g))) ->
  In e g /\ Dict.get (e_id e) (by_id (init g)) = Some e.
Proof.
  unfold Dict.values. rewrite in_map_iff. intros [[k e'] [E H]].
  simpl in E. subst e'. pose proof (by_id_entry _ _ _ H) as [Hk Hg].
  split; [exact Hg|]. subst k.
  apply dict_In_get; [apply by_id_keys_NoDup | exact H].
Qed.

Lemma fold_set_unique g : forall (d : Dict.t entity),
  NoDup (Dict.keys d ++ map e_id g) ->
  fold_left (fun d e => Dict.set (e_id e) e d) g d
  = d ++ map (fun e => (e_id e, e)) g.
Proof.
  induction g as [|a g IH]; simpl; intros d Hd.
  - now rewrite app_nil_r.
  - assert (Hn : ~ In (e_id a) (Dict.keys d)).
    { intros Hin. apply NoDup_remove_2 in Hd. apply Hd.
      apply in_or_app. now left. }
    rewrite dict_set_fresh by exact Hn.
    rewrite IH.
    + now rewrite <- app_assoc.
    + unfold Dict.keys. rewrite map_app. simpl. rewrite <- app_assoc.
      exact Hd.
Qed.

(** With unique ids the index lists the graph, in graph order. *)
Lemma by_id_unique g :
  NoDup (map e_id g) -> by_id (init g) = map (fun e => (e_id e, e)) g.
Proof.
  intros H. rewrite by_id_init. now rewrite fold_set_unique.
Qed.

Lemma by_id_values_unique g :
  NoDup (map e_id g) -> Dict.values (by_id (init g)) = g.
Proof.
  intros H. rewrite by_id_unique by exact H. unfold Dict.values.
  rewrite map_map. simpl. apply map_id.
Qed.

Lemma by_id_get_unique g e :
  NoDup (map e_id g) -> In e g ->
  Dict.get (e_id e) (by_id (init g)) = Some e.
Proof.
  intros Hnd Hin. apply dict_In_get; [apply by_id_keys_NoDup|].
  rewrite by_id_unique by exact Hnd.
  apply in_map_iff. now exists e.
Qed.

(** ** The action indexes *)

Lemma index_refs_get act_id x : forall objs index,
  Dict.get_default x [] (index_refs act_id index objs)
  = Dict.get_default x [] index ++ repeat act_id (indexed_count x objs).
Proof.
  unfold index_refs, indexed_count.
  induction objs as [|obj objs IH]; intros index; simpl.
  - now rewrite app_nil_r.
  - rewrite IH. clear IH.
    destruct (truthy (ref_id obj)) eqn:Ht; simpl; [|reflexivity].
    destruct (ref_id obj) as [oid|] eqn:Eo; [|discriminate]. simpl.
    unfold index_append.
    destruct (oid =? x) eqn:E.
    + apply String.eqb_eq in E. subst oid.
      rewrite dict_get_default_set_same. simpl.
      now rewrite <- app_assoc.
    + apply String.eqb_neq in E.
      now rewrite dict_get_default_set_other.
Qed.

Lemma index_actions_get x : forall acts idx,
  Dict.get_default x [] (fst (fold_left index_action acts idx))
  = Dict.get_default x [] (fst idx)
    ++ flat_map (fun a => repeat (e_id a)
                            (indexed_count x (get_list (e_result a)))) acts
  /\
  Dict.get_default x [] (snd (fold_left index_action acts idx))
  = Dict.get_default x [] (snd idx)
    ++ flat_map (fun a => repeat (e_id a)
                            (indexed_count x (get_list (e_object a)))) acts.
Proof.
  induction acts as [|a acts IH]; intros idx; simpl.
  - now rewrite !app_nil_r.
  - destruct (IH (index_action idx a)) as [H1 H2].
    rewrite H1, H2. unfold index_action. simpl.
    rewrite !index_refs_get, <- !app_assoc. split; reflexivity.
Qed.

Lemma indexed_count_nonempty x objs :
  x <> "" -> indexed_count x objs = ref_count x objs.
Proof.
  intros Hx. unfold indexed_count, ref_count. f_equal.
  apply filter_ext. intros obj.
  destruct (opt_eqb (ref_id obj) x) eqn:E; [|apply andb_false_r].
  apply opt_eqb_true in E. rewrite E. simpl. unfold str_truthy.
  apply String.eqb_neq in Hx. now rewrite Hx.
Qed.

Lemma producers_init g x :
  producers (init g) x
  = flat_map (fun a => repeat (e_id a)
                         (indexed_count x (get_list (e_result a))))
      (actions (init g)).
Proof.
  unfold producers. simpl.
  now destruct (index_actions_get x
    (filter (fun e => has_type e "CreateAction") g) (Dict.empty, Dict.empty))
    as [-> _].
Qed.

Lemma consumers_init g x :
  consumers (init g) x
  = flat_map (fun a => repeat (e_id a)
                         (indexed_count x (get_list (e_object a))))
      (actions (init g)).
Proof.
  unfold consumers. simpl.
  now destruct (index_actions_get x
    (filter (fun e => has_type e "CreateAction") g) (Dict.empty, Dict.empty))
    as [_ ->].
Qed.

Lemma ref_count_pos x objs :
  0 < ref_count x objs <-> refs_contain x objs = true.
Proof.
  unfold ref_count, refs_contain.
  induction objs as [|obj objs IH]; simpl.
  - split; [lia | discriminate].
  - destruct (opt_eqb (ref_id obj) x); simpl; [split; [reflexivity | lia]|].
    exact IH.
Qed.

Lemma in_repeat_iff (a b : string) n : In a (repeat b n) <-> a = b /\ 0 < n.
Proof.
  induction n as [|n IH]; simpl.
  - split; [tauto | lia].
  - rewrite IH. split.
    + intros [-> | [-> _]]; split; auto; lia.
    + intros [-> _]. now left.
Qed.

(** Every id filed in an action index is the id of an action of the graph. *)
Lemma producers_are_actions g x aid :
  In aid (producers (init g) x) ->
  exists a, In a (actions (init g)) /\ e_id a = aid
            /\ 0 < indexed_count x (get_list (e_result a)).
Proof.
  rewrite producers_init, in_flat_map. intros [a [Ha Hin]].
  apply in_repeat_iff in Hin. destruct Hin as [-> Hn]. now exists a.
Qed.

Lemma consumers_are_actions g x aid :
  In aid (consumers (init g) x) ->
  exists a, In a (actions (init g)) /\ e_id a = aid
            /\ 0 < indexed_count x (get_list (e_object a)).
Proof.
  rewrite consumers_init, in_flat_map. intros [a [Ha Hin]].
  apply in_repeat_iff in Hin. destruct Hin as [-> Hn]. now exists a.
Qed.

Lemma actions_in_graph g a : In a (actions (init g)) -> In a g.
Proof. rewrite actions_init. intros H. now apply filter_In in H. Qed.

Lemma producers_resolve g x aid :
  In aid (producers (init g) x) ->
  exists act, Dict.get aid (by_id (init g)) = Some act.
Proof.
  intros H. apply producers_are_actions in H.
  destruct H as [a [Ha [<- _]]]. apply by_id_defined.
  now apply actions_in_graph.
Qed.

Lemma consumers_resolve g x aid :
  In aid (consumers (init g) x) ->
  exists act, Dict.get aid (by_id (init g)) = Some act.
Proof.
  intros H. apply consumers_are_actions in H.
  destruct H as [a [Ha [<- _]]]. apply by_id_defined.
  now apply actions_in_graph.
Qed.

Lemma NoDup_map_eq (A : Type) (f : A -> string) (l : list A) a b :
  NoDup (map f l) -> In a l -> In b l -> f a = f b -> a = b.
Proof.
  induction l as [|c l IH]; simpl; [tauto|].
  intros Hnd Ha Hb E. inversion Hnd as [|? ? Hn Hnd']; subst.
  destruct Ha as [-> | Ha], Hb as [-> | Hb]; auto.
  - exfalso. apply Hn. rewrite E. now apply in_map.
  - exfalso. apply Hn. rewrite <- E. now apply in_map.
Qed.

Lemma filter_nil (A : Type) (p : A -> bool) (l : list A) :
  (forall x, In x l -> p x = false) -> filter p l = [].
Proof.
  induction l as [|x l IH]; intros H; simpl; [reflexivity|].
  rewrite (H x (or_introl eq_refl)). apply IH. intros y Hy. apply H.
  now right.
Qed.

Lemma indexed_count_empty objs : indexed_count "" objs = 0.
Proof.
  unfold indexed_count. rewrite filter_nil; [reflexivity|].
  intros obj _. destruct (ref_id obj) as [oid|]; [|reflexivity].
  simpl. unfold str_truthy. destruct (oid =? "") eqn:E; reflexivity.
Qed.

Lemma flat_map_nil (A B : Type) (f : A -> list B) (l : list A) :
  (forall a, In a l -> f a = []) -> flat_map f l = [].
Proof.
  induction l as [|a l IH]; intros H; simpl; [reflexivity|].
  rewrite (H a (or_introl eq_refl)). apply IH. intros b Hb. apply H.
  now right.
Qed.

(** The keys of an action index: the non-empty ids the lists name. *)
Lemma index_refs_keys act_id k : forall objs index,
  In k (Dict.keys (index_refs act_id index objs)) <->
  In k (Dict.keys index) \/ (k <> "" /\ refs_contain k objs = true).
Proof.
  unfold index_refs, refs_contain.
  induction objs as [|obj objs IH]; intros index; cbn [fold_left existsb].
  - split; [now left | intros [H | [_ H]]; [exact H | discriminate]].
  - rewrite IH. clear IH. cbv beta zeta. rewrite orb_true_iff.
    assert (Hkeys :
      In k (Dict.keys
              (if truthy (ref_id obj)
               then match ref_id obj with
                    | Some oid => index_append index oid act_id
                    | None => index
                    end
               else index))
      <-> In k (Dict.keys index)
          \/ (k <> "" /\ opt_eqb (ref_id obj) k = true)).
    { destruct (ref_id obj) as [oid|]; cbn [truthy opt_eqb].
      - unfold str_truthy. destruct (oid =? "") eqn:Ee; cbn [negb].
        + apply String.eqb_eq in Ee. subst oid. split; [now left|].
          intros [H | [Hne H]]; [exact H|].
          apply String.eqb_eq in H. congruence.
        + apply String.eqb_neq in Ee. unfold index_append.
          rewrite dict_keys_set. split.
          * intros [-> | H]; [right | now left].
            split; [exact Ee | apply String.eqb_refl].
          * intros [H | [_ H]]; [now right | left].
            apply String.eqb_eq in H. congruence.
      - split; [now left | intros [H | [_ H]]; [exact H | discriminate]]. }
    rewrite Hkeys. tauto.
Qed.

Lemma index_actions_keys k : forall acts idx,
  (In k (Dict.keys (fst (fold_left index_action acts idx))) <->
   In k (Dict.keys (fst idx))
   \/ (k <> ""
       /\ exists a, In a acts
                    /\ refs_contain k (get_list (e_result a)) = true))
  /\ (In k (Dict.keys (snd (fold_left index_action acts idx))) <->
      In k (Dict.keys (snd idx))
      \/ (k <> ""
          /\ exists a, In a acts
                       /\ refs_contain k (get_list (e_object a)) = true)).
Proof.
  induction acts as [|a acts IH]; intros idx; cbn [fold_left].
  - split; (split; [now left | intros [H | (_ & a & [] & _)]; exact H]).
  - destruct (IH (index_action idx a)) as [H1 H2].
    rewrite H1, H2. unfold index_action. cbn [fst snd].
    rewrite !index_refs_keys. split; split.
    + intros [[H | [Hne H]] | (Hne & a' & Ha' & H)].
      * now left.
      * right. split; [exact Hne|]. exists a. split; [now left | exact H].
      * right. split; [exact Hne|]. exists a'. split; [now right | exact H].
    + intros [H | (Hne & a' & [<- | Ha'] & H)].
      * left. now left.
      * left. right. now split.
      * right. split; [exact Hne|]. now exists a'.
    + intros [[H | [Hne H]] | (Hne & a' & Ha' & H)].
      * now left.
      * right. split; [exact Hne|]. exists a. split; [now left | exact H].
      * right. split; [exact Hne|]. exists a'. split; [now right | exact H].
    + intros [H | (Hne & a' & [<- | Ha'] & H)].
      * left. now left.
      * left. right. now split.
      * right. split; [exact Hne|]. now exists a'.
Qed.

(** The keys of the two indexes of a crate. *)
Lemma index_keys g k :
  (In k (Dict.keys (actions_by_result (init g))) <->
   k <> ""
   /\ exists a, In a (actions (init g))
                /\ refs_contain k (get_list (e_result a)) = true)
  /\ (In k (Dict.keys (actions_by_input (init g))) <->
      k <> ""
      /\ exists a, In a (actions (init g))
                   /\ refs_contain k (get_list (e_object a)) = true).
Proof.
  destruct (index_actions_keys k
              (filter (fun e => has_type e "CreateAction") g)
              (Dict.empty, Dict.empty)) as [H1 H2].
  rewrite actions_init. split.
  - etransitivity; [exact H1|]. cbn. tauto.
  - etransitivity; [exact H2|]. cbn. tauto.
Qed.

(** Nothing is filed under the empty id. *)
Lemma empty_id_not_indexed g :
  producers (init g) "" = [] /\ consumers (init g) "" = [].
Proof.
  split.
  - rewrite producers_init. apply flat_map_nil. intros a _.
    now rewrite indexed_count_empty.
  - rewrite consumers_init. apply flat_map_nil. intros a _.
    now rewrite indexed_count_empty.
Qed.

(** C1 (amended). For every non-empty id [x], the list filed under [x] in
    [actions_by_result] holds exactly the ids of the actions of the graph
    whose ["result"] list names [x], inline or as a nested object with id
    [x]; it lists them in the order in which the actions occur in the
    graph, once per occurrence of [x] in the action's list, so that several
    actions may be filed under one id.  The same holds for
    [actions_by_input] and the ["object"] lists.  When ids are unique, an
    action's id is in the list if and only if that very action names [x].
    On every graph the keys of each index are exactly the non-empty ids
    that the list of some action names, so nothing is filed under the
    empty id or for a nested object without id, and the lists of the
    empty id are empty. *)
Theorem index_membership_and_order (g : list entity) (x : string) :
  let c := init g in
  (x <> "" ->
   (forall aid,
       In aid (producers c x) <->
       exists a, In a (actions c) /\ e_id a = aid
                 /\ refs_contain x (get_list (e_result a)) = true)
   /\ (forall aid,
         In aid (consumers c x) <->
         exists a, In a (actions c) /\ e_id a = aid
                   /\ refs_contain x (get_list (e_object a)) = true)
   /\ producers c x
      = flat_map
          (fun a => repeat (e_id a) (ref_count x (get_list (e_result a))))
          (filter (fun e => has_type e "CreateAction") g)
   /\ consumers c x
      = flat_map
          (fun a => repeat (e_id a) (ref_count x (get_list (e_object a))))
          (filter (fun e => has_type e "CreateAction") g)
   /\ (NoDup (map e_id g) ->
       forall a, In a (actions c) ->
         (In (e_id a) (producers c x)
          <-> refs_contain x (get_list (e_result a)) = true)
         /\ (In (e_id a) (consumers c x)
             <-> refs_contain x (get_list (e_object a)) = true)))
  /\ producers c "" = [] /\ consumers c "" = []
  /\ (forall k,
        In k (Dict.keys (actions_by_result c)) <->
        k <> ""
        /\ exists a, In a (actions c)
                     /\ refs_contain k (get_list (e_result a)) = true)
  /\ (forall k,
        In k (Dict.keys (actions_by_input c)) <->
        k <> ""
        /\ exists a, In a (actions c)
                     /\ refs_contain k (get_list (e_object a)) = true).
Proof.
  intros c. split.
  2:{ destruct (empty_id_not_indexed g) as [E1 E2].
      split; [exact E1|]. split; [exact E2|].
      split; intros k; apply (index_keys g k). }
  intros Hx.
  assert (Hp : forall aid,
      In aid (producers c x) <->
      exists a, In a (actions c) /\ e_id a = aid
                /\ refs_contain x (get_list (e_result a)) = true).
  { intros aid. unfold c. rewrite producers_init, in_flat_map. split.
    - intros [a [Ha Hin]]. apply in_repeat_iff in Hin.
      destruct Hin as [-> Hn]. exists a. repeat split; [exact Ha|].
      apply ref_count_pos. now rewrite <- indexed_count_nonempty.
    - intros [a [Ha [<- Hc]]]. exists a. split; [exact Ha|].
      apply in_repeat_iff. split; [reflexivity|].
      rewrite indexed_count_nonempty by exact Hx. now apply ref_count_pos. }
  assert (Hc : forall aid,
      In aid (consumers c x) <->
      exists a, In a (actions c) /\ e_id a = aid
                /\ refs_contain x (get_list (e_object a)) = true).
  { intros aid. unfold c. rewrite consumers_init, in_flat_map. split.
    - intros [a [Ha Hin]]. apply in_repeat_iff in Hin.
      destruct Hin as [-> Hn]. exists a. repeat split; [exact Ha|].
      apply ref_count_pos. now rewrite <- indexed_count_nonempty.
    - intros [a [Ha [<- Hr]]]. exists a. split; [exact Ha|].
      apply in_repeat_iff. split; [reflexivity|].
      rewrite indexed_count_nonempty by exact Hx. now apply ref_count_pos. }
  split; [exact Hp|]. split; [exact Hc|].
  split; [|split].
  - unfold c. rewrite producers_init, actions_init.
    apply flat_map_ext. intros a. now rewrite indexed_count_nonempty.
  - unfold c. rewrite consumers_init, actions_init.
    apply flat_map_ext. intros a. now rewrite indexed_count_nonempty.
  - intros Hnd a Ha. split; split.
    + intros H. apply Hp in H. destruct H as [a' [Ha' [E Hr]]].
      assert (a' = a) as <-; [|exact Hr].
      apply (NoDup_map_eq e_id g); auto using actions_in_graph.
    + intros H. apply Hp. now exists a.
    + intros H. apply Hc in H. destruct H as [a' [Ha' [E Hr]]].
      assert (a' = a) as <-; [|exact Hr].
      apply (NoDup_map_eq e_id g); auto using actions_in_graph.
    + intros H. apply Hc. now exists a.
Qed.

Lemma index_membership_and_order_witness :
  "processed_data.csv" <> ""
  /\ producers (init multi_file_graph) "processed_data.csv" = ["#action1"]
  /\ consumers (init multi_file_graph) "processed_data.csv" = ["#action2"].
Proof.
  assert (H : "processed_data.csv" <> "") by discriminate.
  split; [exact H|].
  destruct (index_membership_and_order multi_file_graph "processed_data.csv")
    as [Hx _].
  destruct (Hx H) as (_ & _ & Hp & Hc & _).
  split; [rewrite Hp | rewrite Hc]; reflexivity.
Defined.

(** C1 as stated fails at the empty id: the action ["#run"] lists [""] in
    its ["result"], yet nothing is filed under [""]. *)
Lemma index_skips_empty_id :
  exists a,
    In a (actions (init empty_id_graph))
    /\ refs_contain "" (get_list (e_result a)) = true
    /\ ~ In (e_id a) (producers (init empty_id_graph) "").
Proof.
  exists (action_entity "#run" "run" None [] [RefId ""]).
  split; [now left|]. split; [reflexivity|].
  vm_compute. tauto.
Qed.

(** Several actions filed under one id, in graph order. *)
Example index_holds_several_actions :
  producers
    (init [ action_entity "#b" "second" None [] [RefId "out.csv"];
            action_entity "#a" "first" None [] [RefObj (Some "out.csv")] ])
    "out.csv"
  = ["#b"; "#a"].
Proof. reflexivity. Qed.

(** ** Selector resolution *)

Lemma find_id_none (p : entity -> bool) g k :
  ~ In k (map e_id g) -> find (fun e => p e && (e_id e =? k)) g = None.
Proof.
  induction g as [|a g IH]; simpl; [reflexivity|].
  intros Hn. destruct (e_id a =? k) eqn:E.
  - apply String.eqb_eq in E. tauto.
  - rewrite andb_false_r. apply IH. tauto.
Qed.

Lemma get_by_id_find g k :
  NoDup (map e_id g) ->
  match Dict.get k (map (fun e => (e_id e, e)) g) with
  | Some ent => if has_type ent "File" then Some ent else None
  | None => None
  end
  = find (fun e => has_type e "File" && (e_id e =? k)) g.
Proof.
  induction g as [|a g IH]; simpl; [reflexivity|].
  intros Hnd. inversion Hnd as [|? ? Hn Hnd']; subst.
  destruct (e_id a =? k) eqn:E.
  - apply String.eqb_eq in E. subst k. rewrite andb_true_r.
    destruct (has_type a "File"); [reflexivity|].
    symmetry. now apply find_id_none.
  - rewrite andb_false_r. now apply IH.
Qed.

(** With unique ids the resolver computes the three rules on the graph. *)
Lemma get_file_entities_rules g selector :
  NoDup (map e_id g) ->
  get_file_entities (init g) selector = resolve_rules g selector.
Proof.
  intros Hnd.
  unfold get_file_entities, resolve_rules, find_files_by_altname.
  rewrite by_id_values_unique, graph_init by exact Hnd.
  rewrite by_id_unique by exact Hnd.
  rewrite get_by_id_find by exact Hnd.
  destruct (find _ g); [reflexivity|].
  destruct (filter _ g); reflexivity.
Qed.

(** C3. With unique entity ids, [get_file_entities] applies three rules in
    priority order and stops at the first one with a non-empty result: the
    [File] whose id is the selector, alone; else every [File] whose
    [alternateName] equals the selector, in graph order; else every [File]
    whose [alternateName] (the empty string when the attribute is absent,
    as in the source) contains the selector, in graph order.  In
    particular a [File] whose id is the selector is the only result,
    whatever the display names of the other entities. *)
Theorem selector_priority (g : list entity) (selector : string) :
  NoDup (map e_id g) ->
  get_file_entities (init g) selector = resolve_rules g selector
  /\ (forall e, In e g -> has_type e "File" = true -> e_id e = selector ->
        get_file_entities (init g) selector = [e]).
Proof.
  intros Hnd.
  pose proof (@get_file_entities_rules g selector Hnd) as H1.
  split; [exact H1|].
  intros e Hin Hf Hid. rewrite H1. unfold resolve_rules.
  destruct (find _ g) as [e'|] eqn:Ef.
  - apply find_some in Ef. destruct Ef as [Hin' Hp].
    apply andb_true_iff in Hp. destruct Hp as [_ Hid'].
    apply String.eqb_eq in Hid'. f_equal.
    apply (NoDup_map_eq e_id g); congruence.
  - exfalso. apply (find_none _ _ Ef) in Hin.
    rewrite Hf, Hid, String.eqb_refl in Hin. discriminate.
Qed.

Lemma selector_priority_witness :
  NoDup (map e_id priority_graph)
  /\ get_file_entities (init priority_graph) "f1"
     = [file_entity "f1" "first.csv" None].
Proof.
  assert (H : NoDup (map e_id priority_graph)).
  { repeat constructor; simpl; intuition discriminate. }
  split; [exact H|].
  destruct (@selector_priority priority_graph "f1" H) as [_ Hid].
  apply Hid; [now left | reflexivity | reflexivity].
Defined.

(** ** Input partitioning *)

(** Bucket-wise concatenation. *)
Lemma add_input_app d obj inputs :
  add_input d inputs obj
  = let b := bucket_inputs (resolve_refs d [obj]) in
    {| in_files := in_files inputs ++ in_files b;
       in_datasets := in_datasets inputs ++ in_datasets b;
       in_parameters := in_parameters inputs ++ in_parameters b;
       in_other := in_other inputs ++ in_other b |}.
Proof.
  unfold add_input, resolve_refs, bucket_inputs. simpl.
  destruct (get_opt (ref_id obj) d) as [ent|]; simpl.
  - unfold is_file, is_dataset, is_parameter, is_other.
    destruct (has_type ent "File"); simpl; [now rewrite !app_nil_r|].
    destruct (has_type ent "Dataset"); simpl; [now rewrite !app_nil_r|].
    destruct (has_type ent "PropertyValue"); simpl; now rewrite !app_nil_r.
  - destruct inputs. simpl. now rewrite !app_nil_r.
Qed.

Lemma resolve_refs_cons d obj objs :
  resolve_refs d (obj :: objs) = resolve_refs d [obj] ++ resolve_refs d objs.
Proof. unfold resolve_refs. simpl. now rewrite app_nil_r. Qed.

Lemma fold_add_input d : forall objs inputs,
  fold_left (add_input d) objs inputs
  = let b := bucket_inputs (resolve_refs d objs) in
    {| in_files := in_files inputs ++ in_files b;
       in_datasets := in_datasets inputs ++ in_datasets b;
       in_parameters := in_parameters inputs ++ in_parameters b;
       in_other := in_other inputs ++ in_other b |}.
Proof.
  induction objs as [|obj objs IH]; intros inputs.
  - destruct inputs. simpl. now rewrite !app_nil_r.
  - cbn [fold_left]. rewrite IH, add_input_app.
    rewrite (resolve_refs_cons d obj objs). cbv zeta. unfold bucket_inputs.
    cbn [in_files in_datasets in_parameters in_other].
    now rewrite !filter_app, !map_app, <- !app_assoc.
Qed.

(** The partition loop puts every resolved input into the bucket of its
    kind, in list order. *)
Lemma partition_inputs_buckets d objs :
  partition_inputs d objs = bucket_inputs (resolve_refs d objs).
Proof.
  unfold partition_inputs. rewrite fold_add_input. reflexivity.
Qed.

Lemma site_ids_of_buckets ents :
  site_ids_of (bucket_inputs ents) = site_id_values ents.
Proof.
  unfold site_ids_of, site_id_values, bucket_inputs. simpl.
  induction ents as [|e ents IH]; simpl; [reflexivity|].
  destruct (is_parameter e); simpl; [|exact IH].
  destruct (opt_eqb (e_name e) "site_id"); simpl; now rewrite IH.
Qed.

(** ** Direct lineage *)

Lemma map_result_ok (A B : Type) (f : A -> result B) (h : A -> B -> Prop) :
  forall l,
    (forall a, In a l -> exists b, f a = Ok b /\ h a b) ->
    exists bs, map_result f l = Ok bs /\ Forall2 h l bs.
Proof.
  induction l as [|a l IH]; intros H; simpl.
  - exists []. split; [reflexivity | constructor].
  - destruct (H a (or_introl eq_refl)) as [b [Eb Hb]].
    destruct IH as [bs [Ebs Hbs]].
    { intros a' Ha'. apply H. now right. }
    exists (b :: bs). rewrite Eb, Ebs. simpl. split; [reflexivity|].
    now constructor.
Qed.

Lemma lineage_of_producer_ok g f aid x :
  In aid (producers (init g) x) ->
  exists act,
    Dict.get aid (by_id (init g)) = Some act
    /\ lineage_of_producer (init g) f aid
       = Ok (produced_record (init g) f act).
Proof.
  intros H. destruct (producers_resolve _ _ _ H) as [act Hact].
  exists act. split; [exact Hact|].
  unfold lineage_of_producer, Dict.item. rewrite Hact. simpl.
  unfold produced_record.
  now rewrite partition_inputs_buckets, site_ids_of_buckets.
Qed.

(** The records of [get_file_lineage], block by block. *)
Lemma get_file_lineage_blocks (g : list entity) (selector : string) :
  exists blocks,
    get_file_lineage (init g) selector = Ok (concat blocks)
    /\ Forall2
         (fun f block =>
            (producers (init g) (e_id f) = [] -> block = [orphan_record f])
            /\ (producers (init g) (e_id f) <> [] ->
                Forall2
                  (fun aid r =>
                     exists act,
                       Dict.get aid (by_id (init g)) = Some act
                       /\ r = produced_record (init g) f act)
                  (producers (init g) (e_id f)) block))
         (get_file_entities (init g) selector) blocks.
Proof.
  unfold get_file_lineage.
  destruct (@map_result_ok _ _ (lineage_of_file (init g))
    (fun f block =>
       (producers (init g) (e_id f) = [] -> block = [orphan_record f])
       /\ (producers (init g) (e_id f) <> [] ->
           Forall2
             (fun aid r =>
                exists act,
                  Dict.get aid (by_id (init g)) = Some act
                  /\ r = produced_record (init g) f act)
             (producers (init g) (e_id f)) block))
    (get_file_entities (init g) selector)) as [blocks [E H]].
  - intros f _. unfold lineage_of_file.
    fold (producers (init g) (e_id f)).
    destruct (producers (init g) (e_id f)) as [|aid ps] eqn:Ep.
    + eexists. split; [reflexivity|]. split; [reflexivity | congruence].
    + destruct (@map_result_ok _ _ (lineage_of_producer (init g) f)
        (fun aid r =>
           exists act,
             Dict.get aid (by_id (init g)) = Some act
             /\ r = produced_record (init g) f act)
        (aid :: ps)) as [rs [Ers Hrs]].
      * intros a Ha. rewrite <- Ep in Ha.
        destruct (lineage_of_producer_ok g f _ _ Ha) as [act [Hact Hr]].
        exists (produced_record (init g) f act). split; [exact Hr|].
        now exists act.
      * exists rs. split; [exact Ers|]. split; [discriminate | auto].
  - exists blocks. rewrite E. simpl. split; [reflexivity | exact H].
Qed.

Lemma get_file_lineage_ok g selector :
  exists rs, get_file_lineage (init g) selector = Ok rs.
Proof.
  destruct (get_file_lineage_blocks g selector) as [blocks [E _]].
  now exists (concat blocks).
Qed.

(** C4 (amended). [get_file_lineage] never raises on a crate built from a
    graph, and its result is the concatenation, over the resolved files in
    order, of one block of records per file.  A file with no entry in
    [actions_by_result] gets the single record [{file: summary,
    produced_by: None, site_ids: [], note: "No CreateAction found that
    lists this file in its result."}].  A file with [n >= 1] entries gets
    [n] records, the i-th built from the i-th entry: the file summary, the
    action and tool summaries, the resolved inputs in their four buckets,
    and as [site_ids] the values, in input order, of the inputs of kind
    parameter whose name is ["site_id"]; such a record has no note. *)
Theorem lineage_records (g : list entity) (selector : string) :
  exists blocks,
    get_file_lineage (init g) selector = Ok (concat blocks)
    /\ Forall2
         (fun f block =>
            (producers (init g) (e_id f) = [] -> block = [orphan_record f])
            /\ (producers (init g) (e_id f) <> [] ->
                Forall2
                  (fun aid r =>
                     exists act,
                       Dict.get aid (by_id (init g)) = Some act
                       /\ r = produced_record (init g) f act)
                  (producers (init g) (e_id f)) block))
         (get_file_entities (init g) selector) blocks.
Proof. exact (get_file_lineage_blocks g selector). Qed.

(** C4 as stated fails twice: the note of a file without producer is not
    the text ["no producer"], and a file that one action lists twice in its
    ["result"] gets two records although a single action produces it. *)
Lemma lineage_note_and_fanout :
  (exists r,
      get_file_lineage (init orphan_graph) "orphan.csv" = Ok [r]
      /\ lr_produced_by r = None
      /\ lr_note r <> Some "no producer")
  /\ (exists r,
        get_file_lineage (init twice_graph) "twice.csv" = Ok [r; r]
        /\ length
             (filter
                (fun a => refs_contain "twice.csv" (get_list (e_result a)))
                (actions (init twice_graph))) = 1).
Proof.
  split.
  - eexists. split; [reflexivity|]. split; [reflexivity | discriminate].
  - eexists. split; reflexivity.
Qed.

(** The lineage scenario of the test suite: the action that produces
    ["test_output.csv"] has a parameter [site_id = site001]. *)
Example lineage_scenario :
  exists r,
    get_file_lineage (init sample_graph) "test_output.csv" = Ok [r]
    /\ lr_site_ids r = [Some "site001"].
Proof. eexists. split; reflexivity. Qed.

(** ** The walkers are instances of the common skeleton *)

Lemma state_eta st :
  {| q := q st;
     visited_entities := visited_entities st;
     visited_actions := visited_actions st;
     entity_nodes := entity_nodes st;
     action_nodes := action_nodes st;
     edges := edges st |} = st.
Proof. now destruct st. Qed.

Lemma fold_ancestry_recurse (A : Type) (f : A -> string) max_depth act_id depth :
  forall l st,
    fold_left (fun st x => ancestry_recurse max_depth act_id depth st (f x)) l st
    = {| q := q st
              ++ (if within_depth max_depth depth
                  then map (fun i => (i, (depth + 1)%Z)) (map f l)
                  else []);
         visited_entities := visited_entities st;
         visited_actions := visited_actions st;
         entity_nodes := entity_nodes st;
         action_nodes := action_nodes st;
         edges := edges st
                  ++ map (fun i => {| edge_type := "used";
                                      edge_action := act_id;
                                      edge_entity := i |}) (map f l) |}.
Proof.
  induction l as [|x l IH]; intros st; simpl.
  - destruct (within_depth max_depth depth); rewrite !app_nil_r;
      symmetry; apply state_eta.
  - rewrite IH. unfold ancestry_recurse.
    destruct (within_depth max_depth depth); simpl;
      now rewrite <- !app_assoc.
Qed.

Lemma ancestry_visit_action_walk self max_depth ent_id depth st act_id :
  ancestry_visit_action self max_depth ent_id depth st act_id
  = walk_visit (by_id self) "generated" "used" (ancestry_expand self)
      max_depth ent_id depth st act_id.
Proof.
  unfold ancestry_visit_action, walk_visit.
  destruct (Dict.get act_id (by_id self)) as [act|]; [|reflexivity].
  destruct (mem act_id (visited_actions (append_edge st "generated" act_id ent_id)));
    [reflexivity|].
  rewrite !fold_ancestry_recurse. unfold ancestry_expand. simpl.
  destruct (within_depth max_depth depth);
    now rewrite ?map_app, <- ?app_assoc, ?app_nil_r.
Qed.

Lemma fold_left_ext_in (A B : Type) (f g : A -> B -> A) (l : list B) :
  (forall a b, f a b = g a b) ->
  forall a, fold_left f l a = fold_left g l a.
Proof.
  intros H. induction l as [|b l IH]; intros a; simpl; [reflexivity|].
  now rewrite H, IH.
Qed.

Lemma ancestry_step_walk self max_depth st :
  ancestry_step self max_depth st
  = walk_step (by_id self) (actions_by_result self) "generated" "used"
      (ancestry_expand self) max_depth st.
Proof.
  unfold ancestry_step, walk_step.
  destruct (q st) as [|[ent_id depth] q']; [reflexivity|].
  destruct (mem ent_id _); [reflexivity|].
  destruct (Dict.get ent_id (by_id self)) as [ent|]; [|reflexivity].
  destruct (classify_node ent); [|reflexivity].
  apply fold_left_ext_in. intros. apply ancestry_visit_action_walk.
Qed.

Lemma descend_output_one self max_depth act_id depth res outputs st :
  descend_output self max_depth act_id depth (outputs, st) res
  = (let b := bucket_outputs (resolve_refs (by_id self) [res]) in
     {| out_files := out_files outputs ++ out_files b;
        out_datasets := out_datasets outputs ++ out_datasets b;
        out_other := out_other outputs ++ out_other b |},
     let ids := map e_id (filter is_data (resolve_refs (by_id self) [res])) in
     {| q := q st
             ++ (if within_depth max_depth depth
                 then map (fun i => (i, (depth + 1)%Z)) ids
                 else []);
        visited_entities := visited_entities st;
        visited_actions := visited_actions st;
        entity_nodes := entity_nodes st;
        action_nodes := action_nodes st;
        edges := edges st
                 ++ map (fun i => {| edge_type := "generated";
                                     edge_action := act_id;
                                     edge_entity := i |}) ids |}).
Proof.
  unfold descend_output, resolve_refs, bucket_outputs, descend_enqueue.
  cbn [fst snd flat_map].
  destruct (get_opt (ref_id res) (by_id self)) as [ent|]; simpl.
  - unfold is_data, is_file, is_dataset.
    destruct (has_type ent "File"); simpl.
    + destruct (within_depth max_depth depth); simpl;
        now rewrite ?app_nil_r.
    + destruct (has_type ent "Dataset"); simpl.
      * destruct (within_depth max_depth depth); simpl;
          now rewrite ?app_nil_r.
      * destruct (within_depth max_depth depth); simpl;
          now rewrite ?app_nil_r, state_eta.
  - destruct outputs. simpl.
    destruct (within_depth max_depth depth); simpl;
      now rewrite ?app_nil_r, state_eta.
Qed.

Lemma fold_descend_output self max_depth act_id depth :
  forall results outputs st,
    fold_left (descend_output self max_depth act_id depth) results (outputs, st)
    = (let b := bucket_outputs (resolve_refs (by_id self) results) in
       {| out_files := out_files outputs ++ out_files b;
          out_datasets := out_datasets outputs ++ out_datasets b;
          out_other := out_other outputs ++ out_other b |},
       let ids := map e_id (filter is_data (resolve_refs (by_id self) results)) in
       {| q := q st
               ++ (if within_depth max_depth depth
                   then map (fun i => (i, (depth + 1)%Z)) ids
                   else []);
          visited_entities := visited_entities st;
          visited_actions := visited_actions st;
          entity_nodes := entity_nodes st;
          action_nodes := action_nodes st;
          edges := edges st
                   ++ map (fun i => {| edge_type := "generated";
                                       edge_action := act_id;
                                       edge_entity := i |}) ids |}).
Proof.
  induction results as [|res results IH]; intros outputs st.
  - simpl. destruct outputs.
    destruct (within_depth max_depth depth); simpl;
      now rewrite !app_nil_r, state_eta.
  - cbn [fold_left]. rewrite descend_output_one, IH.
    rewrite (resolve_refs_cons (by_id self) res results).
    cbv zeta. unfold bucket_outputs.
    cbn [out_files out_datasets out_other q edges visited_entities
         visited_actions entity_nodes action_nodes].
    rewrite !filter_app, !map_app.
    destruct (within_depth max_depth depth);
      now rewrite <- ?app_assoc, ?app_nil_r.
Qed.

Lemma descend_visit_action_walk self max_depth ent_id depth st act_id :
  descend_visit_action self max_depth ent_id depth st act_id
  = walk_visit (by_id self) "used" "generated" (descend_expand self)
      max_depth ent_id depth st act_id.
Proof.
  unfold descend_visit_action, walk_visit.
  destruct (Dict.get act_id (by_id self)) as [act|]; [|reflexivity].
  destruct (mem act_id (visited_actions (append_edge st "used" act_id ent_id)));
    [reflexivity|].
  rewrite fold_descend_output. unfold descend_expand. reflexivity.
Qed.

Lemma descend_step_walk self max_depth st :
  descend_step self max_depth st
  = walk_step (by_id self) (actions_by_input self) "used" "generated"
      (descend_expand self) max_depth st.
Proof.
  unfold descend_step, walk_step.
  destruct (q st) as [|[ent_id depth] q']; [reflexivity|].
  destruct (mem ent_id _); [reflexivity|].
  destruct (Dict.get ent_id (by_id self)) as [ent|]; [|reflexivity].
  destruct (classify_node ent); [|reflexivity].
  apply fold_left_ext_in. intros. apply descend_visit_action_walk.
Qed.

(** ** Work left for a walk *)

Lemma unexpanded_mono w (d : Dict.t entity) V V' :
  incl V V' -> unexpanded w d V' <= unexpanded w d V.
Proof.
  intros Hi. unfold unexpanded.
  induction d as [|[k e] d IH]; simpl; [lia|].
  destruct (mem k V) eqn:E.
  - apply mem_In in E. apply Hi in E. apply mem_In in E. rewrite E. lia.
  - destruct (mem k V'); lia.
Qed.

(** Marking an action visited frees at least its own weight. *)
Lemma unexpanded_visit w (d : Dict.t entity) V a act :
  Dict.get a d = Some act -> ~ In a V ->
  unexpanded w d (a :: V) + w act <= unexpanded w d V.
Proof.
  intros Hget Hn. unfold unexpanded.
  induction d as [|[k e] d IH]; simpl in *; [discriminate|].
  destruct (k =? a) eqn:E.
  - injection Hget as ->. apply String.eqb_eq in E. subst k.
    apply mem_false in Hn. rewrite Hn. simpl.
    pose proof (@unexpanded_mono w d V (a :: V)
                  (fun x H => or_intror H)) as Hm.
    unfold unexpanded in Hm. simpl in Hm. lia.
  - simpl. specialize (IH Hget). destruct (mem k V); lia.
Qed.

Lemma unexpanded_nil w (d : Dict.t entity) :
  unexpanded w d [] = list_sum (map (fun kv => w (snd kv)) d).
Proof. reflexivity. Qed.

(** ** The loop *)

Section Loop.
Variable step : walk_state -> walk_state.

(** A property kept by the loop body holds when the loop exits, and the
    queue is then empty. *)
Lemma walk_loop_invariant (P : walk_state -> Prop) :
  (forall st, P st -> P (step st)) ->
  forall fuel st st',
    P st -> walk_loop step fuel st = Some st' -> P st' /\ q st' = [].
Proof.
  intros Hstep. induction fuel as [|fuel IH]; intros st st' HP; simpl.
  - destruct (q st) eqn:Eq; [|discriminate]. intros [= <-]. now split.
  - destruct (q st) eqn:Eq.
    + intros [= <-]. now split.
    + apply IH. now apply Hstep.
Qed.

(** A measure that every iteration decreases bounds the number of
    iterations. *)
Lemma walk_loop_terminates (m : walk_state -> nat) :
  (forall st, q st <> [] -> m (step st) < m st) ->
  forall fuel st, m st <= fuel -> exists st', walk_loop step fuel st = Some st'.
Proof.
  intros Hm. induction fuel as [|fuel IH]; intros st Hle; simpl.
  - destruct (q st) eqn:Eq; [now exists st|].
    assert (Hq : q st <> []) by (rewrite Eq; discriminate).
    apply Hm in Hq. lia.
  - destruct (q st) eqn:Eq; [now exists st|].
    apply IH.
    assert (Hq : q st <> []) by (rewrite Eq; discriminate).
    apply Hm in Hq. lia.
Qed.

(** Once the loop has exited, a larger budget changes nothing. *)
Lemma walk_loop_more_fuel :
  forall fuel fuel' st st',
    walk_loop step fuel st = Some st' -> fuel <= fuel' ->
    walk_loop step fuel' st = Some st'.
Proof.
  induction fuel as [|fuel IH]; intros fuel' st st'; simpl.
  - destruct (q st) eqn:Eq; [|discriminate]. intros H _.
    destruct fuel'; simpl; now rewrite Eq.
  - destruct (q st) eqn:Eq.
    + intros H _. destruct fuel'; simpl; now rewrite Eq.
    + intros H Hle. destruct fuel' as [|fuel']; [lia|]. simpl. rewrite Eq.
      apply IH; [exact H | lia].
Qed.

Lemma iterate_succ_r n st :
  iterate step (S n) st = iterate step n (step st).
Proof.
  unfold iterate. induction n as [|n IH]; [reflexivity|].
  simpl in *. now rewrite IH.
Qed.

(** The state at loop exit is the state after some number of iterations,
    each of which found the queue non-empty. *)
Lemma walk_loop_iterate :
  forall fuel st st',
    walk_loop step fuel st = Some st' ->
    exists n, st' = iterate step n st
              /\ forall i, i < n -> q (iterate step i st) <> [].
Proof.
  induction fuel as [|fuel IH]; intros st st'; simpl.
  - destruct (q st) eqn:Eq; [|discriminate]. intros [= <-].
    exists 0. split; [reflexivity | intros; lia].
  - destruct (q st) eqn:Eq.
    + intros [= <-]. exists 0. split; [reflexivity | intros; lia].
    + intros H. apply IH in H. destruct H as [n [-> Hn]].
      exists (S n). split.
      * now rewrite iterate_succ_r.
      * intros [|i] Hi; [simpl; rewrite Eq; discriminate|].
        rewrite iterate_succ_r. apply Hn. lia.
Qed.
End Loop.

(** ** One round over the actions of an entity *)

Section WalkFacts.
Variable d : Dict.t entity.
Variable index : Dict.t (list string).
Variable entity_edge action_edge : string.
Variable expand : entity -> action_node * list string.
Variable max_depth : option Z.

Local Abbreviation visit :=
  (walk_visit d entity_edge action_edge expand max_depth).
Local Abbreviation step :=
  (walk_step d index entity_edge action_edge expand max_depth).

(** What a visit leaves alone and what it may add. *)
Lemma visit_effect ent_id depth st a :
  let st' := visit ent_id depth st a in
  visited_entities st' = visited_entities st
  /\ entity_nodes st' = entity_nodes st
  /\ (exists es,
        edges st' = edges st ++ es
        /\ forall ed, In ed es ->
             exists act, Dict.get a d = Some act
               /\ edge_action ed = a
               /\ ((edge_type ed = entity_edge /\ edge_entity ed = ent_id)
                   \/ (edge_type ed = action_edge
                       /\ In (edge_entity ed) (snd (expand act)))))
  /\ (exists items,
        q st' = q st ++ items
        /\ forall it, In it items ->
             within_depth max_depth depth = true
             /\ snd it = (depth + 1)%Z
             /\ exists act, Dict.get a d = Some act
                            /\ In (fst it) (snd (expand act)))
  /\ (forall k, In k (Dict.keys (action_nodes st')) <->
                In k (Dict.keys (action_nodes st))
                \/ (k = a /\ Dict.get a d <> None
                    /\ ~ In a (visited_actions st)))
  /\ (forall k, In k (visited_actions st') <->
                In k (visited_actions st) \/ (k = a /\ Dict.get a d <> None)).
Proof.
  unfold walk_visit. cbv zeta.
  destruct (Dict.get a d) as [act|] eqn:Ea.
  2:{ split; [reflexivity|]. split; [reflexivity|].
      split; [exists []; rewrite app_nil_r; split;
              [reflexivity | intros ? []]|].
      split; [exists []; rewrite app_nil_r; split;
              [reflexivity | intros ? []]|].
      split; intros k; (split; [now left|]).
      - intros [H | [_ [H _]]]; [exact H | congruence].
      - intros [H | [_ H]]; [exact H | congruence]. }
  cbn [append_edge visited_actions].
  destruct (mem a (visited_actions st)) eqn:Em.
  - apply mem_In in Em.
    cbn [q visited_entities visited_actions entity_nodes action_nodes edges
         append_edge].
    split; [reflexivity|]. split; [reflexivity|].
    split; [|split; [|split]].
    + eexists. split; [reflexivity|]. intros ed [<- | []].
      exists act. cbn. auto.
    + exists []. rewrite app_nil_r. split; [reflexivity | intros ? []].
    + intros k. split; [now left|].
      intros [H | [_ [_ H]]]; [exact H | contradiction].
    + intros k. split; [now left|].
      intros [H | [-> _]]; [exact H | exact Em].
  - apply mem_false in Em.
    cbn [q visited_entities visited_actions entity_nodes action_nodes edges
         append_edge].
    split; [reflexivity|]. split; [reflexivity|].
    split; [|split; [|split]].
    + eexists. rewrite <- app_assoc. split; [reflexivity|].
      intros ed [<- | Hin].
      * exists act. cbn. auto.
      * apply in_map_iff in Hin. destruct Hin as [i [<- Hi]].
        exists act. cbn. auto.
    + eexists. split; [reflexivity|]. intros it Hin.
      destruct (within_depth max_depth depth); [|destruct Hin].
      apply in_map_iff in Hin. destruct Hin as [i [<- Hi]].
      cbn. repeat split. now exists act.
    + intros k. rewrite dict_keys_set. split.
      * intros [-> | H]; [right | now left].
        repeat split; [discriminate | exact Em].
      * intros [H | [-> _]]; [now right | now left].
    + intros k. split.
      * intros [<- | H]; [right | now left].
        split; [reflexivity | discriminate].
      * intros [H | [-> _]]; [now right | now left].
Qed.

(** The same over a whole round. *)
Lemma fold_visit_effect ent_id depth : forall l st,
  let st' := fold_left (visit ent_id depth) l st in
  visited_entities st' = visited_entities st
  /\ entity_nodes st' = entity_nodes st
  /\ (exists es,
        edges st' = edges st ++ es
        /\ forall ed, In ed es ->
             exists a act, In a l /\ Dict.get a d = Some act
               /\ edge_action ed = a
               /\ ((edge_type ed = entity_edge /\ edge_entity ed = ent_id)
                   \/ (edge_type ed = action_edge
                       /\ In (edge_entity ed) (snd (expand act)))))
  /\ (exists items,
        q st' = q st ++ items
        /\ forall it, In it items ->
             within_depth max_depth depth = true
             /\ snd it = (depth + 1)%Z
             /\ exists a act, In a l /\ Dict.get a d = Some act
                              /\ In (fst it) (snd (expand act)))
  /\ (forall k, In k (Dict.keys (action_nodes st')) <->
                In k (Dict.keys (action_nodes st))
                \/ (In k l /\ Dict.get k d <> None
                    /\ ~ In k (visited_actions st)))
  /\ (forall k, In k (visited_actions st') <->
                In k (visited_actions st) \/ (In k l /\ Dict.get k d <> None)).
Proof.
  induction l as [|a l IH]; intros st; cbn [fold_left]; cbv zeta.
  - split; [reflexivity|]. split; [reflexivity|].
    split; [exists []; rewrite app_nil_r; split;
            [reflexivity | intros ? []]|].
    split; [exists []; rewrite app_nil_r; split;
            [reflexivity | intros ? []]|].
    split; intros k; (split; [now left|]); intros [H | [[] _]]; exact H.
  - destruct (IH (visit ent_id depth st a))
      as (H1 & H2 & (es2 & He2 & Hes2) & (it2 & Hq2 & Hit2) & H5 & H6).
    destruct (visit_effect ent_id depth st a)
      as (G1 & G2 & (es1 & He1 & Hes1) & (it1 & Hq1 & Hit1) & G5 & G6).
    cbv zeta in *.
    split; [congruence|]. split; [congruence|].
    split; [|split; [|split]].
    + exists (es1 ++ es2). rewrite He2, He1, <- app_assoc.
      split; [reflexivity|]. intros ed Hin. apply in_app_or in Hin.
      destruct Hin as [Hin | Hin].
      * destruct (Hes1 _ Hin) as [act [? ?]]. exists a, act.
        split; [now left | tauto].
      * destruct (Hes2 _ Hin) as [a' [act [? ?]]]. exists a', act.
        split; [now right | tauto].
    + exists (it1 ++ it2). rewrite Hq2, Hq1, <- app_assoc.
      split; [reflexivity|]. intros it Hin. apply in_app_or in Hin.
      destruct Hin as [Hin | Hin].
      * destruct (Hit1 _ Hin) as (? & ? & act & ? & ?).
        repeat split; auto. exists a, act. split; [now left | tauto].
      * destruct (Hit2 _ Hin) as (? & ? & a' & act & ? & ?).
        repeat split; auto. exists a', act. split; [now right | tauto].
    + intros k. rewrite H5, G5, G6. simpl. split.
      * intros [[H | (E & Hd & Hv)] | (Hl & Hd & Hv)].
        -- now left.
        -- subst k. right. split; [now left|]. split; assumption.
        -- right. split; [now right|]. split; [assumption|].
           intros Hk. apply Hv. now left.
      * intros [H | ([E | Hl] & Hd & Hv)].
        -- left. now left.
        -- subst k. left. right. auto.
        -- destruct (string_dec k a) as [E | Hne].
           ++ subst k. left. right. auto.
           ++ right. split; [assumption|]. split; [assumption|].
              intros [H | [H _]]; contradiction.
    + intros k. rewrite H6, G6. simpl. split.
      * intros [[H | (E & Hd)] | (Hl & Hd)].
        -- now left.
        -- subst k. right. split; [now left | assumption].
        -- right. split; [now right | assumption].
      * intros [H | ([E | Hl] & Hd)].
        -- left. now left.
        -- subst k. left. right. auto.
        -- right. auto.
Qed.

(** The four ways an iteration can go. *)
Lemma step_cases st :
  (q st = [] /\ step st = st)
  \/ exists e depth q',
       q st = (e, depth) :: q'
       /\ ((In e (visited_entities st) /\ step st = set_q st q')
           \/ (~ In e (visited_entities st)
               /\ (Dict.get e d = None
                   \/ exists ent, Dict.get e d = Some ent
                                  /\ classify_node ent = None)
               /\ step st = add_visited_entity (set_q st q') e)
           \/ (~ In e (visited_entities st)
               /\ exists ent s,
                    Dict.get e d = Some ent /\ classify_node ent = Some s
                    /\ step st
                       = fold_left (visit e depth)
                           (Dict.get_default e [] index)
                           (set_entity_node
                              (add_visited_entity (set_q st q') e) e s))).
Proof.
  unfold walk_step. destruct (q st) as [|[e depth] q'] eqn:Eq; [now left|].
  right. exists e, depth, q'. split; [reflexivity|].
  cbn [set_q visited_entities].
  destruct (mem e (visited_entities st)) eqn:Em.
  - left. apply mem_In in Em. now split.
  - right. apply mem_false in Em.
    destruct (Dict.get e d) as [ent|] eqn:Ee.
    + destruct (classify_node ent) as [s|] eqn:Ec.
      * right. split; [exact Em|]. now exists ent, s.
      * left. split; [exact Em|]. split; [|reflexivity].
        right. now exists ent.
    + left. split; [exact Em|]. split; [now left | reflexivity].
Qed.

(** Every required edge of a round is there once the round is over. *)
Lemma fold_visit_edges ent_id depth a : forall l st,
  In a l -> Dict.get a d <> None ->
  In {| edge_type := entity_edge; edge_action := a; edge_entity := ent_id |}
    (edges (fold_left (visit ent_id depth) l st)).
Proof.
  induction l as [|b l IH]; intros st; [intros []|].
  intros [-> | Hin] Ha; cbn [fold_left].
  - destruct (fold_visit_effect ent_id depth l (visit ent_id depth st a))
      as (_ & _ & (es & -> & _) & _).
    apply in_or_app. left. unfold walk_visit.
    destruct (Dict.get a d) as [act|]; [|congruence].
    cbn [append_edge visited_actions].
    destruct (mem a (visited_actions st));
      cbn [edges append_edge]; rewrite ?in_app_iff; simpl; auto.
  - now apply IH.
Qed.

Lemma nodes_consistent_step st :
  nodes_consistent d st -> nodes_consistent d (step st).
Proof.
  unfold nodes_consistent. intros (H1 & H2 & H3).
  destruct (step_cases st) as [[_ ->] | (e & depth & q' & Eq & Hc)];
    [split; [exact H1 | split; [exact H2 | exact H3]]|].
  destruct Hc as [[Hv ->] | [(Hv & Hn & ->) | (Hv & ent & s & Ee & Ec & ->)]].
  - split; [exact H1 | split; [exact H2 | exact H3]].
  - cbn. split; [exact H1|]. split.
    + intros k Hk. right. now apply H2.
    + intros k ent s [<- | Hk] Ek Ec.
      * destruct Hn as [Hn | [ent' [Hn Hc]]]; congruence.
      * eapply H3; eauto.
  - destruct (fold_visit_effect e depth (Dict.get_default e [] index)
      (set_entity_node (add_visited_entity (set_q st q') e) e s))
      as (-> & -> & _). cbn [set_entity_node add_visited_entity set_q
                             entity_nodes visited_entities].
    split; [|split].
    + intros k s' Hin. apply dict_In_set in Hin.
      destruct Hin as [[-> ->] | Hin]; [now exists ent | now apply H1].
    + intros k Hk. apply dict_keys_set in Hk.
      destruct Hk as [-> | Hk]; [now left | right; now apply H2].
    + intros k ent' s' Hk Ek Ec'. apply dict_keys_set.
      destruct Hk as [<- | Hk]; [now left | right; eapply H3; eauto].
Qed.

Lemma entity_nodes_step st k :
  In k (Dict.keys (entity_nodes st)) ->
  In k (Dict.keys (entity_nodes (step st))).
Proof.
  intros Hk.
  destruct (step_cases st) as [[_ ->] | (e & depth & q' & Eq & Hc)];
    [exact Hk|].
  destruct Hc as [[Hv ->] | [(Hv & Hn & ->) | (Hv & ent & s & Ee & Ec & ->)]];
    [exact Hk | exact Hk |].
  destruct (fold_visit_effect e depth (Dict.get_default e [] index)
    (set_entity_node (add_visited_entity (set_q st q') e) e s))
    as (_ & -> & _).
  cbn [set_entity_node entity_nodes]. apply dict_keys_set. now right.
Qed.

Lemma actions_consistent_step st :
  actions_consistent d index entity_edge st ->
  actions_consistent d index entity_edge (step st).
Proof.
  unfold actions_consistent. intros (H1 & H2 & H3).
  destruct (step_cases st) as [[_ ->] | (e & depth & q' & Eq & Hc)];
    [split; [exact H1 | split; [exact H2 | exact H3]]|].
  destruct Hc as [[Hv ->] | [(Hv & Hn & ->) | (Hv & ent & s & Ee & Ec & E)]];
    [split; [exact H1 | split; [exact H2 | exact H3]]
    |split; [exact H1 | split; [exact H2 | exact H3]] |].
  pose proof (entity_nodes_step st) as Hmono. rewrite E in *.
  set (st1 := set_entity_node (add_visited_entity (set_q st q') e) e s) in *.
  set (l := Dict.get_default e [] index) in *.
  destruct (fold_visit_effect e depth l st1)
    as (_ & Hen & (es & Hes & _) & _ & Han & Hva).
  cbv zeta in *.
  assert (Hen1 : forall k, In k (Dict.keys (entity_nodes st1)) <->
                           k = e \/ In k (Dict.keys (entity_nodes st))).
  { intros k. unfold st1. cbn [set_entity_node entity_nodes].
    apply dict_keys_set. }
  assert (Hva1 : visited_actions st1 = visited_actions st) by reflexivity.
  assert (Han1 : action_nodes st1 = action_nodes st) by reflexivity.
  assert (Hed1 : edges st1 = edges st) by reflexivity.
  split; [|split].
  - intros a Ha. apply Han. apply Hva in Ha. rewrite Hva1, Han1 in *.
    destruct Ha as [Ha | [Hl Hd]]; [left; now apply H1|].
    destruct (in_dec string_dec a (visited_actions st)) as [Hin | Hnin].
    + left. now apply H1.
    + right. now repeat split.
  - intros a Ha. apply Han in Ha. rewrite Han1 in Ha.
    destruct Ha as [Ha | (Hl & Hd & _)].
    + destruct (H2 a Ha) as [Hd [e' [He' Hi]]]. split; [exact Hd|].
      exists e'. split; [|exact Hi]. rewrite Hen. apply Hen1. now right.
    + split; [exact Hd|]. exists e. split; [|exact Hl].
      rewrite Hen. apply Hen1. now left.
  - intros e' a He' Hi Hd. rewrite Hen in He'. apply Hen1 in He'.
    destruct He' as [-> | He'].
    + split; [now apply fold_visit_edges|].
      apply Han. rewrite Han1, Hva1.
      destruct (in_dec string_dec a (visited_actions st)) as [Hin | Hnin].
      * left. now apply H1.
      * right. now repeat split.
    + destruct (H3 e' a He' Hi Hd) as [Hedge Hnode]. split.
      * rewrite Hes, Hed1. apply in_or_app. now left.
      * apply Han. left. now rewrite Han1.
Qed.

Lemma roots_tracked_step roots st :
  roots_tracked roots st -> roots_tracked roots (step st).
Proof.
  unfold roots_tracked. intros H r Hr. specialize (H r Hr).
  destruct (step_cases st) as [[_ ->] | (e & depth & q' & Eq & Hc)];
    [exact H|].
  rewrite Eq in H. cbn [map fst In] in H.
  destruct Hc as [[Hv ->] | [(Hv & Hn & ->) | (Hv & ent & s & Ee & Ec & ->)]].
  - cbn. destruct H as [H | [<- | H]]; auto.
  - cbn. destruct H as [H | [<- | H]]; auto.
  - destruct (fold_visit_effect e depth (Dict.get_default e [] index)
      (set_entity_node (add_visited_entity (set_q st q') e) e s))
      as (-> & _ & _ & (items & -> & _) & _).
    cbn [set_entity_node add_visited_entity set_q visited_entities q].
    rewrite map_app, in_app_iff. simpl.
    destruct H as [H | [<- | H]]; auto.
Qed.

(** With [max_depth = 0] nothing is ever queued after the roots. *)
Lemma roots_only_step roots st :
  max_depth = Some 0%Z -> roots_only roots st -> roots_only roots (step st).
Proof.
  unfold roots_only. intros Hmd [Hq Hv].
  destruct (step_cases st) as [[_ ->] | (e & depth & q' & Eq & Hc)];
    [now split|].
  assert (He : In e roots /\ (0 <= depth)%Z).
  { apply (Hq (e, depth)). rewrite Eq. now left. }
  assert (Hq' : forall it, In it q' -> In (fst it) roots /\ (0 <= snd it)%Z).
  { intros it Hit. apply Hq. rewrite Eq. now right. }
  destruct Hc as [[Hve ->] | [(Hve & Hn & ->) | (Hve & ent & s & Ee & Ec & ->)]].
  - now split.
  - split; [exact Hq'|]. cbn. intros k [<- | Hk]; [tauto | auto].
  - destruct (fold_visit_effect e depth (Dict.get_default e [] index)
      (set_entity_node (add_visited_entity (set_q st q') e) e s))
      as (-> & _ & _ & (items & -> & Hitems) & _).
    cbn [set_entity_node add_visited_entity set_q visited_entities q].
    split.
    + intros it Hit. apply in_app_or in Hit. destruct Hit as [Hit | Hit];
        [now apply Hq'|].
      destruct (Hitems it Hit) as [Hw _]. rewrite Hmd in Hw. simpl in Hw.
      apply Z.leb_le in Hw. lia.
    + intros k [<- | Hk]; [tauto | auto].
Qed.

(** The visited set only grows, and an expanded entity joins it. *)
Lemma visited_entities_step st k :
  In k (visited_entities st) -> In k (visited_entities (step st)).
Proof.
  intros Hk.
  destruct (step_cases st) as [[_ ->] | (e & depth & q' & Eq & Hc)];
    [exact Hk|].
  destruct Hc as [[Hv ->] | [(Hv & Hn & ->) | (Hv & ent & s & Ee & Ec & ->)]].
  - exact Hk.
  - now right.
  - destruct (fold_visit_effect e depth (Dict.get_default e [] index)
      (set_entity_node (add_visited_entity (set_q st q') e) e s))
      as (-> & _). now right.
Qed.

Lemma expands_step st e :
  expands st e -> In e (visited_entities (step st)).
Proof.
  unfold expands. intros H.
  destruct (step_cases st) as [[Eq _] | (e' & depth & q' & Eq & Hc)];
    rewrite Eq in H; [destruct H|].
  destruct H as [-> Hn].
  destruct Hc as [[Hv ->] | [(Hv & _ & ->) | (Hv & ent & s & Ee & Ec & ->)]].
  - contradiction.
  - now left.
  - destruct (fold_visit_effect e depth (Dict.get_default e [] index)
      (set_entity_node (add_visited_entity (set_q st q') e) e s))
      as (-> & _). now left.
Qed.

Lemma visited_entities_iterate n st k :
  In k (visited_entities st) -> In k (visited_entities (iterate step n st)).
Proof.
  unfold iterate. induction n as [|n IH]; intros H; simpl; [exact H|].
  apply visited_entities_step. now apply IH.
Qed.

(** No entity is expanded twice in a run. *)
Lemma expands_once st e i j :
  i < j -> expands (iterate step i st) e -> ~ expands (iterate step j st) e.
Proof.
  intros Hij Hi Hj.
  assert (Hv : In e (visited_entities (iterate step (S i) st))).
  { unfold iterate. simpl. now apply expands_step. }
  assert (Hv' : In e (visited_entities (iterate step j st))).
  { replace j with ((j - S i) + S i) by lia. unfold iterate.
    rewrite Nat.iter_add. now apply visited_entities_iterate. }
  unfold expands in Hj. destruct (q (iterate step j st)) as [|[e' ?] ?];
    [exact Hj|]. destruct Hj as [_ Hn]. contradiction.
Qed.

(** A visit never adds work: what it queues, it takes from the budget of
    the action it expands. *)
Section Work.
Variable w : entity -> nat.
Hypothesis expand_bounded : forall act, length (snd (expand act)) <= w act.

Lemma visit_work ent_id depth st a :
  work_left w d (visit ent_id depth st a) <= work_left w d st.
Proof.
  unfold walk_visit, work_left.
  destruct (Dict.get a d) as [act|] eqn:Ea; [|lia].
  cbn [append_edge visited_actions].
  destruct (mem a (visited_actions st)) eqn:Em;
    cbn [append_edge q visited_actions]; [lia|].
  apply mem_false in Em.
  pose proof (@unexpanded_visit w d _ a act Ea Em).
  pose proof (expand_bounded act).
  rewrite length_app.
  destruct (within_depth max_depth depth); simpl;
    rewrite ?length_map; lia.
Qed.

Lemma fold_visit_work ent_id depth : forall l st,
  work_left w d (fold_left (visit ent_id depth) l st) <= work_left w d st.
Proof.
  induction l as [|a l IH]; intros st; simpl; [lia|].
  etransitivity; [apply IH | apply visit_work].
Qed.

(** Every iteration that finds the queue non-empty takes one unit of work. *)
Lemma step_work st :
  q st <> [] -> work_left w d (step st) < work_left w d st.
Proof.
  intros Hq.
  destruct (step_cases st) as [[Eq _] | (e & depth & q' & Eq & Hc)];
    [contradiction|].
  destruct Hc as [[Hv ->] | [(Hv & Hn & ->) | (Hv & ent & s & Ee & Ec & ->)]].
  - unfold work_left. rewrite Eq. simpl. lia.
  - unfold work_left. rewrite Eq. simpl. lia.
  - eapply Nat.le_lt_trans; [apply fold_visit_work|].
    unfold work_left. rewrite Eq. simpl. lia.
Qed.

(** The loop exits within the work left at its start. *)
Lemma walk_terminates fuel st :
  work_left w d st <= fuel ->
  exists st', walk_loop step fuel st = Some st'.
Proof.
  apply walk_loop_terminates. exact step_work.
Qed.
End Work.

(** Edges join entities of the index when expansion only yields such. *)
Lemma edges_resolve_step st :
  (forall act i, In i (snd (expand act)) -> Dict.get i d <> None) ->
  edges_resolve d st -> edges_resolve d (step st).
Proof.
  unfold edges_resolve. intros Hexp H.
  destruct (step_cases st) as [[_ ->] | (e & depth & q' & Eq & Hc)];
    [exact H|].
  destruct Hc as [[Hv ->] | [(Hv & Hn & ->) | (Hv & ent & s & Ee & Ec & ->)]];
    [exact H | exact H |].
  destruct (fold_visit_effect e depth (Dict.get_default e [] index)
    (set_entity_node (add_visited_entity (set_q st q') e) e s))
    as (_ & _ & (es & -> & Hes) & _).
  cbn [set_entity_node add_visited_entity set_q edges].
  intros ed Hed. apply in_app_or in Hed. destruct Hed as [Hed | Hed];
    [now apply H|].
  destruct (Hes ed Hed) as (a & act & _ & Ha & -> & [[_ ->] | [_ Hi]]).
  - split; congruence.
  - split; [eapply Hexp; eauto | congruence].
Qed.
End WalkFacts.

(** ** The two walkers *)

Lemma walk_loop_ext (f g : walk_state -> walk_state) :
  (forall st, f st = g st) ->
  forall fuel st, walk_loop f fuel st = walk_loop g fuel st.
Proof.
  intros H. induction fuel as [|fuel IH]; intros st; simpl; [reflexivity|].
  destruct (q st); [reflexivity|]. now rewrite H, IH.
Qed.

Lemma iterate_ext (f g : walk_state -> walk_state) :
  (forall st, f st = g st) ->
  forall n st, iterate f n st = iterate g n st.
Proof.
  intros H. unfold iterate. induction n as [|n IH]; intros st; simpl;
    [reflexivity|]. now rewrite IH, H.
Qed.

Lemma resolve_refs_length d objs : length (resolve_refs d objs) <= length objs.
Proof.
  unfold resolve_refs. induction objs as [|obj objs IH]; simpl; [lia|].
  rewrite length_app. destruct (get_opt (ref_id obj) d); simpl; lia.
Qed.

Lemma filter_disjoint_length (A : Type) (p r : A -> bool) (l : list A) :
  (forall x, p x = true -> r x = false) ->
  length (filter p l) + length (filter r l) <= length l.
Proof.
  intros H. induction l as [|x l IH]; simpl; [lia|].
  destruct (p x) eqn:Ep.
  - rewrite (H x Ep). simpl. lia.
  - destruct (r x); simpl; lia.
Qed.

Lemma ancestry_expand_ids self act :
  snd (ancestry_expand self act)
  = map e_id (filter is_file
                (resolve_refs (by_id self) (get_list (e_object act))))
    ++ map e_id (filter is_dataset
                   (resolve_refs (by_id self) (get_list (e_object act)))).
Proof.
  unfold ancestry_expand. cbn [snd]. rewrite partition_inputs_buckets.
  unfold bucket_inputs. cbn [in_files in_datasets].
  now rewrite !map_map.
Qed.

Lemma ancestry_expand_bounded self act :
  length (snd (ancestry_expand self act)) <= length (get_list (e_object act)).
Proof.
  rewrite ancestry_expand_ids, length_app, !length_map.
  etransitivity; [|apply (resolve_refs_length (by_id self))].
  apply filter_disjoint_length. intros x. unfold is_file, is_dataset.
  now intros ->.
Qed.

Lemma descend_expand_bounded self act :
  length (snd (descend_expand self act)) <= length (get_list (e_result act)).
Proof.
  unfold descend_expand. cbn [snd]. rewrite length_map.
  etransitivity; [apply filter_length_le|].
  apply resolve_refs_length.
Qed.

Lemma work_left_initial key d roots :
  work_left (fun e => length (get_list (key e))) d (initial_state roots)
  = length roots + total_refs key d.
Proof.
  unfold work_left, initial_state, total_refs. cbn [q visited_actions].
  now rewrite length_map, unexpanded_nil.
Qed.

(** The ancestry loop exits within its budget, whatever the crate. *)
Lemma ancestry_loop_total self max_depth roots fuel :
  ancestry_budget self roots <= fuel ->
  exists st,
    walk_loop (ancestry_step self max_depth) fuel (initial_state roots)
    = Some st.
Proof.
  intros Hf.
  rewrite (walk_loop_ext _ _ (ancestry_step_walk self max_depth)).
  apply walk_terminates with (w := fun e => length (get_list (e_object e))).
  - apply ancestry_expand_bounded.
  - now rewrite work_left_initial.
Qed.

Lemma descend_loop_total self max_depth roots fuel :
  descend_budget self roots <= fuel ->
  exists st,
    walk_loop (descend_step self max_depth) fuel (initial_state roots)
    = Some st.
Proof.
  intros Hf.
  rewrite (walk_loop_ext _ _ (descend_step_walk self max_depth)).
  apply walk_terminates with (w := fun e => length (get_list (e_result e))).
  - apply descend_expand_bounded.
  - now rewrite work_left_initial.
Qed.

(** What [get_file_ancestry] returns, with any property the loop body
    keeps. *)
Lemma get_file_ancestry_final self selector max_depth
  (P : walk_state -> Prop) :
  (forall st, P st -> P (ancestry_step self max_depth st)) ->
  P (initial_state (map e_id (get_file_entities self selector))) ->
  exists r,
    get_file_ancestry self selector max_depth = Some r
    /\ ((get_file_entities self selector = [] /\ r = empty_ancestry)
        \/ (get_file_entities self selector <> []
            /\ exists st,
                 P st /\ q st = []
                 /\ r = {| r_root_files :=
                             map summarise_file
                               (get_file_entities self selector);
                           r_entities := entity_nodes st;
                           r_actions := action_nodes st;
                           r_edges := edges st;
                           r_descendant_files := None |})).
Proof.
  intros Hstep Hinit. unfold get_file_ancestry, get_file_ancestry_fuel.
  destruct (get_file_entities self selector) as [|f files] eqn:Ef.
  - exists empty_ancestry. split; [reflexivity | now left].
  - destruct (@ancestry_loop_total self max_depth (map e_id (f :: files))
                (ancestry_budget self (map e_id (f :: files))) (le_n _))
      as [st Hst].
    rewrite Hst. eexists. split; [reflexivity|]. right.
    split; [discriminate|]. exists st.
    destruct (@walk_loop_invariant _ P Hstep _ _ _ Hinit Hst) as [HP Hq].
    now repeat split.
Qed.

Lemma get_file_descendants_final self selector max_depth
  (P : walk_state -> Prop) :
  (forall st, P st -> P (descend_step self max_depth st)) ->
  P (initial_state (map e_id (get_file_entities self selector))) ->
  exists r,
    get_file_descendants self selector max_depth = Some r
    /\ ((get_file_entities self selector = [] /\ r = empty_descendants)
        \/ (get_file_entities self selector <> []
            /\ exists st,
                 P st /\ q st = []
                 /\ r = {| r_root_files :=
                             map summarise_file
                               (get_file_entities self selector);
                           r_entities := entity_nodes st;
                           r_actions := action_nodes st;
                           r_edges := edges st;
                           r_descendant_files :=
                             Some (collect_descendant_files
                                     (map e_id
                                        (get_file_entities self selector))
                                     (entity_nodes st)) |})).
Proof.
  intros Hstep Hinit. unfold get_file_descendants, get_file_descendants_fuel.
  destruct (get_file_entities self selector) as [|f files] eqn:Ef.
  - exists empty_descendants. split; [reflexivity | now left].
  - destruct (@descend_loop_total self max_depth (map e_id (f :: files))
                (descend_budget self (map e_id (f :: files))) (le_n _))
      as [st Hst].
    rewrite Hst. eexists. split; [reflexivity|]. right.
    split; [discriminate|]. exists st.
    destruct (@walk_loop_invariant _ P Hstep _ _ _ Hinit Hst) as [HP Hq].
    now repeat split.
Qed.

(** The bookkeeping holds before the loop. *)
Lemma initial_consistent d index entity_edge roots :
  nodes_consistent d (initial_state roots)
  /\ actions_consistent d index entity_edge (initial_state roots)
  /\ roots_tracked roots (initial_state roots)
  /\ roots_only roots (initial_state roots)
  /\ edges_resolve d (initial_state roots).
Proof.
  unfold nodes_consistent, actions_consistent, roots_tracked, roots_only,
    edges_resolve, initial_state. cbn.
  repeat split; try tauto.
  - intros r Hr. right. rewrite map_map. cbn. now rewrite map_id.
  - apply in_map_iff in H. destruct H as [r [<- Hr]]. exact Hr.
  - apply in_map_iff in H. destruct H as [r [<- Hr]]. cbn. lia.
Qed.

(** C9. Both walks terminate on every crate, cyclic or not: the loop
    exits within the budget (the number of roots plus the number of
    references that expanding each action once can queue), a larger budget
    gives the same result, and in a run no entity is expanded twice: once
    an iteration has dequeued an entity and found it unvisited, no later
    iteration does. *)
Theorem walks_terminate (self : ProvenanceCrate) (selector : string)
  (max_depth : option Z) :
  (exists r, get_file_ancestry self selector max_depth = Some r)
  /\ (exists r, get_file_descendants self selector max_depth = Some r)
  /\ (forall fuel,
        ancestry_budget self (map e_id (get_file_entities self selector))
        <= fuel ->
        get_file_ancestry_fuel fuel self selector max_depth
        = get_file_ancestry self selector max_depth)
  /\ (forall fuel,
        descend_budget self (map e_id (get_file_entities self selector))
        <= fuel ->
        get_file_descendants_fuel fuel self selector max_depth
        = get_file_descendants self selector max_depth)
  /\ (forall roots i j e,
        i < j ->
        expands (iterate (ancestry_step self max_depth) i
                   (initial_state roots)) e ->
        ~ expands (iterate (ancestry_step self max_depth) j
                     (initial_state roots)) e)
  /\ (forall roots i j e,
        i < j ->
        expands (iterate (descend_step self max_depth) i
                   (initial_state roots)) e ->
        ~ expands (iterate (descend_step self max_depth) j
                     (initial_state roots)) e).
Proof.
  split; [|split; [|split; [|split; [|split]]]].
  - destruct (@get_file_ancestry_final self selector max_depth
                (fun _ => True)) as [r [Hr _]]; auto. now exists r.
  - destruct (@get_file_descendants_final self selector max_depth
                (fun _ => True)) as [r [Hr _]]; auto. now exists r.
  - intros fuel Hf. unfold get_file_ancestry, get_file_ancestry_fuel.
    destruct (get_file_entities self selector) as [|f files]; [reflexivity|].
    destruct (@ancestry_loop_total self max_depth (map e_id (f :: files))
                _ (le_n _)) as [st Hst].
    rewrite Hst. now rewrite (@walk_loop_more_fuel _ _ _ _ _ Hst Hf).
  - intros fuel Hf. unfold get_file_descendants, get_file_descendants_fuel.
    destruct (get_file_entities self selector) as [|f files]; [reflexivity|].
    destruct (@descend_loop_total self max_depth (map e_id (f :: files))
                _ (le_n _)) as [st Hst].
    rewrite Hst. now rewrite (@walk_loop_more_fuel _ _ _ _ _ Hst Hf).
  - intros roots i j e Hij.
    rewrite !(iterate_ext _ _ (ancestry_step_walk self max_depth)).
    now apply expands_once.
  - intros roots i j e Hij.
    rewrite !(iterate_ext _ _ (descend_step_walk self max_depth)).
    now apply expands_once.
Qed.

(** *** Invariants of the walkers on a crate built from a graph *)

Lemma resolve_refs_in d objs ent :
  In ent (resolve_refs d objs) ->
  exists obj k, In obj objs /\ ref_id obj = Some k /\ Dict.get k d = Some ent.
Proof.
  unfold resolve_refs. rewrite in_flat_map. intros [obj [Hobj Hin]].
  destruct (ref_id obj) as [k|] eqn:Ek; simpl in Hin; [|destruct Hin].
  destruct (Dict.get k d) as [ent'|] eqn:Eg; [|destruct Hin].
  destruct Hin as [<- | []]. now exists obj, k.
Qed.

Lemma resolved_id_resolves g objs ent :
  In ent (resolve_refs (by_id (init g)) objs) ->
  Dict.get (e_id ent) (by_id (init g)) = Some ent.
Proof.
  intros H. apply resolve_refs_in in H. destruct H as (obj & k & _ & _ & Hg).
  destruct (by_id_get _ _ Hg) as [-> _]. exact Hg.
Qed.

Lemma ancestry_expand_resolves g act i :
  In i (snd (ancestry_expand (init g) act)) ->
  Dict.get i (by_id (init g)) <> None.
Proof.
  rewrite ancestry_expand_ids, in_app_iff, !in_map_iff.
  intros [[ent [<- Hin]] | [ent [<- Hin]]];
    apply filter_In in Hin; destruct Hin as [Hin _];
    now rewrite (resolved_id_resolves _ _ _ Hin).
Qed.

Lemma descend_expand_resolves g act i :
  In i (snd (descend_expand (init g) act)) ->
  Dict.get i (by_id (init g)) <> None.
Proof.
  unfold descend_expand. cbn [snd]. rewrite in_map_iff.
  intros [ent [<- Hin]]. apply filter_In in Hin. destruct Hin as [Hin _].
  now rewrite (resolved_id_resolves _ _ _ Hin).
Qed.

Lemma ancestry_invariant_step g roots max_depth st :
  ancestry_invariant g roots st ->
  ancestry_invariant g roots (ancestry_step (init g) max_depth st).
Proof.
  intros (H1 & H2 & H3 & H4). rewrite ancestry_step_walk.
  split; [now apply nodes_consistent_step|].
  split; [now apply actions_consistent_step|].
  split; [now apply roots_tracked_step|].
  apply edges_resolve_step; [|exact H4].
  intros act i. apply ancestry_expand_resolves.
Qed.

Lemma descend_invariant_step g roots max_depth st :
  descend_invariant g roots st ->
  descend_invariant g roots (descend_step (init g) max_depth st).
Proof.
  intros (H1 & H2 & H3 & H4). rewrite descend_step_walk.
  split; [now apply nodes_consistent_step|].
  split; [now apply actions_consistent_step|].
  split; [now apply roots_tracked_step|].
  apply edges_resolve_step; [|exact H4].
  intros act i. apply descend_expand_resolves.
Qed.

Lemma ancestry_invariant_initial g roots :
  ancestry_invariant g roots (initial_state roots).
Proof.
  destruct (initial_consistent (by_id (init g))
              (actions_by_result (init g)) "generated" roots)
    as (H1 & H2 & H3 & _ & H5).
  now repeat split.
Qed.

Lemma descend_invariant_initial g roots :
  descend_invariant g roots (initial_state roots).
Proof.
  destruct (initial_consistent (by_id (init g))
              (actions_by_input (init g)) "used" roots)
    as (H1 & H2 & H3 & _ & H5).
  now repeat split.
Qed.

Lemma collect_descendant_files_In roots (en : Dict.t node_summary) s :
  In s (collect_descendant_files roots en) <->
  exists k, In (k, s) en /\ ~ In k roots /\ node_sha1 s <> None.
Proof.
  unfold collect_descendant_files, Dict.items.
  rewrite in_map_iff. split.
  - intros [[k s'] [E Hin]]. simpl in E. subst s'.
    apply filter_In in Hin. destruct Hin as [Hin Hp]. simpl in Hp.
    apply andb_true_iff in Hp. destruct Hp as [Hr Hs].
    exists k. split; [exact Hin|]. split.
    + apply mem_false. now apply negb_true_iff in Hr.
    + destruct (node_sha1 s); [discriminate | discriminate].
  - intros [k (Hin & Hr & Hs)]. exists (k, s). split; [reflexivity|].
    apply filter_In. split; [exact Hin|]. simpl.
    apply mem_false in Hr. rewrite Hr. simpl.
    destruct (node_sha1 s); [reflexivity | congruence].
Qed.

Lemma classify_node_file ent s :
  classify_node ent = Some s -> node_sha1 s <> None ->
  has_type ent "File" = true /\ s = FileNode (summarise_file ent)
  /\ e_sha1 ent <> None.
Proof.
  unfold classify_node. destruct (has_type ent "File").
  - intros [= <-]. simpl. auto.
  - destruct (has_type ent "Dataset"); [|discriminate].
    intros [= <-]. simpl. congruence.
Qed.

(** ** Depth limit zero *)

(** What the bookkeeping says once a walk that never left the roots is
    over. *)
Lemma roots_only_final d index entity_edge roots st :
  nodes_consistent d st ->
  actions_consistent d index entity_edge st ->
  roots_tracked roots st ->
  roots_only roots st ->
  q st = [] ->
  (forall k, In k (Dict.keys (entity_nodes st)) -> In k roots)
  /\ (forall a, In a (Dict.keys (action_nodes st)) ->
        exists root, In root roots /\ In a (Dict.get_default root [] index))
  /\ ((forall root, In root roots ->
         exists ent s, Dict.get root d = Some ent
                       /\ classify_node ent = Some s) ->
      (forall k, In k roots -> In k (Dict.keys (entity_nodes st)))
      /\ (forall root a, In root roots ->
            In a (Dict.get_default root [] index) ->
            Dict.get a d <> None ->
            In a (Dict.keys (action_nodes st)))).
Proof.
  intros (N1 & N2 & N3) (A1 & A2 & A3) Ht (_ & Hv) Hq.
  assert (Hen : forall k, In k (Dict.keys (entity_nodes st)) -> In k roots).
  { intros k Hk. apply Hv. now apply N2. }
  split; [exact Hen|]. split.
  - intros a Ha. destruct (A2 a Ha) as [_ [e [He Hi]]].
    exists e. split; [now apply Hen | exact Hi].
  - intros Hroots.
    assert (Hin : forall k, In k roots -> In k (Dict.keys (entity_nodes st))).
    { intros k Hk. destruct (Hroots k Hk) as (ent & s & Hg & Hc).
      destruct (Ht k Hk) as [Hvis | Hqueue].
      - eapply N3; eauto.
      - rewrite Hq in Hqueue. destruct Hqueue. }
    split; [exact Hin|].
    intros root a Hr Ha Hd. now apply (A3 root a (Hin root Hr) Ha Hd).
Qed.

Lemma resolved_in_graph g selector f :
  In f (resolve_rules g selector) -> In f g /\ has_type f "File" = true.
Proof.
  unfold resolve_rules.
  destruct (find _ g) as [e|] eqn:Ef.
  - intros [<- | []]. apply find_some in Ef. destruct Ef as [Hin Hp].
    apply andb_true_iff in Hp. tauto.
  - destruct (filter _ g) as [|e exact] eqn:Ee.
    + intros H. apply filter_In in H. destruct H as [Hin Hp].
      apply andb_true_iff in Hp. tauto.
    + rewrite <- Ee. intros H. apply filter_In in H. destruct H as [Hin Hp].
      apply andb_true_iff in Hp. tauto.
Qed.

(** With unique ids every root is recorded in the index as a file. *)
Lemma roots_resolve g selector root :
  NoDup (map e_id g) ->
  In root (map e_id (get_file_entities (init g) selector)) ->
  exists ent s,
    Dict.get root (by_id (init g)) = Some ent /\ classify_node ent = Some s.
Proof.
  intros Hnd Hr. apply in_map_iff in Hr. destruct Hr as [f [<- Hf]].
  rewrite (@get_file_entities_rules g selector Hnd) in Hf.
  apply resolved_in_graph in Hf. destruct Hf as [Hin Hfile].
  exists f, (FileNode (summarise_file f)). split.
  - now apply by_id_get_unique.
  - unfold classify_node. now rewrite Hfile.
Qed.

(** C2 (amended). With [max_depth = 0] both walks record only roots in
    [entities], and in [actions] only actions filed under a root in
    [actions_by_result] (ancestry) or [actions_by_input] (descendants):
    the depth limit stops the queueing, not the expansion of the actions
    next to a root.  With unique ids the two maps hold every root and
    every such action, so [actions] is empty only if no root has one. *)
Theorem depth_zero_walk (g : list entity) (selector : string) :
  let roots := map e_id (get_file_entities (init g) selector) in
  (exists r,
      get_file_ancestry (init g) selector (Some 0%Z) = Some r
      /\ (forall k, In k (Dict.keys (r_entities r)) -> In k roots)
      /\ (forall a, In a (Dict.keys (r_actions r)) ->
            exists root, In root roots /\ In a (producers (init g) root))
      /\ (NoDup (map e_id g) ->
          (forall k, In k roots -> In k (Dict.keys (r_entities r)))
          /\ (forall root a, In root roots ->
                In a (producers (init g) root) ->
                In a (Dict.keys (r_actions r)))))
  /\ (exists r,
        get_file_descendants (init g) selector (Some 0%Z) = Some r
        /\ (forall k, In k (Dict.keys (r_entities r)) -> In k roots)
        /\ (forall a, In a (Dict.keys (r_actions r)) ->
              exists root, In root roots /\ In a (consumers (init g) root))
        /\ (NoDup (map e_id g) ->
            (forall k, In k roots -> In k (Dict.keys (r_entities r)))
            /\ (forall root a, In root roots ->
                  In a (consumers (init g) root) ->
                  In a (Dict.keys (r_actions r))))).
Proof.
  intros roots. split.
  - destruct (@get_file_ancestry_final (init g) selector (Some 0%Z)
                (fun st => ancestry_invariant g roots st
                           /\ roots_only roots st))
      as [r [Hr Hcase]].
    + intros st [Hi Ho]. split; [now apply ancestry_invariant_step|].
      rewrite ancestry_step_walk. now apply roots_only_step.
    + split; [apply ancestry_invariant_initial|].
      apply (initial_consistent (by_id (init g))
               (actions_by_result (init g)) "generated" roots).
    + exists r. split; [exact Hr|].
      destruct Hcase as [[E ->] | [_ (st & [HP Ho] & Hq & ->)]].
      * unfold roots. rewrite E. cbn.
        split; [tauto|]. split; [tauto|]. intros _. split; tauto.
      * destruct HP as (N & A & T & _).
        destruct (roots_only_final N A T Ho Hq) as (F1 & F2 & F3).
        cbn [r_entities r_actions].
        split; [exact F1|]. split; [exact F2|]. intros Hnd.
        destruct F3 as [F3 F4].
        { intros root Hroot. now apply (roots_resolve g selector). }
        split; [exact F3|]. intros root a Hroot Ha.
        apply (F4 root a Hroot Ha).
        destruct (producers_resolve _ _ _ Ha) as [act Hact]. congruence.
  - destruct (@get_file_descendants_final (init g) selector (Some 0%Z)
                (fun st => descend_invariant g roots st
                           /\ roots_only roots st))
      as [r [Hr Hcase]].
    + intros st [Hi Ho]. split; [now apply descend_invariant_step|].
      rewrite descend_step_walk. now apply roots_only_step.
    + split; [apply descend_invariant_initial|].
      apply (initial_consistent (by_id (init g))
               (actions_by_input (init g)) "used" roots).
    + exists r. split; [exact Hr|].
      destruct Hcase as [[E ->] | [_ (st & [HP Ho] & Hq & ->)]].
      * unfold roots. rewrite E. cbn.
        split; [tauto|]. split; [tauto|]. intros _. split; tauto.
      * destruct HP as (N & A & T & _).
        destruct (roots_only_final N A T Ho Hq) as (F1 & F2 & F3).
        cbn [r_entities r_actions].
        split; [exact F1|]. split; [exact F2|]. intros Hnd.
        destruct F3 as [F3 F4].
        { intros root Hroot. now apply (roots_resolve g selector). }
        split; [exact F3|]. intros root a Hroot Ha.
        apply (F4 root a Hroot Ha).
        destruct (consumers_resolve _ _ _ Ha) as [act Hact]. congruence.
Qed.

(** C2 as stated fails on the chain of the test suite: at depth limit 0
    the action that produced the root, resp. the action that consumes it,
    is recorded in [actions]. *)
Lemma depth_zero_records_actions :
  (exists r,
      get_file_ancestry (init multi_file_graph) "final_output.csv"
        (Some 0%Z) = Some r
      /\ Dict.keys (r_entities r) = ["final_output.csv"]
      /\ Dict.keys (r_actions r) = ["#action2"])
  /\ (exists r,
        get_file_descendants (init multi_file_graph) "raw_data.csv"
          (Some 0%Z) = Some r
        /\ Dict.keys (r_entities r) = ["raw_data.csv"]
        /\ Dict.keys (r_actions r) = ["#action1"]).
Proof.
  split; eexists; (split; [vm_compute; reflexivity|]);
    repeat split; reflexivity.
Qed.

Lemma multi_file_graph_unique : NoDup (map e_id multi_file_graph).
Proof. repeat constructor; simpl; intuition discriminate. Qed.

Lemma depth_zero_walk_witness :
  NoDup (map e_id multi_file_graph)
  /\ exists r,
       get_file_ancestry (init multi_file_graph) "final_output.csv"
         (Some 0%Z) = Some r
       /\ In "#action2" (Dict.keys (r_actions r)).
Proof.
  split; [exact multi_file_graph_unique|].
  destruct (depth_zero_walk multi_file_graph "final_output.csv")
    as [(r & Hr & _ & _ & Hall) _].
  exists r. split; [exact Hr|].
  destruct (Hall multi_file_graph_unique) as [_ Hact].
  apply (Hact "final_output.csv"); [now left | now left].
Defined.

(** ** Dangling references *)

Lemma resolve_refs_filter d objs :
  resolve_refs d (filter (resolves d) objs) = resolve_refs d objs.
Proof.
  unfold resolve_refs, resolves.
  induction objs as [|obj objs IH]; simpl; [reflexivity|].
  destruct (get_opt (ref_id obj) d) as [ent|] eqn:E; simpl.
  - now rewrite E, IH.
  - exact IH.
Qed.

(** C7 (amended). A dangling reference never makes the code raise.
    Index construction does not consult the entity index: it files an
    action under every non-empty id its lists name, dangling or not.
    Input and output partitioning pass over a reference that does not
    resolve and treat the others as if it were not there.  Both walks
    return a result, in which every entity, action and edge end point is
    an id of the entity index. *)
Theorem dangling_references (g : list entity) (selector : string)
  (max_depth : option Z) :
  (forall x a,
      x <> "" -> Dict.get x (by_id (init g)) = None ->
      In a (actions (init g)) ->
      (refs_contain x (get_list (e_result a)) = true ->
       In (e_id a) (producers (init g) x))
      /\ (refs_contain x (get_list (e_object a)) = true ->
          In (e_id a) (consumers (init g) x)))
  /\ (forall objs,
        partition_inputs (by_id (init g)) objs
        = partition_inputs (by_id (init g))
            (filter (resolves (by_id (init g))) objs))
  /\ (forall act_id depth results outputs st,
        fold_left (descend_output (init g) max_depth act_id depth) results
          (outputs, st)
        = fold_left (descend_output (init g) max_depth act_id depth)
            (filter (resolves (by_id (init g))) results) (outputs, st))
  /\ (exists r,
        get_file_ancestry (init g) selector max_depth = Some r
        /\ (forall k, In k (Dict.keys (r_entities r)) ->
              Dict.get k (by_id (init g)) <> None)
        /\ (forall k, In k (Dict.keys (r_actions r)) ->
              Dict.get k (by_id (init g)) <> None)
        /\ (forall ed, In ed (r_edges r) ->
              Dict.get (edge_entity ed) (by_id (init g)) <> None
              /\ Dict.get (edge_action ed) (by_id (init g)) <> None))
  /\ (exists r,
        get_file_descendants (init g) selector max_depth = Some r
        /\ (forall k, In k (Dict.keys (r_entities r)) ->
              Dict.get k (by_id (init g)) <> None)
        /\ (forall k, In k (Dict.keys (r_actions r)) ->
              Dict.get k (by_id (init g)) <> None)
        /\ (forall ed, In ed (r_edges r) ->
              Dict.get (edge_entity ed) (by_id (init g)) <> None
              /\ Dict.get (edge_action ed) (by_id (init g)) <> None)).
Proof.
  split; [|split; [|split; [|split]]].
  - intros x a Hx _ Ha. split; intros Hc.
    + rewrite producers_init. apply in_flat_map. exists a.
      split; [exact Ha|]. apply in_repeat_iff. split; [reflexivity|].
      rewrite indexed_count_nonempty by exact Hx. now apply ref_count_pos.
    + rewrite consumers_init. apply in_flat_map. exists a.
      split; [exact Ha|]. apply in_repeat_iff. split; [reflexivity|].
      rewrite indexed_count_nonempty by exact Hx. now apply ref_count_pos.
  - intros objs. now rewrite !partition_inputs_buckets, resolve_refs_filter.
  - intros act_id depth results outputs st.
    now rewrite !fold_descend_output, resolve_refs_filter.
  - destruct (@get_file_ancestry_final (init g) selector max_depth
                (ancestry_invariant g
                   (map e_id (get_file_entities (init g) selector))))
      as [r [Hr Hcase]].
    + intros st. apply ancestry_invariant_step.
    + apply ancestry_invariant_initial.
    + exists r. split; [exact Hr|].
      destruct Hcase as [[_ ->] | [_ (st & HP & _ & ->)]];
        [cbn; repeat split; tauto|].
      destruct HP as ((N1 & _) & (_ & A2 & _) & _ & HE).
      cbn [r_entities r_actions r_edges]. split; [|split].
      * intros k Hk. unfold Dict.keys in Hk. apply in_map_iff in Hk.
        destruct Hk as [[k' s] [<- Hin]]. cbn [fst].
        destruct (N1 _ _ Hin) as [ent [E _]]. rewrite E. discriminate.
      * intros k Hk. now apply A2.
      * exact HE.
  - destruct (@get_file_descendants_final (init g) selector max_depth
                (descend_invariant g
                   (map e_id (get_file_entities (init g) selector))))
      as [r [Hr Hcase]].
    + intros st. apply descend_invariant_step.
    + apply descend_invariant_initial.
    + exists r. split; [exact Hr|].
      destruct Hcase as [[_ ->] | [_ (st & HP & _ & ->)]];
        [cbn; repeat split; tauto|].
      destruct HP as ((N1 & _) & (_ & A2 & _) & _ & HE).
      cbn [r_entities r_actions r_edges]. split; [|split].
      * intros k Hk. unfold Dict.keys in Hk. apply in_map_iff in Hk.
        destruct Hk as [[k' s] [<- Hin]]. cbn [fst].
        destruct (N1 _ _ Hin) as [ent [E _]]. rewrite E. discriminate.
      * intros k Hk. now apply A2.
      * exact HE.
Qed.

(** C7 as stated fails for index construction: the ids ["ghost-out"] and
    ["ghost-in"] are not in the entity index, yet the action that names
    them is filed under both. *)
Lemma index_files_dangling_ids :
  Dict.get "ghost-out" (by_id (init dangling_graph)) = None
  /\ Dict.get "ghost-out" (actions_by_result (init dangling_graph))
     = Some ["#step"]
  /\ Dict.get "ghost-in" (by_id (init dangling_graph)) = None
  /\ Dict.get "ghost-in" (actions_by_input (init dangling_graph))
     = Some ["#step"].
Proof. repeat split; reflexivity. Qed.

(** The walks pass over the dangling references of that graph. *)
Example dangling_walks :
  (exists r,
      get_file_ancestry (init dangling_graph) "made.csv" None = Some r
      /\ Dict.keys (r_entities r) = ["made.csv"; "kept.csv"]
      /\ Dict.keys (r_actions r) = ["#step"])
  /\ (exists r,
        get_file_descendants (init dangling_graph) "kept.csv" None = Some r
        /\ Dict.keys (r_entities r) = ["kept.csv"; "made.csv"]
        /\ Dict.keys (r_actions r) = ["#step"]).
Proof.
  split; eexists; (split; [vm_compute; reflexivity|]);
    repeat split; reflexivity.
Qed.

Lemma dangling_references_witness :
  "ghost-out" <> ""
  /\ Dict.get "ghost-out" (by_id (init dangling_graph)) = None
  /\ In "#step" (producers (init dangling_graph) "ghost-out").
Proof.
  assert (Hx : "ghost-out" <> "") by discriminate.
  assert (Hd : Dict.get "ghost-out" (by_id (init dangling_graph)) = None)
    by reflexivity.
  split; [exact Hx|]. split; [exact Hd|].
  destruct (dangling_references dangling_graph "made.csv" None)
    as [Hindex _].
  refine (proj1 (Hindex "ghost-out"
                   (action_entity "#step" "step" (Some (RefId "#no-tool"))
                      [RefId "ghost-in"; RefObj None; RefId "kept.csv"]
                      [RefObj (Some "ghost-out"); RefId "made.csv"])
                   Hx Hd _) _); [|reflexivity].
  simpl. left. reflexivity.
Defined.

(** ** No match *)

Lemma str_in_refl s : str_in s s = true.
Proof.
  assert (H : prefix s s = true).
  { induction s as [|c s IH]; simpl; [reflexivity|].
    destruct (ascii_dec c c); [exact IH | congruence]. }
  destruct s; simpl in *; [reflexivity|]. now rewrite H.
Qed.

(** C8. A selector that matches no file resolves to the empty list, and
    for a selector that resolves to nothing the queries return empty
    results instead of raising: the lineage is the empty list, and both
    walks return the structure with no roots, entities, actions or
    edges. *)
Theorem no_match_is_empty (g : list entity) (selector : string)
  (max_depth : option Z) :
  ((forall e, In e g -> has_type e "File" = true ->
      e_id e <> selector /\ str_in selector (altname_or_empty e) = false) ->
   get_file_entities (init g) selector = [])
  /\ (get_file_entities (init g) selector = [] ->
      get_file_lineage (init g) selector = Ok []
      /\ get_file_ancestry (init g) selector max_depth = Some empty_ancestry
      /\ get_file_descendants (init g) selector max_depth
         = Some empty_descendants).
Proof.
  split.
  - intros H. unfold get_file_entities, find_files_by_altname.
    rewrite graph_init.
    assert (Hexact :
      filter (fun e => has_type e "File"
                       && opt_eqb (e_alternateName e) selector)
        (Dict.values (by_id (init g))) = []).
    { apply filter_nil. intros e He. apply by_id_value in He.
      destruct He as [He _].
      destruct (has_type e "File") eqn:Ef'; [|reflexivity].
      destruct (H e He Ef') as [_ Hs]. simpl.
      destruct (opt_eqb (e_alternateName e) selector) eqn:Eo;
        [|reflexivity].
      apply opt_eqb_true in Eo. unfold altname_or_empty in Hs.
      rewrite Eo, str_in_refl in Hs. discriminate. }
    assert (Hsub :
      filter (fun e => has_type e "File"
                       && str_in selector (altname_or_empty e)) g = []).
    { apply filter_nil. intros e He.
      destruct (has_type e "File") eqn:Ef'; [|reflexivity].
      destruct (H e He Ef') as [_ ->]. reflexivity. }
    rewrite Hexact, Hsub.
    destruct (Dict.get selector (by_id (init g))) as [ent|] eqn:Eg;
      [|reflexivity].
    destruct (by_id_get _ _ Eg) as [Hid Hin].
    destruct (has_type ent "File") eqn:Ef; [|reflexivity].
    destruct (H ent Hin Ef) as [Hne _]. contradiction.
  - intros E.
    unfold get_file_lineage, get_file_ancestry, get_file_ancestry_fuel,
      get_file_descendants, get_file_descendants_fuel.
    rewrite E. repeat split; reflexivity.
Qed.

Lemma no_match_is_empty_witness :
  get_file_entities (init sample_graph) "nonexistent.csv" = []
  /\ get_file_lineage (init sample_graph) "nonexistent.csv" = Ok []
  /\ get_file_ancestry (init sample_graph) "nonexistent.csv" None
     = Some empty_ancestry.
Proof.
  destruct (no_match_is_empty sample_graph "nonexistent.csv" None)
    as [Hnone Hempty].
  assert (E : get_file_entities (init sample_graph) "nonexistent.csv" = []).
  { apply Hnone. intros e Hin Hf. simpl in Hin.
    repeat (destruct Hin as [<- | Hin]; [try discriminate Hf|]).
    - split; [discriminate | reflexivity].
    - split; [discriminate | reflexivity].
    - split; [discriminate | reflexivity].
    - destruct Hin. }
  split; [exact E|]. destruct (Hempty E) as (Hl & Ha & _). now split.
Defined.

(** ** Site view *)

Lemma ltb_lt a b : String.ltb a b = true <-> String_as_OT.lt a b.
Proof.
  unfold String.ltb. rewrite <- String_as_OT.cmp_lt. unfold String_as_OT.cmp.
  destruct (String.compare a b); split; congruence.
Qed.

Lemma str_lt_trans a b c : str_lt a b -> str_lt b c -> str_lt a c.
Proof.
  unfold str_lt. rewrite !ltb_lt. apply String_as_OT.lt_trans.
Qed.

Lemma leb_true_lt a b : String.leb a b = true -> a <> b -> str_lt a b.
Proof.
  unfold String.leb, str_lt, String.ltb. intros H Hne.
  destruct (String.compare a b) eqn:E; [|reflexivity | discriminate].
  apply String_as_OT.cmp_eq in E. contradiction.
Qed.

Lemma leb_false_lt a b : String.leb a b = false -> str_lt b a.
Proof.
  unfold String.leb, str_lt, String.ltb. rewrite (String.compare_antisym b a).
  destruct (String.compare a b); simpl; congruence.
Qed.

Lemma insert_sorted_In x z l : In z (insert_sorted x l) <-> z = x \/ In z l.
Proof.
  induction l as [|y l IH]; simpl.
  - split; intros [H | H]; auto.
  - destruct (String.leb x y); simpl; [split; intros [H | H]; auto|].
    rewrite IH. tauto.
Qed.

Lemma insert_sorted_strict x l :
  StronglySorted str_lt l -> ~ In x l ->
  StronglySorted str_lt (insert_sorted x l).
Proof.
  induction l as [|y l IH]; simpl; intros Hs Hn.
  - repeat constructor.
  - inversion Hs as [|? ? Hs' Hall]; subst.
    destruct (String.leb x y) eqn:E.
    + assert (Hxy : str_lt x y)
        by (apply leb_true_lt;
          [exact E | intros Heq; apply Hn; left; now symmetry]).
      constructor; [exact Hs|]. constructor; [exact Hxy|].
      eapply Forall_impl; [|exact Hall].
      intros z Hz. now apply (str_lt_trans Hxy).
    + constructor; [apply IH; [exact Hs' | tauto]|].
      apply Forall_forall. intros z Hz. apply insert_sorted_In in Hz.
      destruct Hz as [-> | Hz]; [now apply leb_false_lt|].
      rewrite Forall_forall in Hall. now apply Hall.
Qed.

Lemma sorted_In l z : In z (sorted l) <-> In z l.
Proof.
  unfold sorted. induction l as [|x l IH]; simpl; [tauto|].
  rewrite insert_sorted_In, IH. split; intros [H | H]; auto.
Qed.

(** Sorting a duplicate-free list gives a strictly ascending list. *)
Lemma sorted_strict l : NoDup l -> StronglySorted str_lt (sorted l).
Proof.
  unfold sorted. induction 1 as [|x l Hn Hnd IH]; simpl; [constructor|].
  apply insert_sorted_strict; [exact IH|].
  fold (sorted l). now rewrite sorted_In.
Qed.

Lemma set_add_In x z s : In z (set_add x s) <-> z = x \/ In z s.
Proof.
  unfold set_add. destruct (mem x s) eqn:E.
  - apply mem_In in E. split; [now right|]. intros [-> | H]; auto.
  - rewrite in_app_iff. simpl. split; intros [H | H]; auto.
    + destruct H as [-> | []]. now left.
Qed.

Lemma set_add_NoDup x s : NoDup s -> NoDup (set_add x s).
Proof.
  unfold set_add. intros H. destruct (mem x s) eqn:E; [exact H|].
  apply mem_false in E. apply NoDup_app; [exact H | | ].
  - constructor; [tauto | constructor].
  - intros z Hz [<- | []]. contradiction.
Qed.

Lemma site_action_ids_fold (p : entity -> bool) : forall l s,
  NoDup s ->
  NoDup (fold_left (fun s act => if p act then set_add (e_id act) s else s)
           l s)
  /\ forall aid,
       In aid (fold_left
                 (fun s act => if p act then set_add (e_id act) s else s) l s)
       <-> In aid s \/ exists a, In a l /\ e_id a = aid /\ p a = true.
Proof.
  induction l as [|a l IH]; intros s Hs; simpl.
  - split; [exact Hs|]. intros aid. split; [now left|].
    intros [H | (a & [] & _)]. exact H.
  - destruct (IH (if p a then set_add (e_id a) s else s)) as [Hnd Hin].
    { destruct (p a); [now apply set_add_NoDup | exact Hs]. }
    split; [exact Hnd|]. intros aid. rewrite Hin. split.
    + intros [H | (a' & Ha' & E & Hp)].
      * destruct (p a) eqn:Ep; [|now left].
        apply set_add_In in H. destruct H as [-> | H]; [|now left].
        right. exists a. auto.
      * right. exists a'. auto.
    + intros [H | (a' & [<- | Ha'] & E & Hp)].
      * left. destruct (p a); [|exact H]. apply set_add_In. now right.
      * left. rewrite Hp. apply set_add_In. now left.
      * right. exists a'. auto.
Qed.

Lemma has_site_input_tagged self site_id act :
  has_site_input self site_id act = true <-> tagged_with_site self site_id act.
Proof.
  unfold has_site_input, tagged_with_site. rewrite existsb_exists. split.
  - intros (obj & Hobj & H).
    destruct (get_opt (ref_id obj) (by_id self)) as [ent|] eqn:E;
      [|discriminate].
    unfold is_site_param in H. rewrite !andb_true_iff in H.
    destruct H as [[Ht Hn] Hv]. apply opt_eqb_true in Hn, Hv.
    exists obj, ent. auto.
  - intros (obj & ent & Hobj & E & Ht & Hn & Hv). exists obj.
    split; [exact Hobj|]. rewrite E. unfold is_site_param.
    rewrite Ht, Hn, Hv. simpl. now rewrite !String.eqb_refl.
Qed.

Lemma site_action_ids_spec g site_id :
  NoDup (site_action_ids (init g) site_id)
  /\ forall aid,
       In aid (site_action_ids (init g) site_id) <->
       exists a, In a (actions (init g)) /\ e_id a = aid
                 /\ tagged_with_site (init g) site_id a.
Proof.
  unfold site_action_ids.
  destruct (@site_action_ids_fold (has_site_input (init g) site_id)
              (actions (init g)) [] (NoDup_nil _)) as [Hnd Hin].
  split; [exact Hnd|]. intros aid. rewrite Hin. split.
  - intros [[] | (a & Ha & E & Hp)]. exists a.
    rewrite <- has_site_input_tagged. auto.
  - intros (a & Ha & E & Hp). right. exists a.
    rewrite has_site_input_tagged. auto.
Qed.

Lemma site_key_lineages_ok g site_id : forall bases key_lineages,
  exists kl,
    site_key_lineages (init g) site_id bases key_lineages = Ok kl.
Proof.
  induction bases as [|base bases IH]; intros key_lineages; simpl.
  - now exists key_lineages.
  - destruct (get_file_lineage_ok g base) as [rs ->]. simpl.
    destruct (filter (mentions_site site_id) rs); apply IH.
Qed.

Lemma Forall2_map_eq (A B : Type) (f : B -> A) (h : A -> B -> Prop)
  (l : list A) (l' : list B) :
  (forall a b, h a b -> f b = a) -> Forall2 h l l' -> map f l' = l.
Proof.
  intros H. induction 1 as [|a b l l' Hab _ IH]; simpl; [reflexivity|].
  now rewrite (H a b Hab), IH.
Qed.

(** The step runs of a site view, with the ids they are built from. *)
Lemma site_step_runs_spec g site_id :
  exists runs,
    site_step_runs (init g) site_id = Ok runs
    /\ map (fun r => as_id (sr_action r)) runs
       = sorted (site_action_ids (init g) site_id)
    /\ Forall2
         (fun aid r =>
            exists act,
              Dict.get aid (by_id (init g)) = Some act
              /\ r = summarise_run (init g) act
              /\ (NoDup (map e_id g) ->
                  In act (actions (init g))
                  /\ tagged_with_site (init g) site_id act))
         (sorted (site_action_ids (init g) site_id)) runs.
Proof.
  unfold site_step_runs.
  destruct (@map_result_ok _ _
    (fun aid => act <- Dict.item aid (by_id (init g)) ;;
                Ok (summarise_run (init g) act))
    (fun aid r =>
       exists act,
         Dict.get aid (by_id (init g)) = Some act
         /\ r = summarise_run (init g) act
         /\ (NoDup (map e_id g) ->
             In act (actions (init g))
             /\ tagged_with_site (init g) site_id act))
    (sorted (site_action_ids (init g) site_id))) as [runs [E H]].
  - intros aid Hin. rewrite sorted_In in Hin.
    apply (proj2 (site_action_ids_spec g site_id)) in Hin.
    destruct Hin as (a & Ha & <- & Htag).
    destruct (by_id_defined g a (actions_in_graph g a Ha)) as [act Hact].
    exists (summarise_run (init g) act). unfold Dict.item. rewrite Hact.
    split; [reflexivity|]. exists act. split; [reflexivity|].
    split; [reflexivity|]. intros Hu.
    rewrite (by_id_get_unique g a Hu (actions_in_graph g a Ha)) in Hact.
    injection Hact as <-. now split.
  - exists runs. split; [exact E|]. split; [|exact H].
    eapply Forall2_map_eq; [|exact H].
    intros aid r (act & Hact & -> & _). simpl.
    now destruct (by_id_get _ _ Hact).
Qed.

(** C10. [get_site_artifacts] never raises on a crate built from a graph.
    The ids of its [step_runs] are strictly ascending in the order of
    [sorted] on strings, so no id occurs twice, whatever the order of the
    actions in the graph and the number of matching parameters of an
    action; they are exactly the ids of the actions tagged with the site;
    and each record is the summary of the entity filed under its id, which
    with unique ids is the tagged action itself. *)
Theorem step_runs_sorted_unique (g : list entity) (site_id : string) :
  exists sv,
    get_site_artifacts (init g) site_id = Ok sv
    /\ StronglySorted str_lt
         (map (fun r => as_id (sr_action r)) (sv_step_runs sv))
    /\ (forall aid,
          In aid (map (fun r => as_id (sr_action r)) (sv_step_runs sv)) <->
          exists a, In a (actions (init g)) /\ e_id a = aid
                    /\ tagged_with_site (init g) site_id a)
    /\ Forall2
         (fun aid r =>
            exists act,
              Dict.get aid (by_id (init g)) = Some act
              /\ r = summarise_run (init g) act
              /\ (NoDup (map e_id g) ->
                  In act (actions (init g))
                  /\ tagged_with_site (init g) site_id act))
         (map (fun r => as_id (sr_action r)) (sv_step_runs sv))
         (sv_step_runs sv).
Proof.
  destruct (site_step_runs_spec g site_id) as (runs & Eruns & Hids & Hruns).
  destruct (site_key_lineages_ok g site_id (key_base_names site_id)
              Dict.empty) as [kl Ekl].
  destruct (site_action_ids_spec g site_id) as [Hnd Hin].
  unfold get_site_artifacts. rewrite Eruns. cbn [bind]. rewrite Ekl.
  cbn [bind]. eexists. split; [reflexivity|]. cbn [sv_step_runs].
  rewrite Hids. split; [now apply sorted_strict|]. split.
  - intros aid. rewrite sorted_In. apply Hin.
  - exact Hruns.
Qed.

(** Graph order and repeated tags do not show in [step_runs]: ["#b"]
    comes first in the graph and has two matching parameters, yet the run
    of ["#a"] comes first and ["#b"] has one record. *)
Example step_runs_example :
  exists sv,
    get_site_artifacts (init unsorted_site_graph) "s1" = Ok sv
    /\ map (fun r => as_id (sr_action r)) (sv_step_runs sv) = ["#a"; "#b"]
    /\ map sr_site_ids (sv_step_runs sv)
       = [[Some "s1"]; [Some "s1"; Some "s1"]].
Proof.
  eexists. split; [vm_compute; reflexivity|]. repeat split; reflexivity.
Qed.

(** The site scenario of the test suite. *)
Example site_scenario :
  exists sv,
    get_site_artifacts (init site_graph) "site001" = Ok sv
    /\ map ps_id (sv_parameters sv) = ["#param_site001"]
    /\ map fs_id (sv_files sv) = ["site001_output.csv"]
    /\ map (fun r => as_id (sr_action r)) (sv_step_runs sv) = ["#action1"]
    /\ map sr_site_ids (sv_step_runs sv) = [[Some "site001"]].
Proof.
  eexists. split; [vm_compute; reflexivity|]. repeat split; reflexivity.
Qed.

(* ===================================================================== *)
(** * What the walks reach *)
(* ===================================================================== *)

(** ** The walks and reachability *)

Section ReachFacts.
Variable d : Dict.t entity.
Variable index : Dict.t (list string).
Variable entity_edge action_edge : string.
Variable expand : entity -> action_node * list string.
Variable next : entity -> list string.
Variable max_depth : option Z.
Variable roots : list string.
Hypothesis expand_next : forall act i, In i (snd (expand act)) <-> In i (next act).

Local Abbreviation visit :=
  (walk_visit d entity_edge action_edge expand max_depth).
Local Abbreviation step :=
  (walk_step d index entity_edge action_edge expand max_depth).

Lemma reach_sound_step st :
  reach_sound d index next max_depth roots st ->
  reach_sound d index next max_depth roots (step st).
Proof.
  unfold reach_sound. intros [Hq Hv].
  destruct (step_cases d index entity_edge action_edge expand max_depth st)
    as [[_ ->] | (e & depth & q' & Eq & Hc)]; [now split|].
  destruct (Hq (e, depth)) as (n & Hn & Hreach & Hallow);
    [rewrite Eq; now left|]. cbn [fst snd] in Hn, Hreach.
  assert (Hq' : forall it, In it q' ->
            exists n, Z.of_nat n = snd it
                      /\ walk_reach d index next roots n (fst it)
                      /\ depth_allowed max_depth n).
  { intros it Hit. apply Hq. rewrite Eq. now right. }
  assert (Hv' : forall k, In k (e :: visited_entities st) ->
            exists n, walk_reach d index next roots n k
                      /\ depth_allowed max_depth n).
  { intros k [<- | Hk]; [now exists n | now apply Hv]. }
  destruct Hc as [[Hve ->] | [(Hve & Hnone & ->) | (Hve & ent & s & Ee & Ec & ->)]].
  - now split.
  - now split.
  - destruct (fold_visit_effect d entity_edge action_edge expand max_depth
      e depth (Dict.get_default e [] index)
      (set_entity_node (add_visited_entity (set_q st q') e) e s))
      as (-> & _ & _ & (items & -> & Hitems) & _).
    cbn [set_entity_node add_visited_entity set_q visited_entities q].
    split; [|exact Hv'].
    intros it Hit. apply in_app_or in Hit. destruct Hit as [Hit | Hit];
      [now apply Hq'|].
    destruct (Hitems it Hit) as (Hw & Hd & a & act & Ha & Hact & Hi).
    exists (S n). split; [rewrite Hd; lia|]. split.
    + destruct Hreach as (r & Hr & Hpath). exists r. split; [exact Hr|].
      apply path_hop with (y := e); [exact Hpath|].
      split; [now exists ent, s|]. exists a, act.
      split; [exact Ha|]. split; [exact Hact|]. now apply expand_next.
    + unfold depth_allowed, within_depth in *.
      destruct max_depth as [m|]; [|exact I].
      apply Z.leb_le in Hw. lia.
Qed.

Lemma reach_sound_initial :
  reach_sound d index next max_depth roots (initial_state roots).
Proof.
  unfold reach_sound, initial_state. cbn [q visited_entities].
  split; [|intros k []].
  intros it Hit. apply in_map_iff in Hit. destruct Hit as (r & <- & Hr).
  exists 0. cbn. split; [reflexivity|]. split.
  - exists r. split; [exact Hr | constructor].
  - unfold depth_allowed. destruct max_depth; [lia | exact I].
Qed.

(** Without depth limit a visit keeps the expansion tracked. *)
Lemma expansion_tracked_visit ent_id depth st a :
  max_depth = None ->
  expansion_tracked d next st ->
  expansion_tracked d next (visit ent_id depth st a).
Proof.
  intros Hmd [HE HD]. unfold walk_visit. rewrite Hmd.
  destruct (Dict.get a d) as [act|] eqn:Ea; [|now split].
  cbn [append_edge visited_actions].
  destruct (mem a (visited_actions st)) eqn:Em; [now split|].
  unfold expansion_tracked.
  cbn [within_depth q visited_entities visited_actions action_nodes
       append_edge].
  split.
  - intros k Hk. apply dict_keys_set in Hk.
    destruct Hk as [-> | Hk]; [now left | right; now apply HE].
  - intros k act' i [<- | Hk] Hact Hi.
    + right. rewrite map_app, in_app_iff. right.
      rewrite map_map. cbn [fst]. rewrite map_id.
      apply expand_next. congruence.
    + destruct (HD k act' i Hk Hact Hi) as [H | H]; [now left|].
      right. rewrite map_app, in_app_iff. now left.
Qed.

Lemma expansion_tracked_fold ent_id depth : forall l st,
  max_depth = None ->
  expansion_tracked d next st ->
  expansion_tracked d next (fold_left (visit ent_id depth) l st).
Proof.
  induction l as [|a l IH]; intros st Hmd H; simpl; [exact H|].
  apply IH; [exact Hmd|]. now apply expansion_tracked_visit.
Qed.

Lemma expansion_tracked_step st :
  max_depth = None ->
  expansion_tracked d next st -> expansion_tracked d next (step st).
Proof.
  intros Hmd [HE HD].
  destruct (step_cases d index entity_edge action_edge expand max_depth st)
    as [[_ ->] | (e & depth & q' & Eq & Hc)]; [now split|].
  assert (Hpop : forall i,
            In i (visited_entities st) \/ In i (map fst (q st)) ->
            In i (e :: visited_entities st) \/ In i (map fst q')).
  { intros i. rewrite Eq. simpl. tauto. }
  destruct Hc as [[Hve ->] | [(Hve & Hnone & ->) | (Hve & ent & s & Ee & Ec & ->)]].
  - split; [exact HE|]. cbn. intros a act i Ha Hact Hi.
    destruct (Hpop i (HD a act i Ha Hact Hi)) as [[<- | H] | H]; auto.
  - split; [exact HE|]. cbn. intros a act i Ha Hact Hi.
    destruct (Hpop i (HD a act i Ha Hact Hi)) as [H | H]; auto.
  - apply expansion_tracked_fold; [exact Hmd|].
    split; [exact HE|]. cbn. intros a act i Ha Hact Hi.
    destruct (Hpop i (HD a act i Ha Hact Hi)) as [H | H]; auto.
Qed.

Lemma expansion_tracked_initial :
  expansion_tracked d next (initial_state roots).
Proof. split; [intros a [] | intros a act i []]. Qed.

End ReachFacts.

(** ** Breadth-first order *)

Section BfsFacts.
Variable d : Dict.t entity.
Variable index : Dict.t (list string).
Variable entity_edge action_edge : string.
Variable expand : entity -> action_node * list string.
Variable next : entity -> list string.
Variable max_depth : option Z.
Variable roots : list string.
Hypothesis expand_next : forall act i, In i (snd (expand act)) <-> In i (next act).

Local Abbreviation visit :=
  (walk_visit d entity_edge action_edge expand max_depth).
Local Abbreviation step :=
  (walk_step d index entity_edge action_edge expand max_depth).

(** Within the depth limit, a round queues what a first expansion leads
    to. *)
Lemma fold_visit_queued ent_id depth a act i : forall l st,
  In a l -> ~ In a (visited_actions st) -> Dict.get a d = Some act ->
  within_depth max_depth depth = true -> In i (snd (expand act)) ->
  In (i, (depth + 1)%Z) (q (fold_left (visit ent_id depth) l st)).
Proof.
  induction l as [|b l IH]; intros st; [intros []|].
  intros Hin Hnv Hact Hw Hi. cbn [fold_left].
  destruct (string_dec b a) as [-> | Hne].
  - destruct (fold_visit_effect d entity_edge action_edge expand max_depth
                ent_id depth l (visit ent_id depth st a))
      as (_ & _ & _ & (items & -> & _) & _).
    apply in_or_app. left. unfold walk_visit. rewrite Hact.
    cbn [append_edge visited_actions].
    apply mem_false in Hnv. rewrite Hnv. cbn [q append_edge]. rewrite Hw.
    apply in_or_app. right. apply in_map_iff. now exists i.
  - destruct Hin as [Heq | Hin]; [contradiction|].
    apply IH; auto.
    destruct (visit_effect d entity_edge action_edge expand max_depth
                ent_id depth st b) as (_ & _ & _ & _ & _ & H6).
    intros Hv. apply H6 in Hv. destruct Hv as [Hv | [E _]];
      [contradiction | congruence].
Qed.

Lemma layers_pop lo st e depth q' :
  queue_layers lo st -> q st = (e, depth) :: q' ->
  (lo <= depth)%Z
  /\ exists q1 q2,
       q' = q1 ++ q2
       /\ (forall it, In it q1 -> snd it = depth)
       /\ (forall it, In it q2 -> snd it = (depth + 1)%Z).
Proof.
  intros (q1 & q2 & E & H1 & H2) Eq. rewrite Eq in E.
  destruct q1 as [|it q1].
  - destruct q2 as [|it q2]; [discriminate|]. simpl in E.
    injection E as E1 E2. subst it q2.
    pose proof (H2 (e, depth) (or_introl eq_refl)) as Hd. cbn in Hd.
    split; [lia|]. exists q', []. rewrite app_nil_r.
    split; [reflexivity|]. split; [|intros it []].
    intros it Hit. rewrite (H2 it (or_intror Hit)). lia.
  - simpl in E. injection E as E1 E2. subst it q'.
    pose proof (H1 (e, depth) (or_introl eq_refl)) as Hd. cbn in Hd.
    split; [lia|]. exists q1, q2. split; [reflexivity|]. split.
    + intros it Hit. rewrite (H1 it (or_intror Hit)). lia.
    + intros it Hit. rewrite (H2 it Hit). lia.
Qed.

(** Dequeuing an item that is then visited keeps everything tracked. *)
Lemma tracked_after_pop (dv dv' : string -> Z) st st' e depth q' items i b :
  q st = (e, depth) :: q' -> q st' = q' ++ items ->
  (forall k, In k (visited_entities st) ->
     In k (visited_entities st') /\ dv' k = dv k) ->
  In e (visited_entities st') -> (dv' e <= depth)%Z ->
  tracked_within dv st i b -> tracked_within dv' st' i b.
Proof.
  intros Eq Eq' Hold He Hde [[Hv Hb] | (d' & Hd' & Hin)].
  - left. destruct (Hold i Hv) as [H1 H2]. split; [exact H1 | lia].
  - rewrite Eq in Hin. destruct Hin as [Hin | Hin].
    + injection Hin as <- <-. left. split; [exact He | lia].
    + right. exists d'. split; [exact Hd'|]. rewrite Eq'.
      apply in_or_app. now left.
Qed.

Lemma bfs_invariant_step st :
  bfs_invariant d index next max_depth roots st ->
  bfs_invariant d index next max_depth roots (step st).
Proof.
  intros (dv & da & lo & L & V & A & R & BA & BE).
  destruct (step_cases d index entity_edge action_edge expand max_depth st)
    as [[_ ->] | (e & depth & q' & Eq & Hc)]; [now exists dv, da, lo|].
  destruct (layers_pop L Eq) as (Hlo & q1 & q2 & Eq' & H1 & H2).
  destruct Hc as [[Hve ->] | [(Hve & Hnone & ->) | (Hve & ent & s & Ee & Ec & ->)]].
  - (* the entity was visited before *)
    assert (T : forall i b, tracked_within dv st i b ->
                            tracked_within dv (set_q st q') i b).
    { intros i b.
      apply (@tracked_after_pop dv dv st (set_q st q') e depth q' [] i b).
      - exact Eq.
      - cbn. now rewrite app_nil_r.
      - intros k Hk. now split.
      - exact Hve.
      - specialize (V e Hve). lia. }
    exists dv, da, depth. unfold bfs_layers.
    cbn [set_q q visited_entities visited_actions].
    split; [now exists q1, q2|].
    split; [intros k Hk; specialize (V k Hk); lia|].
    split; [intros a Ha; specialize (A a Ha); lia|].
    split; [intros r Hr; now apply T, R|].
    split; [intros a act i Ha Hact Hi Hw; now apply T, (BA a act)|].
    exact BE.
  - (* a first visit of an id that is not a file or dataset *)
    set (dv' := fun k => if mem k (visited_entities st) then dv k else depth).
    assert (Hold : forall k, In k (visited_entities st) -> dv' k = dv k).
    { intros k Hk. unfold dv'. apply mem_In in Hk. now rewrite Hk. }
    assert (Hnew : dv' e = depth).
    { unfold dv'. apply mem_false in Hve. now rewrite Hve. }
    assert (T : forall i b,
              tracked_within dv st i b ->
              tracked_within dv' (add_visited_entity (set_q st q') e) i b).
    { intros i b.
      apply (@tracked_after_pop dv dv' st
               (add_visited_entity (set_q st q') e) e depth q' [] i b).
      - exact Eq.
      - cbn. now rewrite app_nil_r.
      - intros k Hk. split; [now right | now apply Hold].
      - now left.
      - lia. }
    exists dv', da, depth. unfold bfs_layers.
    cbn [add_visited_entity set_q q visited_entities visited_actions].
    split; [now exists q1, q2|].
    split.
    { intros k [<- | Hk]; [lia|]. rewrite (Hold k Hk).
      specialize (V k Hk). lia. }
    split; [intros a Ha; specialize (A a Ha); lia|].
    split; [intros r Hr; now apply T, R|].
    split; [intros a act i Ha Hact Hi Hw; now apply T, (BA a act)|].
    intros e0 a [<- | He0] (ent' & s' & Hent' & Hc') Ha Hres.
    + destruct Hnone as [Hn | (ent0 & Hn & Hc0)]; congruence.
    + rewrite (Hold e0 He0). apply (BE e0 a He0); auto. now exists ent', s'.
  - (* a first visit of a file or dataset: its actions are expanded *)
    set (st0 := set_entity_node (add_visited_entity (set_q st q') e) e s).
    destruct (fold_visit_effect d entity_edge action_edge expand max_depth
                e depth (Dict.get_default e [] index) st0)
      as (Hve' & _ & _ & (items & Hq' & Hitems) & _ & H6).
    cbn [st0 set_entity_node add_visited_entity set_q q visited_entities
         visited_actions] in Hve', Hq', H6.
    set (st' := fold_left (visit e depth) (Dict.get_default e [] index) st0)
      in *.
    set (dv' := fun k => if mem k (visited_entities st) then dv k else depth).
    set (da' := fun a => if mem a (visited_actions st) then da a else depth).
    assert (Hold : forall k, In k (visited_entities st) -> dv' k = dv k).
    { intros k Hk. unfold dv'. apply mem_In in Hk. now rewrite Hk. }
    assert (Hnew : dv' e = depth).
    { unfold dv'. apply mem_false in Hve. now rewrite Hve. }
    assert (Aold : forall a, In a (visited_actions st) -> da' a = da a).
    { intros a Ha. unfold da'. apply mem_In in Ha. now rewrite Ha. }
    assert (Anew : forall a, ~ In a (visited_actions st) -> da' a = depth).
    { intros a Ha. unfold da'. apply mem_false in Ha. now rewrite Ha. }
    assert (A' : forall a, In a (visited_actions st') -> (da' a <= depth)%Z).
    { intros a _. destruct (in_dec string_dec a (visited_actions st))
        as [Ha | Ha].
      - rewrite (Aold a Ha). specialize (A a Ha). lia.
      - rewrite (Anew a Ha). lia. }
    assert (T : forall i b,
              tracked_within dv st i b -> tracked_within dv' st' i b).
    { intros i b.
      apply (@tracked_after_pop dv dv' st st' e depth q' items i b).
      - exact Eq.
      - exact Hq'.
      - intros k Hk. rewrite Hve'. split; [now right | now apply Hold].
      - rewrite Hve'. now left.
      - lia. }
    exists dv', da', depth. unfold bfs_layers.
    split.
    { exists q1, (q2 ++ items). rewrite Hq', Eq', app_assoc.
      split; [reflexivity|]. split; [exact H1|].
      intros it Hit. apply in_app_or in Hit.
      destruct Hit as [Hit | Hit]; [now apply H2|].
      now destruct (Hitems it Hit) as (_ & Hd & _). }
    split.
    { intros k Hk. rewrite Hve' in Hk. destruct Hk as [<- | Hk]; [lia|].
      rewrite (Hold k Hk). specialize (V k Hk). lia. }
    split; [exact A'|].
    split; [intros r Hr; now apply T, R|].
    split.
    { intros a act i Ha Hact Hi Hw.
      destruct (in_dec string_dec a (visited_actions st)) as [Hva | Hva].
      - rewrite (Aold a Hva) in *. now apply T, (BA a act).
      - rewrite (Anew a Hva) in *. apply H6 in Ha.
        destruct Ha as [Ha | [Ha _]]; [contradiction|].
        right. exists (depth + 1)%Z. split; [lia|].
        apply (@fold_visit_queued e depth a act i
                 (Dict.get_default e [] index) st0); auto.
        now apply expand_next. }
    intros e0 a He0 (ent' & s' & Hent' & Hc') Ha Hres.
    rewrite Hve' in He0. destruct He0 as [<- | He0].
    + assert (Hva : In a (visited_actions st')) by (apply H6; auto).
      split; [exact Hva|]. rewrite Hnew. now apply A'.
    + destruct (BE e0 a He0) as [Hva Hda]; auto; [now exists ent', s'|].
      split; [apply H6; now left|].
      rewrite (Hold e0 He0), (Aold a Hva). exact Hda.
Qed.

Lemma bfs_invariant_initial :
  bfs_invariant d index next max_depth roots (initial_state roots).
Proof.
  exists (fun _ => 0%Z), (fun _ => 0%Z), 0%Z. unfold bfs_layers, initial_state.
  cbn [q visited_entities visited_actions].
  split.
  { exists (map (fun fid => (fid, 0%Z)) roots), []. rewrite app_nil_r.
    split; [reflexivity|]. split; [|intros it []].
    intros it Hit. apply in_map_iff in Hit. now destruct Hit as (r & <- & _). }
  split; [intros k []|]. split; [intros a []|].
  split.
  { intros r Hr. right. exists 0%Z. split; [lia|]. cbn [q].
    apply in_map_iff. now exists r. }
  split; [intros a act i [] | intros e a []].
Qed.

(** When a walk is over, everything reachable within the depth limit was
    visited. *)
Lemma bfs_complete_final st n k :
  bfs_invariant d index next max_depth roots st ->
  q st = [] ->
  walk_reach d index next roots n k ->
  depth_allowed max_depth n ->
  In k (visited_entities st).
Proof.
  intros (dv & da & lo & L & V & A & R & BA & BE) Hq (r & Hr & Hpath) Hallow.
  assert (H : In k (visited_entities st) /\ (dv k <= Z.of_nat n)%Z).
  { induction Hpath as [x | n x y z Hpath IH Hedge].
    - destruct (R x Hr) as [[Hv Hd] | (d' & _ & Hin)].
      + split; [exact Hv | lia].
      + rewrite Hq in Hin. destruct Hin.
    - assert (Hallow' : depth_allowed max_depth n).
      { unfold depth_allowed in *. destruct max_depth; [lia | exact I]. }
      destruct (IH Hr Hallow') as [Hy Hdy].
      destruct Hedge as [Hrec (a & act & Ha & Hact & Hi)].
      destruct (BE y a Hy Hrec Ha) as [Hva Hda]; [congruence|].
      assert (Hw : within_depth max_depth (da a) = true).
      { unfold within_depth, depth_allowed in *.
        destruct max_depth as [m|]; [|reflexivity]. apply Z.leb_le. lia. }
      destruct (BA a act z Hva Hact Hi Hw) as [[Hv Hd] | (d' & _ & Hin)].
      + split; [exact Hv | lia].
      + rewrite Hq in Hin. destruct Hin. }
  exact (proj1 H).
Qed.
End BfsFacts.

Lemma filter_data_In ents e :
  In e (filter is_file ents) \/ In e (filter is_dataset ents)
  <-> In e (filter is_data ents).
Proof.
  rewrite !filter_In. unfold is_file, is_dataset, is_data.
  destruct (has_type e "File"), (has_type e "Dataset"); simpl;
    intuition discriminate.
Qed.

Lemma ancestry_expand_next self act i :
  In i (snd (ancestry_expand self act)) <-> In i (data_inputs self act).
Proof.
  rewrite ancestry_expand_ids. unfold data_inputs.
  rewrite in_app_iff, !in_map_iff. split.
  - intros [(e & <- & He) | (e & <- & He)]; exists e;
      (split; [reflexivity | apply filter_data_In; auto]).
  - intros (e & <- & He). apply filter_data_In in He.
    destruct He as [He | He]; [left | right]; now exists e.
Qed.

Lemma descend_expand_next self act i :
  In i (snd (descend_expand self act)) <-> In i (data_outputs self act).
Proof. reflexivity. Qed.

(** What the ancestry loop keeps about reachability. *)
Lemma ancestry_reach_final g selector max_depth :
  let roots := map e_id (get_file_entities (init g) selector) in
  exists r,
    get_file_ancestry (init g) selector max_depth = Some r
    /\ (forall k, In k (Dict.keys (r_entities r)) ->
          recordable (by_id (init g)) k
          /\ exists n, upstream_reach (init g) roots n k
                       /\ depth_allowed max_depth n)
    /\ (forall k n, upstream_reach (init g) roots n k ->
                    depth_allowed max_depth n ->
                    recordable (by_id (init g)) k ->
                    In k (Dict.keys (r_entities r))).
Proof.
  intros roots.
  destruct (@get_file_ancestry_final (init g) selector max_depth
              (fun st =>
                 ancestry_invariant g roots st
                 /\ reach_sound (by_id (init g)) (actions_by_result (init g))
                      (data_inputs (init g)) max_depth roots st
                 /\ bfs_invariant (by_id (init g)) (actions_by_result (init g))
                      (data_inputs (init g)) max_depth roots st))
    as [r [Hr Hcase]].
  - intros st (Hi & Hs & He). split; [now apply ancestry_invariant_step|].
    rewrite ancestry_step_walk. split.
    + apply reach_sound_step; [apply ancestry_expand_next | exact Hs].
    + apply bfs_invariant_step; [apply ancestry_expand_next | exact He].
  - split; [apply ancestry_invariant_initial|]. split.
    + apply reach_sound_initial.
    + apply bfs_invariant_initial.
  - exists r. split; [exact Hr|].
    destruct Hcase as [[E ->] | [_ (st & (HP & Hs & He) & Hq & ->)]].
    + cbn. split; [tauto|]. intros k n (root & Hroot & _).
      unfold roots in Hroot. rewrite E in Hroot. destruct Hroot.
    + destruct HP as (N & A & T & _). cbn [r_entities]. split.
      * intros k Hk. destruct N as (N1 & N2 & _). split.
        -- unfold Dict.keys in Hk. apply in_map_iff in Hk.
           destruct Hk as [[k' s] [<- Hin]].
           destruct (N1 _ _ Hin) as (ent & Hent & Hc). now exists ent, s.
        -- apply (proj2 Hs). now apply N2.
      * intros k n Hreach Hallow (ent & s & Hent & Hc).
        destruct N as (N1 & N2 & N3). apply (N3 k ent s); [|exact Hent|exact Hc].
        exact (bfs_complete_final He Hq Hreach Hallow).
Qed.

Lemma descend_reach_final g selector max_depth :
  let roots := map e_id (get_file_entities (init g) selector) in
  exists r,
    get_file_descendants (init g) selector max_depth = Some r
    /\ (forall k, In k (Dict.keys (r_entities r)) ->
          recordable (by_id (init g)) k
          /\ exists n, downstream_reach (init g) roots n k
                       /\ depth_allowed max_depth n)
    /\ (forall k n, downstream_reach (init g) roots n k ->
                    depth_allowed max_depth n ->
                    recordable (by_id (init g)) k ->
                    In k (Dict.keys (r_entities r))).
Proof.
  intros roots.
  destruct (@get_file_descendants_final (init g) selector max_depth
              (fun st =>
                 descend_invariant g roots st
                 /\ reach_sound (by_id (init g)) (actions_by_input (init g))
                      (data_outputs (init g)) max_depth roots st
                 /\ bfs_invariant (by_id (init g)) (actions_by_input (init g))
                      (data_outputs (init g)) max_depth roots st))
    as [r [Hr Hcase]].
  - intros st (Hi & Hs & He). split; [now apply descend_invariant_step|].
    rewrite descend_step_walk. split.
    + apply reach_sound_step; [apply descend_expand_next | exact Hs].
    + apply bfs_invariant_step; [apply descend_expand_next | exact He].
  - split; [apply descend_invariant_initial|]. split.
    + apply reach_sound_initial.
    + apply bfs_invariant_initial.
  - exists r. split; [exact Hr|].
    destruct Hcase as [[E ->] | [_ (st & (HP & Hs & He) & Hq & ->)]].
    + cbn. split; [tauto|]. intros k n (root & Hroot & _).
      unfold roots in Hroot. rewrite E in Hroot. destruct Hroot.
    + destruct HP as (N & A & T & _). cbn [r_entities]. split.
      * intros k Hk. destruct N as (N1 & N2 & _). split.
        -- unfold Dict.keys in Hk. apply in_map_iff in Hk.
           destruct Hk as [[k' s] [<- Hin]].
           destruct (N1 _ _ Hin) as (ent & Hent & Hc). now exists ent, s.
        -- apply (proj2 Hs). now apply N2.
      * intros k n Hreach Hallow (ent & s & Hent & Hc).
        destruct N as (N1 & N2 & N3). apply (N3 k ent s); [|exact Hent|exact Hc].
        exact (bfs_complete_final He Hq Hreach Hallow).
Qed.

(** X1. Without depth limit, [get_file_ancestry] records in [entities]
    exactly the ids that resolve to a file or dataset and are reachable
    from a root by upstream hops: from an entity, through an action filed
    under it in [actions_by_result], to a file or dataset input of that
    action. *)
Theorem ancestry_exact (g : list entity) (selector : string) :
  exists r,
    get_file_ancestry (init g) selector None = Some r
    /\ forall k,
         In k (Dict.keys (r_entities r)) <->
         recordable (by_id (init g)) k
         /\ exists n,
              upstream_reach (init g)
                (map e_id (get_file_entities (init g) selector)) n k.
Proof.
  destruct (ancestry_reach_final g selector None) as (r & Hr & Hs & Hc).
  exists r. split; [exact Hr|]. intros k. split.
  - intros Hk. destruct (Hs k Hk) as [Hrec (n & Hn & _)].
    split; [exact Hrec | now exists n].
  - intros [Hrec (n & Hn)]. exact (Hc k n Hn I Hrec).
Qed.

(** X2. Without depth limit, [get_file_descendants] records in [entities]
    exactly the ids that resolve to a file or dataset and are reachable
    from a root by downstream hops: from an entity, through an action
    filed under it in [actions_by_input], to a file or dataset output of
    that action. *)
Theorem descendants_exact (g : list entity) (selector : string) :
  exists r,
    get_file_descendants (init g) selector None = Some r
    /\ forall k,
         In k (Dict.keys (r_entities r)) <->
         recordable (by_id (init g)) k
         /\ exists n,
              downstream_reach (init g)
                (map e_id (get_file_entities (init g) selector)) n k.
Proof.
  destruct (descend_reach_final g selector None) as (r & Hr & Hs & Hc).
  exists r. split; [exact Hr|]. intros k. split.
  - intros Hk. destruct (Hs k Hk) as [Hrec (n & Hn & _)].
    split; [exact Hrec | now exists n].
  - intros [Hrec (n & Hn)]. exact (Hc k n Hn I Hrec).
Qed.

(** X3. With [max_depth = m], either walk records in [entities] exactly
    the ids that resolve to a file or dataset and are at most [max 0 m]
    hops away from a root: the walk is breadth-first, so an entity is
    first met on a shortest path, and the depth limit cuts no entity that
    a shorter path reaches. *)
Theorem walk_depth_exact (g : list entity) (selector : string) (m : Z) :
  (exists r,
      get_file_ancestry (init g) selector (Some m) = Some r
      /\ forall k,
           In k (Dict.keys (r_entities r)) <->
           recordable (by_id (init g)) k
           /\ exists n,
                upstream_reach (init g)
                  (map e_id (get_file_entities (init g) selector)) n k
                /\ (Z.of_nat n <= Z.max 0 m)%Z)
  /\ (exists r,
        get_file_descendants (init g) selector (Some m) = Some r
        /\ forall k,
             In k (Dict.keys (r_entities r)) <->
             recordable (by_id (init g)) k
             /\ exists n,
                  downstream_reach (init g)
                    (map e_id (get_file_entities (init g) selector)) n k
                  /\ (Z.of_nat n <= Z.max 0 m)%Z).
Proof.
  split.
  - destruct (ancestry_reach_final g selector (Some m)) as (r & Hr & Hs & Hc).
    exists r. split; [exact Hr|]. intros k. split.
    + intros Hk. exact (Hs k Hk).
    + intros [Hrec (n & Hn & Hd)]. exact (Hc k n Hn Hd Hrec).
  - destruct (descend_reach_final g selector (Some m)) as (r & Hr & Hs & Hc).
    exists r. split; [exact Hr|]. intros k. split.
    + intros Hk. exact (Hs k Hk).
    + intros [Hrec (n & Hn & Hd)]. exact (Hc k n Hn Hd Hrec).
Qed.

(** A diamond with a long and a short way to its source: with depth
    limit 1 the source is recorded, by the short way. *)
Example short_path_wins :
  let g := [ file_entity "out" "out" None;
             file_entity "mid" "mid" None;
             file_entity "src" "src" None;
             action_entity "#a" "long way" None [RefId "mid"] [RefId "out"];
             action_entity "#b" "short way" None [RefId "src"] [RefId "out"];
             action_entity "#c" "first leg" None [RefId "src"] [RefId "mid"] ] in
  exists r,
    get_file_ancestry (init g) "out" (Some 1%Z) = Some r
    /\ Dict.keys (r_entities r) = ["out"; "mid"; "src"].
Proof. eexists. split; [vm_compute; reflexivity|]. reflexivity. Qed.

(** ** Edges of a round *)

Section EdgeEmission.
Variable d : Dict.t entity.
Variable index : Dict.t (list string).
Variable entity_edge action_edge : string.
Variable expand : entity -> action_node * list string.
Variable max_depth : option Z.
Hypothesis edge_kinds : entity_edge <> action_edge.

Local Abbreviation visit :=
  (walk_visit d entity_edge action_edge expand max_depth).
Local Abbreviation step :=
  (walk_step d index entity_edge action_edge expand max_depth).

(** A visit appends one entity edge when the action resolves, whether or
    not the action was visited before, and none otherwise. *)
Lemma visit_entity_edges ent_id depth st a :
  exists es,
    edges (visit ent_id depth st a) = edges st ++ es
    /\ filter (fun ed => edge_type ed =? entity_edge) es
       = match Dict.get a d with
         | Some _ => [{| edge_type := entity_edge; edge_action := a;
                         edge_entity := ent_id |}]
         | None => []
         end.
Proof.
  unfold walk_visit. destruct (Dict.get a d) as [act|].
  2:{ exists []. now rewrite app_nil_r. }
  cbn [append_edge visited_actions].
  destruct (mem a (visited_actions st)); cbn [edges append_edge].
  - eexists. split; [reflexivity|]. cbn. now rewrite String.eqb_refl.
  - eexists. rewrite <- app_assoc. split; [reflexivity|].
    cbn. rewrite String.eqb_refl. f_equal.
    apply filter_nil. intros ed Hed. apply in_map_iff in Hed.
    destruct Hed as (i & <- & _). cbn. apply String.eqb_neq.
    intros E. now apply edge_kinds.
Qed.

Lemma fold_visit_entity_edges ent_id depth : forall l st,
  exists es,
    edges (fold_left (visit ent_id depth) l st) = edges st ++ es
    /\ filter (fun ed => edge_type ed =? entity_edge) es
       = flat_map
           (fun a =>
              match Dict.get a d with
              | Some _ => [{| edge_type := entity_edge; edge_action := a;
                              edge_entity := ent_id |}]
              | None => []
              end) l.
Proof.
  induction l as [|a l IH]; intros st; cbn [fold_left flat_map].
  - exists []. now rewrite app_nil_r.
  - destruct (IH (visit ent_id depth st a)) as (es2 & E2 & F2).
    destruct (visit_entity_edges ent_id depth st a) as (es1 & E1 & F1).
    exists (es1 ++ es2). rewrite E2, E1, <- app_assoc.
    split; [reflexivity|]. now rewrite filter_app, F1, F2.
Qed.

(** An iteration that dequeues a file or dataset for the first time
    records it and appends one entity edge for every action of its index
    list that resolves, in list order. *)
Lemma step_entity_edges st e depth q' ent s :
  q st = (e, depth) :: q' ->
  ~ In e (visited_entities st) ->
  Dict.get e d = Some ent -> classify_node ent = Some s ->
  In e (Dict.keys (entity_nodes (step st)))
  /\ exists es,
       edges (step st) = edges st ++ es
       /\ filter (fun ed => edge_type ed =? entity_edge) es
          = flat_map
              (fun a =>
                 match Dict.get a d with
                 | Some _ => [{| edge_type := entity_edge; edge_action := a;
                                 edge_entity := e |}]
                 | None => []
                 end) (Dict.get_default e [] index).
Proof.
  intros Eq Hv He Hc. unfold walk_step. rewrite Eq.
  cbn [set_q visited_entities]. apply mem_false in Hv. rewrite Hv, He, Hc.
  split.
  - destruct (fold_visit_effect d entity_edge action_edge expand max_depth
                e depth (Dict.get_default e [] index)
                (set_entity_node (add_visited_entity (set_q st q') e) e s))
      as (_ & -> & _).
    cbn [set_entity_node entity_nodes]. apply dict_keys_set. now left.
  - exact (fold_visit_entity_edges e depth (Dict.get_default e [] index)
             (set_entity_node (add_visited_entity (set_q st q') e) e s)).
Qed.
End EdgeEmission.

Lemma flat_map_resolved g (mk : string -> edge) l :
  (forall a, In a l -> Dict.get a (by_id (init g)) <> None) ->
  flat_map
    (fun a =>
       match Dict.get a (by_id (init g)) with
       | Some _ => [mk a]
       | None => []
       end) l
  = map mk l.
Proof.
  induction l as [|a l IH]; intros H; [reflexivity|].
  cbn [flat_map map]. rewrite IH by (intros b Hb; apply H; now right).
  destruct (Dict.get a (by_id (init g))) eqn:E; [reflexivity|].
  exfalso. now apply (H a (or_introl eq_refl)).
Qed.

(** What [get_file_ancestry] returns: the recorded entities, their
    summaries and the edges to their producers. *)
Lemma ancestry_result_facts g selector max_depth :
  let roots := map e_id (get_file_entities (init g) selector) in
  exists r,
    get_file_ancestry (init g) selector max_depth = Some r
    /\ (forall k,
          In k (Dict.keys (r_entities r)) <->
          recordable (by_id (init g)) k
          /\ exists n, upstream_reach (init g) roots n k
                       /\ depth_allowed max_depth n)
    /\ (forall k s, In (k, s) (r_entities r) ->
          exists ent, Dict.get k (by_id (init g)) = Some ent
                      /\ classify_node ent = Some s)
    /\ (forall e a,
          In e (Dict.keys (r_entities r)) ->
          In a (producers (init g) e) ->
          In {| edge_type := "generated"; edge_action := a;
                edge_entity := e |} (r_edges r)).
Proof.
  intros roots.
  destruct (ancestry_reach_final g selector max_depth) as (r & Hr & Hs & Hc).
  destruct (@get_file_ancestry_final (init g) selector max_depth
              (ancestry_invariant g roots)) as [r' [Hr' Hcase]].
  { intros st. apply ancestry_invariant_step. }
  { apply ancestry_invariant_initial. }
  rewrite Hr in Hr'. injection Hr' as <-.
  exists r. split; [exact Hr|]. split.
  { intros k. split; [exact (Hs k)|].
    intros [Hrec (n & Hn & Hd)]. exact (Hc k n Hn Hd Hrec). }
  destruct Hcase as [[_ ->] | [_ (st & HP & _ & ->)]].
  - cbn. split; [intros k s [] | intros e a []].
  - destruct HP as ((N1 & _) & (_ & _ & A3) & _). cbn [r_entities r_edges].
    split; [exact N1|]. intros e a He Ha.
    destruct (producers_resolve _ _ _ Ha) as [act Hact].
    apply (A3 e a He Ha). congruence.
Qed.

(** The same for [get_file_descendants], with its [descendant_files]. *)
Lemma descend_result_facts g selector max_depth :
  let roots := map e_id (get_file_entities (init g) selector) in
  exists r,
    get_file_descendants (init g) selector max_depth = Some r
    /\ (forall k,
          In k (Dict.keys (r_entities r)) <->
          recordable (by_id (init g)) k
          /\ exists n, downstream_reach (init g) roots n k
                       /\ depth_allowed max_depth n)
    /\ (forall k s, In (k, s) (r_entities r) ->
          exists ent, Dict.get k (by_id (init g)) = Some ent
                      /\ classify_node ent = Some s)
    /\ (forall e a,
          In e (Dict.keys (r_entities r)) ->
          In a (consumers (init g) e) ->
          In {| edge_type := "used"; edge_action := a;
                edge_entity := e |} (r_edges r))
    /\ r_descendant_files r
       = Some (collect_descendant_files roots (r_entities r)).
Proof.
  intros roots.
  destruct (descend_reach_final g selector max_depth) as (r & Hr & Hs & Hc).
  destruct (@get_file_descendants_final (init g) selector max_depth
              (descend_invariant g roots)) as [r' [Hr' Hcase]].
  { intros st. apply descend_invariant_step. }
  { apply descend_invariant_initial. }
  rewrite Hr in Hr'. injection Hr' as <-.
  exists r. split; [exact Hr|]. split.
  { intros k. split; [exact (Hs k)|].
    intros [Hrec (n & Hn & Hd)]. exact (Hc k n Hn Hd Hrec). }
  destruct Hcase as [[_ ->] | [_ (st & HP & _ & ->)]].
  - cbn. split; [intros k s []|]. split; [intros e a [] | reflexivity].
  - destruct HP as ((N1 & _) & (_ & _ & A3) & _).
    cbn [r_entities r_edges r_descendant_files].
    split; [exact N1|]. split; [|reflexivity]. intros e a He Ha.
    destruct (consumers_resolve _ _ _ Ha) as [act Hact].
    apply (A3 e a He Ha). congruence.
Qed.

(** C5. In the ancestry walk, an iteration that dequeues a file or
    dataset for the first time records it in [entities] and appends one
    ["generated"] edge for every entry of its [actions_by_result] list, in
    list order, whatever the visited-actions set holds: that set guards
    the expansion only.  The walk returns a result whose [entities] are
    exactly the files and datasets reachable from a root within the depth
    limit, and in which every recorded entity has its ["generated"] edge
    to every action filed under it.  The same holds for the descendants
    walk with ["used"] edges and [actions_by_input]. *)
Theorem edge_for_every_pair (g : list entity) (selector : string)
  (max_depth : option Z) :
  let roots := map e_id (get_file_entities (init g) selector) in
  ((forall st e depth q' ent s,
       q st = (e, depth) :: q' ->
       ~ In e (visited_entities st) ->
       Dict.get e (by_id (init g)) = Some ent ->
       classify_node ent = Some s ->
       In e (Dict.keys (entity_nodes (ancestry_step (init g) max_depth st)))
       /\ exists es,
            edges (ancestry_step (init g) max_depth st) = edges st ++ es
            /\ filter (fun ed => edge_type ed =? "generated") es
               = map (fun a => {| edge_type := "generated";
                                  edge_action := a;
                                  edge_entity := e |})
                   (producers (init g) e))
   /\ exists r,
        get_file_ancestry (init g) selector max_depth = Some r
        /\ (forall k,
              In k (Dict.keys (r_entities r)) <->
              recordable (by_id (init g)) k
              /\ exists n, upstream_reach (init g) roots n k
                           /\ depth_allowed max_depth n)
        /\ (forall e a,
              In e (Dict.keys (r_entities r)) ->
              In a (producers (init g) e) ->
              In {| edge_type := "generated";
                    edge_action := a;
                    edge_entity := e |} (r_edges r)))
  /\ ((forall st e depth q' ent s,
         q st = (e, depth) :: q' ->
         ~ In e (visited_entities st) ->
         Dict.get e (by_id (init g)) = Some ent ->
         classify_node ent = Some s ->
         In e (Dict.keys (entity_nodes (descend_step (init g) max_depth st)))
         /\ exists es,
              edges (descend_step (init g) max_depth st) = edges st ++ es
              /\ filter (fun ed => edge_type ed =? "used") es
                 = map (fun a => {| edge_type := "used";
                                    edge_action := a;
                                    edge_entity := e |})
                     (consumers (init g) e))
      /\ exists r,
           get_file_descendants (init g) selector max_depth = Some r
           /\ (forall k,
                 In k (Dict.keys (r_entities r)) <->
                 recordable (by_id (init g)) k
                 /\ exists n, downstream_reach (init g) roots n k
                              /\ depth_allowed max_depth n)
           /\ (forall e a,
                 In e (Dict.keys (r_entities r)) ->
                 In a (consumers (init g) e) ->
                 In {| edge_type := "used";
                       edge_action := a;
                       edge_entity := e |} (r_edges r))).
Proof.
  intros roots. split; split.
  - intros st e depth q' ent s Eq Hv He Hc. rewrite ancestry_step_walk.
    destruct (@step_entity_edges (by_id (init g))
                (actions_by_result (init g)) "generated" "used"
                (ancestry_expand (init g)) max_depth
                ltac:(discriminate) st e depth q' ent s Eq Hv He Hc)
      as [Hin (es & E & F)].
    split; [exact Hin|]. exists es. split; [exact E|]. rewrite F.
    apply flat_map_resolved. intros a Ha.
    destruct (producers_resolve g e a Ha) as [act Hact]. congruence.
  - destruct (ancestry_result_facts g selector max_depth)
      as (r & Hr & Hk & _ & He).
    exists r. split; [exact Hr|]. split; [exact Hk | exact He].
  - intros st e depth q' ent s Eq Hv He Hc. rewrite descend_step_walk.
    destruct (@step_entity_edges (by_id (init g))
                (actions_by_input (init g)) "used" "generated"
                (descend_expand (init g)) max_depth
                ltac:(discriminate) st e depth q' ent s Eq Hv He Hc)
      as [Hin (es & E & F)].
    split; [exact Hin|]. exists es. split; [exact E|]. rewrite F.
    apply flat_map_resolved. intros a Ha.
    destruct (consumers_resolve g e a Ha) as [act Hact]. congruence.
  - destruct (descend_result_facts g selector max_depth)
      as (r & Hr & Hk & _ & He & _).
    exists r. split; [exact Hr|]. split; [exact Hk | exact He].
Qed.

(** One action with two outputs: the second output still gets its
    ["generated"] edge, while the action is expanded (and its ["used"]
    edge recorded) only once. *)
Example fanout_edges :
  exists r,
    get_file_ancestry (init fanout_graph) ".csv" None = Some r
    /\ r_edges r
       = [ {| edge_type := "generated"; edge_action := "#split";
              edge_entity := "a.csv" |};
           {| edge_type := "used"; edge_action := "#split";
              edge_entity := "in.csv" |};
           {| edge_type := "generated"; edge_action := "#split";
              edge_entity := "b.csv" |} ]
    /\ Dict.keys (r_actions r) = ["#split"].
Proof.
  eexists. split; [vm_compute; reflexivity|]. repeat split; reflexivity.
Qed.

(** The third iteration of that walk: ["#split"] was expanded when
    ["a.csv"] was dequeued, and dequeuing ["b.csv"] appends its edge. *)
Lemma edge_for_every_pair_witness :
  let st :=
    iterate (ancestry_step (init fanout_graph) None) 2
      (initial_state ["in.csv"; "a.csv"; "b.csv"]) in
  In "#split" (visited_actions st)
  /\ exists es,
       edges (ancestry_step (init fanout_graph) None st) = edges st ++ es
       /\ filter (fun ed => edge_type ed =? "generated") es
          = [ {| edge_type := "generated"; edge_action := "#split";
                 edge_entity := "b.csv" |} ].
Proof.
  intros st. split; [now left|].
  destruct (edge_for_every_pair fanout_graph ".csv" None) as [[Hstep _] _].
  exact (proj2 (Hstep st "b.csv" 0%Z [("in.csv", 1%Z)]
                  (file_entity "b.csv" "b.csv" (Some "02"))
                  (FileNode (summarise_file
                               (file_entity "b.csv" "b.csv" (Some "02"))))
                  eq_refl
                  ltac:(vm_compute; intuition discriminate)
                  eq_refl eq_refl)).
Defined.

(** C6. [descendant_files] lists, in the order of the [entities] map,
    exactly the visited files that are not roots and have a ["sha1"]: the
    summaries of the [File] entities that are reachable downstream from a
    root within the depth limit, are no root and carry a content hash.
    [entities] holds every file or dataset so reachable, with or without
    content hash, under its id, and each of its entries is the summary of
    the entity its key resolves to. *)
Theorem descendant_files_exact (g : list entity) (selector : string)
  (max_depth : option Z) :
  let roots := map e_id (get_file_entities (init g) selector) in
  exists r dfs,
    get_file_descendants (init g) selector max_depth = Some r
    /\ r_descendant_files r = Some dfs
    /\ dfs = map snd
               (filter
                  (fun kv =>
                     negb (mem (fst kv) roots)
                     && match node_sha1 (snd kv) with
                        | Some _ => true
                        | None => false
                        end)
                  (r_entities r))
    /\ (forall s,
          In s dfs <->
          exists k ent,
            Dict.get k (by_id (init g)) = Some ent
            /\ has_type ent "File" = true
            /\ s = FileNode (summarise_file ent)
            /\ ~ In k roots
            /\ e_sha1 ent <> None
            /\ exists n, downstream_reach (init g) roots n k
                         /\ depth_allowed max_depth n)
    /\ (forall k ent s n,
          Dict.get k (by_id (init g)) = Some ent ->
          classify_node ent = Some s ->
          downstream_reach (init g) roots n k ->
          depth_allowed max_depth n ->
          Dict.get k (r_entities r) = Some s)
    /\ (forall k s,
          In (k, s) (r_entities r) ->
          exists ent,
            Dict.get k (by_id (init g)) = Some ent
            /\ classify_node ent = Some s).
Proof.
  intros roots.
  destruct (descend_result_facts g selector max_depth)
    as (r & Hr & Hk & N1 & _ & Hd).
  fold roots in Hk, Hd.
  assert (Hget : forall k ent s n,
            Dict.get k (by_id (init g)) = Some ent ->
            classify_node ent = Some s ->
            downstream_reach (init g) roots n k ->
            depth_allowed max_depth n ->
            Dict.get k (r_entities r) = Some s).
  { intros k ent s n Hent Hc Hn Hal.
    assert (Hin : In k (Dict.keys (r_entities r))).
    { apply Hk. split; [now exists ent, s | now exists n]. }
    apply dict_get_keys in Hin.
    destruct (Dict.get k (r_entities r)) as [s'|] eqn:Es; [|contradiction].
    destruct (N1 k s' (dict_get_In _ _ Es)) as (ent' & Hent' & Hc').
    congruence. }
  exists r, (collect_descendant_files roots (r_entities r)).
  split; [exact Hr|]. split; [exact Hd|]. split; [reflexivity|].
  split; [|split; [exact Hget | exact N1]].
  intros s. rewrite collect_descendant_files_In. split.
  - intros (k & Hin & Hroot & Hsha).
    destruct (N1 k s Hin) as (ent & Hent & Hc).
    destruct (classify_node_file _ Hc Hsha) as (Hf & Hs & He).
    exists k, ent. split; [exact Hent|]. split; [exact Hf|].
    split; [exact Hs|]. split; [exact Hroot|]. split; [exact He|].
    assert (Hkey : In k (Dict.keys (r_entities r))).
    { unfold Dict.keys. apply in_map_iff. now exists (k, s). }
    apply Hk in Hkey. exact (proj2 Hkey).
  - intros (k & ent & Hent & Hf & -> & Hroot & He & n & Hn & Hal).
    exists k. split; [|split; [exact Hroot | exact He]].
    apply dict_get_In.
    apply (Hget k ent _ n Hent); [|exact Hn | exact Hal].
    unfold classify_node. now rewrite Hf.
Qed.

(** The chain of the test suite's fixture: its files carry no content
    hash, so they are recorded as entities but are no descendant files. *)
Example descendants_without_hash :
  exists r,
    get_file_descendants (init multi_file_graph) "raw_data.csv" None = Some r
    /\ Dict.keys (r_entities r)
       = ["raw_data.csv"; "processed_data.csv"; "final_output.csv"]
    /\ r_descendant_files r = Some [].
Proof.
  eexists. split; [vm_compute; reflexivity|]. repeat split; reflexivity.
Qed.

(** With content hashes: the root is left out, the file two steps
    downstream is listed, and both are recorded. *)
Example descendants_with_hash :
  let g := [ file_entity "src" "src" (Some "aa");
             file_entity "mid" "mid" None;
             file_entity "out" "out" (Some "cc");
             action_entity "#one" "one" None [RefId "src"] [RefId "mid"];
             action_entity "#two" "two" None [RefId "mid"] [RefId "out"] ] in
  exists r,
    get_file_descendants (init g) "src" None = Some r
    /\ Dict.keys (r_entities r) = ["src"; "mid"; "out"]
    /\ r_descendant_files r
       = Some [FileNode (summarise_file (file_entity "out" "out" (Some "cc")))].
Proof.
  eexists. split; [vm_compute; reflexivity|]. repeat split; reflexivity.
Qed.

(** ** What the edges and the action records are *)

Section EdgeFacts.
Variable d : Dict.t entity.
Variable index : Dict.t (list string).
Variable entity_edge action_edge : string.
Variable expand : entity -> action_node * list string.
Variable max_depth : option Z.

Local Abbreviation visit :=
  (walk_visit d entity_edge action_edge expand max_depth).
Local Abbreviation step :=
  (walk_step d index entity_edge action_edge expand max_depth).

Lemma action_nodes_expanded_visit ent_id depth st a :
  action_nodes_expanded d expand st ->
  action_nodes_expanded d expand (visit ent_id depth st a).
Proof.
  unfold action_nodes_expanded, walk_visit. intros H.
  destruct (Dict.get a d) as [act|] eqn:Ea; [|exact H].
  cbn [append_edge visited_actions].
  destruct (mem a (visited_actions st)); [exact H|].
  cbn [action_nodes]. intros k node Hin. apply dict_In_set in Hin.
  destruct Hin as [[-> ->] | Hin]; [now exists act | now apply H].
Qed.

Lemma action_nodes_expanded_step st :
  action_nodes_expanded d expand st ->
  action_nodes_expanded d expand (step st).
Proof.
  intros H.
  destruct (step_cases d index entity_edge action_edge expand max_depth st)
    as [[_ ->] | (e & depth & q' & Eq & Hc)]; [exact H|].
  destruct Hc as [[Hve ->] | [(Hve & Hnone & ->) | (Hve & ent & s & Ee & Ec & ->)]];
    [exact H | exact H |].
  generalize (Dict.get_default e [] index).
  assert (H1 : action_nodes_expanded d expand
                 (set_entity_node (add_visited_entity (set_q st q') e) e s))
    by exact H.
  revert H1.
  generalize (set_entity_node (add_visited_entity (set_q st q') e) e s).
  intros st1 H1 l. revert st1 H1.
  induction l as [|a l IH]; intros st1 H1; simpl; [exact H1|].
  apply IH. now apply action_nodes_expanded_visit.
Qed.

Lemma edges_explained_step st :
  actions_consistent d index entity_edge st ->
  edges_explained d index entity_edge action_edge expand st ->
  edges_explained d index entity_edge action_edge expand (step st).
Proof.
  unfold edges_explained. intros (A1 & _ & _) H.
  destruct (step_cases d index entity_edge action_edge expand max_depth st)
    as [[_ ->] | (e & depth & q' & Eq & Hc)]; [exact H|].
  destruct Hc as [[Hve ->] | [(Hve & Hnone & ->) | (Hve & ent & s & Ee & Ec & ->)]];
    [exact H | exact H |].
  set (st1 := set_entity_node (add_visited_entity (set_q st q') e) e s).
  set (l := Dict.get_default e [] index).
  destruct (fold_visit_effect d entity_edge action_edge expand max_depth
              e depth l st1)
    as (_ & Hen & (es & Hes & Hnew) & _ & Han & _).
  cbv zeta in *.
  assert (Hen1 : forall k, In k (Dict.keys (entity_nodes st1)) <->
                           k = e \/ In k (Dict.keys (entity_nodes st))).
  { intros k. unfold st1. cbn [set_entity_node entity_nodes].
    apply dict_keys_set. }
  intros ed Hed. rewrite Hes in Hed. apply in_app_or in Hed.
  destruct Hed as [Hed | Hed].
  - destruct (H ed Hed) as [Hact Hkind]. split.
    + apply Han. now left.
    + destruct Hkind as [(Ht & He & Hi) | Hk]; [left | now right].
      split; [exact Ht|]. split; [|exact Hi].
      rewrite Hen. apply Hen1. now right.
  - destruct (Hnew ed Hed) as (a & act & Hl & Hget & Ha & Hkind). split.
    + apply Han. rewrite Ha.
      destruct (in_dec string_dec a (visited_actions st)) as [Hin | Hnin].
      * left. now apply A1.
      * right. split; [exact Hl|]. split; [congruence | exact Hnin].
    + destruct Hkind as [[Ht He] | [Ht Hi]].
      * left. split; [exact Ht|]. rewrite He, Ha. split; [|exact Hl].
        rewrite Hen. apply Hen1. now left.
      * right. split; [exact Ht|]. exists act. rewrite Ha. now split.
Qed.

Lemma edge_invariants_initial roots :
  action_nodes_expanded d expand (initial_state roots)
  /\ edges_explained d index entity_edge action_edge expand
       (initial_state roots).
Proof. split; [intros a node [] | intros ed []]. Qed.
End EdgeFacts.

(** The ids a walk follows resolve to files and datasets. *)
Lemma data_ids_recordable g objs i :
  In i (map e_id (filter is_data (resolve_refs (by_id (init g)) objs))) ->
  recordable (by_id (init g)) i.
Proof.
  rewrite in_map_iff. intros (ent & <- & Hin).
  apply filter_In in Hin. destruct Hin as [Hin Hd].
  exists ent. unfold classify_node, is_data in *.
  destruct (has_type ent "File").
  - eexists. split; [now apply (resolved_id_resolves g objs) | reflexivity].
  - destruct (has_type ent "Dataset"); [|discriminate].
    eexists. split; [now apply (resolved_id_resolves g objs) | reflexivity].
Qed.


Lemma ancestry_walk_facts g selector max_depth :
  exists r,
    get_file_ancestry (init g) selector max_depth = Some r
    /\ ((get_file_entities (init g) selector = [] /\ r = empty_ancestry)
        \/ exists st,
             walk_facts g (actions_by_result (init g)) "generated" "used"
               (ancestry_expand (init g)) (data_inputs (init g)) max_depth
               (map e_id (get_file_entities (init g) selector)) st
             /\ q st = []
             /\ r_entities r = entity_nodes st
             /\ r_actions r = action_nodes st
             /\ r_edges r = edges st).
Proof.
  destruct (@get_file_ancestry_final (init g) selector max_depth
              (walk_facts g (actions_by_result (init g)) "generated" "used"
                 (ancestry_expand (init g)) (data_inputs (init g)) max_depth
                 (map e_id (get_file_entities (init g) selector))))
    as [r [Hr Hcase]].
  - intros st (N & A & T & X & E & D). rewrite ancestry_step_walk.
    split; [now apply nodes_consistent_step|].
    split; [now apply actions_consistent_step|].
    split; [now apply roots_tracked_step|].
    split; [now apply action_nodes_expanded_step|].
    split; [now apply edges_explained_step|].
    intros Hmd. apply expansion_tracked_step;
      [apply ancestry_expand_next | exact Hmd | auto].
  - destruct (ancestry_invariant_initial g
                (map e_id (get_file_entities (init g) selector)))
      as (N & A & T & _).
    split; [exact N|]. split; [exact A|]. split; [exact T|].
    split; [apply edge_invariants_initial with (index := Dict.empty)
                  (entity_edge := "") (action_edge := "")|].
    split; [apply edge_invariants_initial|].
    intros _. apply expansion_tracked_initial.
  - exists r. split; [exact Hr|].
    destruct Hcase as [[E ->] | [_ (st & HP & Hq & ->)]]; [now left|].
    right. exists st. split; [exact HP|]. split; [exact Hq|].
    cbn. auto.
Qed.

Lemma descend_walk_facts g selector max_depth :
  exists r,
    get_file_descendants (init g) selector max_depth = Some r
    /\ ((get_file_entities (init g) selector = [] /\ r = empty_descendants)
        \/ exists st,
             walk_facts g (actions_by_input (init g)) "used" "generated"
               (descend_expand (init g)) (data_outputs (init g)) max_depth
               (map e_id (get_file_entities (init g) selector)) st
             /\ q st = []
             /\ r_entities r = entity_nodes st
             /\ r_actions r = action_nodes st
             /\ r_edges r = edges st).
Proof.
  destruct (@get_file_descendants_final (init g) selector max_depth
              (walk_facts g (actions_by_input (init g)) "used" "generated"
                 (descend_expand (init g)) (data_outputs (init g)) max_depth
                 (map e_id (get_file_entities (init g) selector))))
    as [r [Hr Hcase]].
  - intros st (N & A & T & X & E & D). rewrite descend_step_walk.
    split; [now apply nodes_consistent_step|].
    split; [now apply actions_consistent_step|].
    split; [now apply roots_tracked_step|].
    split; [now apply action_nodes_expanded_step|].
    split; [now apply edges_explained_step|].
    intros Hmd. apply expansion_tracked_step;
      [apply descend_expand_next | exact Hmd | auto].
  - destruct (descend_invariant_initial g
                (map e_id (get_file_entities (init g) selector)))
      as (N & A & T & _).
    split; [exact N|]. split; [exact A|]. split; [exact T|].
    split; [apply edge_invariants_initial with (index := Dict.empty)
                  (entity_edge := "") (action_edge := "")|].
    split; [apply edge_invariants_initial|].
    intros _. apply expansion_tracked_initial.
  - exists r. split; [exact Hr|].
    destruct Hcase as [[E ->] | [_ (st & HP & Hq & ->)]]; [now left|].
    right. exists st. split; [exact HP|]. split; [exact Hq|].
    cbn. auto.
Qed.

(** Where an unbounded walk leads, it has been. *)
Lemma followed_ids_recorded g index entity_edge action_edge expand next
  roots st a act i :
  walk_facts g index entity_edge action_edge expand next None roots st ->
  q st = [] ->
  In a (Dict.keys (action_nodes st)) ->
  Dict.get a (by_id (init g)) = Some act ->
  In i (next act) ->
  recordable (by_id (init g)) i ->
  In i (Dict.keys (entity_nodes st)).
Proof.
  intros ((_ & _ & N3) & _ & _ & _ & _ & D) Hq Ha Hact Hi (ent & s & He & Hc).
  destruct (D eq_refl) as [HE HD].
  apply (N3 i ent s); [|exact He | exact Hc].
  destruct (HD a act i (HE a Ha) Hact Hi) as [H | H]; [exact H|].
  rewrite Hq in H. destruct H.
Qed.

(** X4. Every edge of an ancestry result starts at an action recorded in
    [actions] and is of one of two kinds: a ["generated"] edge to an
    entity recorded in [entities] under which the action is filed in
    [actions_by_result], or a ["used"] edge to a file or dataset input of
    the action; without depth limit the end point of a ["used"] edge is
    recorded in [entities] too.  The same holds for a descendants result
    with ["used"] edges along [actions_by_input] and ["generated"] edges
    to the file and dataset outputs. *)
Theorem edges_explain_result (g : list entity) (selector : string)
  (max_depth : option Z) :
  (exists r,
      get_file_ancestry (init g) selector max_depth = Some r
      /\ forall ed, In ed (r_edges r) ->
           In (edge_action ed) (Dict.keys (r_actions r))
           /\ ((edge_type ed = "generated"
                /\ In (edge_entity ed) (Dict.keys (r_entities r))
                /\ In (edge_action ed)
                     (producers (init g) (edge_entity ed)))
               \/ (edge_type ed = "used"
                   /\ (exists act,
                         Dict.get (edge_action ed) (by_id (init g)) = Some act
                         /\ In (edge_entity ed) (data_inputs (init g) act))
                   /\ (max_depth = None ->
                       In (edge_entity ed) (Dict.keys (r_entities r))))))
  /\ (exists r,
        get_file_descendants (init g) selector max_depth = Some r
        /\ forall ed, In ed (r_edges r) ->
             In (edge_action ed) (Dict.keys (r_actions r))
             /\ ((edge_type ed = "used"
                  /\ In (edge_entity ed) (Dict.keys (r_entities r))
                  /\ In (edge_action ed)
                       (consumers (init g) (edge_entity ed)))
                 \/ (edge_type ed = "generated"
                     /\ (exists act,
                           Dict.get (edge_action ed) (by_id (init g))
                           = Some act
                           /\ In (edge_entity ed) (data_outputs (init g) act))
                     /\ (max_depth = None ->
                         In (edge_entity ed) (Dict.keys (r_entities r)))))).
Proof.
  split.
  - destruct (ancestry_walk_facts g selector max_depth) as (r & Hr & Hcase).
    exists r. split; [exact Hr|].
    destruct Hcase as [[_ ->] | (st & HF & Hq & -> & -> & ->)];
      [intros ed []|].
    intros ed Hed.
    pose proof HF as (_ & _ & _ & _ & E & _).
    destruct (E ed Hed) as [Ha Hkind]. split; [exact Ha|].
    destruct Hkind as [(Ht & He & Hi) | (Ht & act & Hact & Hi)];
      [left; now repeat split | right].
    apply ancestry_expand_next in Hi.
    split; [exact Ht|]. split; [now exists act|].
    intros ->. eapply followed_ids_recorded; eauto.
    now apply (data_ids_recordable g (get_list (e_object act))).
  - destruct (descend_walk_facts g selector max_depth) as (r & Hr & Hcase).
    exists r. split; [exact Hr|].
    destruct Hcase as [[_ ->] | (st & HF & Hq & -> & -> & ->)];
      [intros ed []|].
    intros ed Hed.
    pose proof HF as (_ & _ & _ & _ & E & _).
    destruct (E ed Hed) as [Ha Hkind]. split; [exact Ha|].
    destruct Hkind as [(Ht & He & Hi) | (Ht & act & Hact & Hi)];
      [left; now repeat split | right].
    split; [exact Ht|]. split; [now exists act|].
    intros ->. eapply followed_ids_recorded; eauto.
    now apply (data_ids_recordable g (get_list (e_result act))).
Qed.

(** With a depth limit a ["used"] edge of an ancestry result may end
    outside [entities]. *)
Example used_edge_beyond_depth :
  exists r,
    get_file_ancestry (init multi_file_graph) "final_output.csv" (Some 0%Z)
    = Some r
    /\ In {| edge_type := "used"; edge_action := "#action2";
             edge_entity := "processed_data.csv" |} (r_edges r)
    /\ Dict.keys (r_entities r) = ["final_output.csv"].
Proof.
  eexists. split; [vm_compute; reflexivity|].
  split; [right; now left | reflexivity].
Qed.

(** X5. [actions] of an ancestry result holds exactly the actions filed
    in [actions_by_result] under an entity recorded in [entities]; the
    record stored under an action id is built from the entity that id
    resolves to: its summary (whose id is the key), the summary of its
    tool, and its resolved inputs in their four buckets.  For a
    descendants result the same holds with [actions_by_input], and the
    record also carries the resolved outputs in their three buckets. *)
Theorem action_records (g : list entity) (selector : string)
  (max_depth : option Z) :
  (exists r,
      get_file_ancestry (init g) selector max_depth = Some r
      /\ (forall a,
            In a (Dict.keys (r_actions r)) <->
            exists e, In e (Dict.keys (r_entities r))
                      /\ In a (producers (init g) e))
      /\ (forall a node,
            In (a, node) (r_actions r) ->
            exists act,
              Dict.get a (by_id (init g)) = Some act
              /\ as_id (an_action node) = a
              /\ node
                 = {| an_action := summarise_action act;
                      an_tool := summarise_tool (resolve_tool (init g) act);
                      an_inputs :=
                        bucket_inputs
                          (resolve_refs (by_id (init g))
                             (get_list (e_object act)));
                      an_outputs := None |}))
  /\ (exists r,
        get_file_descendants (init g) selector max_depth = Some r
        /\ (forall a,
              In a (Dict.keys (r_actions r)) <->
              exists e, In e (Dict.keys (r_entities r))
                        /\ In a (consumers (init g) e))
        /\ (forall a node,
              In (a, node) (r_actions r) ->
              exists act,
                Dict.get a (by_id (init g)) = Some act
                /\ as_id (an_action node) = a
                /\ node
                   = {| an_action := summarise_action act;
                        an_tool := summarise_tool (resolve_tool (init g) act);
                        an_inputs :=
                          bucket_inputs
                            (resolve_refs (by_id (init g))
                               (get_list (e_object act)));
                        an_outputs :=
                          Some (bucket_outputs
                                  (resolve_refs (by_id (init g))
                                     (get_list (e_result act)))) |})).
Proof.
  split.
  - destruct (ancestry_walk_facts g selector max_depth) as (r & Hr & Hcase).
    exists r. split; [exact Hr|].
    destruct Hcase as [[_ ->] | (st & HF & Hq & -> & -> & _)].
    + cbn. split; [|intros a node []].
      intros a. split; [intros [] | intros (e & [] & _)].
    + destruct HF as (_ & (_ & A2 & A3) & _ & X & _). split.
      * intros a. split.
        -- intros Ha. now destruct (A2 a Ha) as [_ He].
        -- intros (e & He & Ha).
           destruct (producers_resolve _ _ _ Ha) as [act Hact].
           apply (A3 e a He Ha). congruence.
      * intros a node Hin. destruct (X a node Hin) as (act & Hact & ->).
        exists act. split; [exact Hact|]. unfold ancestry_expand. cbn.
        rewrite partition_inputs_buckets.
        split; [now destruct (by_id_get _ _ Hact) | reflexivity].
  - destruct (descend_walk_facts g selector max_depth) as (r & Hr & Hcase).
    exists r. split; [exact Hr|].
    destruct Hcase as [[_ ->] | (st & HF & Hq & -> & -> & _)].
    + cbn. split; [|intros a node []].
      intros a. split; [intros [] | intros (e & [] & _)].
    + destruct HF as (_ & (_ & A2 & A3) & _ & X & _). split.
      * intros a. split.
        -- intros Ha. now destruct (A2 a Ha) as [_ He].
        -- intros (e & He & Ha).
           destruct (consumers_resolve _ _ _ Ha) as [act Hact].
           apply (A3 e a He Ha). congruence.
      * intros a node Hin. destruct (X a node Hin) as (act & Hact & ->).
        exists act. split; [exact Hact|]. unfold descend_expand. cbn.
        rewrite partition_inputs_buckets.
        split; [now destruct (by_id_get _ _ Hact) | reflexivity].
Qed.

(** ** Upstream and downstream hops are converse *)

Lemma indexed_count_pos x objs :
  0 < indexed_count x objs -> x <> "" /\ refs_contain x objs = true.
Proof.
  unfold indexed_count, refs_contain.
  induction objs as [|obj objs IH]; simpl; [lia|].
  destruct (truthy (ref_id obj) && opt_eqb (ref_id obj) x) eqn:E; simpl.
  - intros _. apply andb_true_iff in E. destruct E as [Ht Ho].
    apply opt_eqb_true in Ho. rewrite Ho in Ht. simpl in Ht.
    unfold str_truthy in Ht. apply negb_true_iff, String.eqb_neq in Ht.
    split; [exact Ht|]. rewrite Ho. simpl. now rewrite String.eqb_refl.
  - intros H. destruct (IH H) as [Hx Hc]. split; [exact Hx|].
    rewrite Hc. apply orb_true_r.
Qed.

Lemma refs_contain_resolved d x objs ent :
  refs_contain x objs = true -> Dict.get x d = Some ent ->
  In ent (resolve_refs d objs).
Proof.
  unfold refs_contain, resolve_refs. rewrite existsb_exists, in_flat_map.
  intros (obj & Hobj & Ho) Hget. apply opt_eqb_true in Ho.
  exists obj. split; [exact Hobj|]. rewrite Ho. simpl. rewrite Hget.
  now left.
Qed.

Lemma resolved_refs_contain g objs ent :
  In ent (resolve_refs (by_id (init g)) objs) ->
  refs_contain (e_id ent) objs = true.
Proof.
  intros H. apply resolve_refs_in in H.
  destruct H as (obj & k & Hobj & Hk & Hget).
  destruct (by_id_get _ _ Hget) as [-> _].
  unfold refs_contain. apply existsb_exists. exists obj.
  split; [exact Hobj|]. rewrite Hk. simpl. apply String.eqb_refl.
Qed.

Lemma recordable_is_data ent s :
  classify_node ent = Some s -> is_data ent = true.
Proof.
  unfold classify_node, is_data.
  destruct (has_type ent "File"); [reflexivity|].
  destruct (has_type ent "Dataset"); [reflexivity | discriminate].
Qed.

(** With unique ids, the action filed under an id is the one the entity
    index resolves that id to. *)
Lemma producer_is_action g x a act :
  NoDup (map e_id g) ->
  In a (producers (init g) x) -> Dict.get a (by_id (init g)) = Some act ->
  In act (actions (init g)) /\ e_id act = a /\ x <> ""
  /\ refs_contain x (get_list (e_result act)) = true.
Proof.
  intros Hnd Ha Hact. apply producers_are_actions in Ha.
  destruct Ha as (A & HA & <- & Hn).
  rewrite (by_id_get_unique g A Hnd (actions_in_graph g A HA)) in Hact.
  injection Hact as <-. apply indexed_count_pos in Hn. tauto.
Qed.

Lemma consumer_is_action g x a act :
  NoDup (map e_id g) ->
  In a (consumers (init g) x) -> Dict.get a (by_id (init g)) = Some act ->
  In act (actions (init g)) /\ e_id act = a /\ x <> ""
  /\ refs_contain x (get_list (e_object act)) = true.
Proof.
  intros Hnd Ha Hact. apply consumers_are_actions in Ha.
  destruct Ha as (A & HA & <- & Hn).
  rewrite (by_id_get_unique g A Hnd (actions_in_graph g A HA)) in Hact.
  injection Hact as <-. apply indexed_count_pos in Hn. tauto.
Qed.

Lemma producers_intro g x act :
  x <> "" -> In act (actions (init g)) ->
  refs_contain x (get_list (e_result act)) = true ->
  In (e_id act) (producers (init g) x).
Proof.
  intros Hx Ha Hc. rewrite producers_init. apply in_flat_map. exists act.
  split; [exact Ha|]. apply in_repeat_iff. split; [reflexivity|].
  rewrite indexed_count_nonempty by exact Hx. now apply ref_count_pos.
Qed.

Lemma consumers_intro g x act :
  x <> "" -> In act (actions (init g)) ->
  refs_contain x (get_list (e_object act)) = true ->
  In (e_id act) (consumers (init g) x).
Proof.
  intros Hx Ha Hc. rewrite consumers_init. apply in_flat_map. exists act.
  split; [exact Ha|]. apply in_repeat_iff. split; [reflexivity|].
  rewrite indexed_count_nonempty by exact Hx. now apply ref_count_pos.
Qed.

Lemma recordable_nonempty g k :
  ~ In "" (map e_id g) -> recordable (by_id (init g)) k -> k <> "".
Proof.
  intros Hne (ent & s & Hget & _) ->.
  destruct (by_id_get _ _ Hget) as [Hid Hin]. apply Hne.
  rewrite <- Hid. now apply in_map.
Qed.

(** The entity the id of a followed reference resolves to. *)
Lemma data_id_resolved g objs i :
  In i (map e_id (filter is_data (resolve_refs (by_id (init g)) objs))) ->
  refs_contain i objs = true.
Proof.
  rewrite in_map_iff. intros (ent & <- & Hin).
  apply filter_In in Hin. destruct Hin as [Hin _].
  now apply (resolved_refs_contain g objs).
Qed.

Lemma data_id_intro g objs x :
  refs_contain x objs = true -> recordable (by_id (init g)) x ->
  In x (map e_id (filter is_data (resolve_refs (by_id (init g)) objs))).
Proof.
  intros Hc (ent & s & Hget & Hs). apply in_map_iff. exists ent.
  split; [now destruct (by_id_get _ _ Hget)|].
  apply filter_In. split.
  - eapply refs_contain_resolved; eauto.
  - eapply recordable_is_data; exact Hs.
Qed.

Lemma upstream_edge_converse g e e' :
  NoDup (map e_id g) -> ~ In "" (map e_id g) ->
  walk_edge (by_id (init g)) (actions_by_result (init g))
    (data_inputs (init g)) e e' ->
  walk_edge (by_id (init g)) (actions_by_input (init g))
    (data_outputs (init g)) e' e.
Proof.
  intros Hnd Hne [Hrec (a & act & Ha & Hact & Hi)].
  fold (producers (init g) e) in Ha.
  destruct (@producer_is_action g e a act Hnd Ha Hact)
    as (HA & <- & Hx & Hc).
  assert (Hrec' : recordable (by_id (init g)) e')
    by now apply (data_ids_recordable g (get_list (e_object act))).
  split; [exact Hrec'|]. exists (e_id act), act.
  split; [|split; [exact Hact|]].
  - apply consumers_intro; [eapply recordable_nonempty; eauto | exact HA|].
    eapply data_id_resolved; eauto.
  - now apply data_id_intro.
Qed.

Lemma downstream_edge_converse g e e' :
  NoDup (map e_id g) -> ~ In "" (map e_id g) ->
  walk_edge (by_id (init g)) (actions_by_input (init g))
    (data_outputs (init g)) e e' ->
  walk_edge (by_id (init g)) (actions_by_result (init g))
    (data_inputs (init g)) e' e.
Proof.
  intros Hnd Hne [Hrec (a & act & Ha & Hact & Hi)].
  fold (consumers (init g) e) in Ha.
  destruct (@consumer_is_action g e a act Hnd Ha Hact)
    as (HA & <- & Hx & Hc).
  assert (Hrec' : recordable (by_id (init g)) e')
    by now apply (data_ids_recordable g (get_list (e_result act))).
  split; [exact Hrec'|]. exists (e_id act), act.
  split; [|split; [exact Hact|]].
  - apply producers_intro; [eapply recordable_nonempty; eauto | exact HA|].
    eapply data_id_resolved; eauto.
  - now apply data_id_intro.
Qed.

Lemma walk_path_front d index next n x y z :
  walk_edge d index next x y -> walk_path d index next n y z ->
  walk_path d index next (S n) x z.
Proof.
  intros Hxy Hp. induction Hp as [y | n y u v Hp IH Huv].
  - apply path_hop with (y := x); [constructor | exact Hxy].
  - apply path_hop with (y := u); [now apply IH | exact Huv].
Qed.

Lemma walk_path_converse d index next index' next' n x y :
  (forall u v, walk_edge d index next u v -> walk_edge d index' next' v u) ->
  walk_path d index next n x y -> walk_path d index' next' n y x.
Proof.
  intros Hc Hp. induction Hp as [x | n x u v Hp IH Huv]; [constructor|].
  apply walk_path_front with (y := u); [now apply Hc | exact IH].
Qed.

(** X6. Ancestry and descendants are converse.  With unique and
    non-empty entity ids and no depth limit, some file resolved by
    [wanted] is recorded in the ancestry of [selector] if and only if some
    file resolved by [selector] is recorded in the descendants of
    [wanted]. *)
Theorem ancestry_descendants_converse (g : list entity)
  (selector wanted : string) :
  NoDup (map e_id g) -> ~ In "" (map e_id g) ->
  exists up down,
    get_file_ancestry (init g) selector None = Some up
    /\ get_file_descendants (init g) wanted None = Some down
    /\ ((exists k,
           In k (map e_id (get_file_entities (init g) wanted))
           /\ In k (Dict.keys (r_entities up)))
        <->
        (exists k,
           In k (map e_id (get_file_entities (init g) selector))
           /\ In k (Dict.keys (r_entities down)))).
Proof.
  intros Hnd Hne.
  destruct (ancestry_reach_final g selector None) as (up & Hup & Us & Uc).
  destruct (descend_reach_final g wanted None) as (down & Hdown & Ds & Dc).
  exists up, down. split; [exact Hup|]. split; [exact Hdown|]. split.
  - intros (k & Hk & Hin).
    destruct (Us k Hin) as [_ (n & (r & Hr & Hpath) & _)].
    exists r. split; [exact Hr|].
    apply (Dc r n); [|exact I|].
    + exists k. split; [exact Hk|].
      eapply walk_path_converse; [|exact Hpath].
      intros u v. now apply upstream_edge_converse.
    + destruct (@roots_resolve g selector r Hnd Hr) as (ent & s & H).
      now exists ent, s.
  - intros (k & Hk & Hin).
    destruct (Ds k Hin) as [_ (n & (r & Hr & Hpath) & _)].
    exists r. split; [exact Hr|].
    apply (Uc r n); [|exact I|].
    + exists k. split; [exact Hk|].
      eapply walk_path_converse; [|exact Hpath].
      intros u v. now apply downstream_edge_converse.
    + destruct (@roots_resolve g wanted r Hnd Hr) as (ent & s & H).
      now exists ent, s.
Qed.

Lemma multi_file_graph_ids : ~ In "" (map e_id multi_file_graph).
Proof. simpl. intuition discriminate. Qed.

Lemma ancestry_descendants_converse_witness :
  NoDup (map e_id multi_file_graph)
  /\ ~ In "" (map e_id multi_file_graph)
  /\ exists up down,
       get_file_ancestry (init multi_file_graph) "final_output.csv" None
       = Some up
       /\ get_file_descendants (init multi_file_graph) "raw_data.csv" None
          = Some down
       /\ In "raw_data.csv" (Dict.keys (r_entities up))
       /\ In "final_output.csv" (Dict.keys (r_entities down)).
Proof.
  split; [exact multi_file_graph_unique|].
  split; [exact multi_file_graph_ids|].
  destruct (@ancestry_descendants_converse multi_file_graph
              "final_output.csv" "raw_data.csv"
              multi_file_graph_unique multi_file_graph_ids)
    as (up & down & Hup & Hdown & Hiff).
  exists up, down. split; [exact Hup|]. split; [exact Hdown|].
  assert (Hin : In "raw_data.csv" (Dict.keys (r_entities up))).
  { vm_compute in Hup. injection Hup as <-. vm_compute. tauto. }
  split; [exact Hin|].
  destruct (proj1 Hiff) as (k & Hk & Hd).
  - exists "raw_data.csv". split; [now left | exact Hin].
  - destruct Hk as [<- | []]. exact Hd.
Defined.

(** ** Depth limits that are not positive *)

Section DepthFacts.
Variable d : Dict.t entity.
Variable index : Dict.t (list string).
Variable entity_edge action_edge : string.
Variable expand : entity -> action_node * list string.

Lemma depths_nonneg_step max_depth st :
  depths_nonneg st ->
  depths_nonneg
    (walk_step d index entity_edge action_edge expand max_depth st).
Proof.
  unfold depths_nonneg. intros H.
  destruct (step_cases d index entity_edge action_edge expand max_depth st)
    as [[_ ->] | (e & depth & q' & Eq & Hc)]; [exact H|].
  assert (Hd : (0 <= depth)%Z).
  { apply (H (e, depth)). rewrite Eq. now left. }
  assert (Hq' : forall it, In it q' -> (0 <= snd it)%Z).
  { intros it Hit. apply H. rewrite Eq. now right. }
  destruct Hc as [[Hve ->] | [(Hve & Hnone & ->) | (Hve & ent & s & Ee & Ec & ->)]];
    [exact Hq' | exact Hq' |].
  destruct (fold_visit_effect d entity_edge action_edge expand max_depth
      e depth (Dict.get_default e [] index)
      (set_entity_node (add_visited_entity (set_q st q') e) e s))
    as (_ & _ & _ & (items & -> & Hitems) & _).
  cbn [set_entity_node add_visited_entity set_q q].
  intros it Hit. apply in_app_or in Hit. destruct Hit as [Hit | Hit];
    [now apply Hq'|].
  destruct (Hitems it Hit) as (_ & -> & _). lia.
Qed.

Lemma walk_visit_nonpositive m ent_id depth st a :
  (m <= 0)%Z -> (0 <= depth)%Z ->
  walk_visit d entity_edge action_edge expand (Some m) ent_id depth st a
  = walk_visit d entity_edge action_edge expand (Some 0%Z) ent_id depth st a.
Proof.
  intros Hm Hd. unfold walk_visit, within_depth.
  assert (E1 : (depth + 1 <=? m)%Z = false) by (apply Z.leb_gt; lia).
  assert (E2 : (depth + 1 <=? 0)%Z = false) by (apply Z.leb_gt; lia).
  now rewrite E1, E2.
Qed.

Lemma walk_step_nonpositive m st :
  (m <= 0)%Z -> depths_nonneg st ->
  walk_step d index entity_edge action_edge expand (Some m) st
  = walk_step d index entity_edge action_edge expand (Some 0%Z) st.
Proof.
  intros Hm H. unfold walk_step.
  destruct (q st) as [|[e depth] q'] eqn:Eq; [reflexivity|].
  assert (Hd : (0 <= depth)%Z).
  { apply (H (e, depth)). rewrite Eq. now left. }
  destruct (mem e _); [reflexivity|].
  destruct (Dict.get e d) as [ent|]; [|reflexivity].
  destruct (classify_node ent); [|reflexivity].
  apply fold_left_ext_in. intros st' a.
  now apply walk_visit_nonpositive.
Qed.

Lemma walk_loop_nonpositive m :
  (m <= 0)%Z ->
  forall fuel st,
    depths_nonneg st ->
    walk_loop (walk_step d index entity_edge action_edge expand (Some m))
      fuel st
    = walk_loop (walk_step d index entity_edge action_edge expand (Some 0%Z))
        fuel st.
Proof.
  intros Hm. induction fuel as [|fuel IH]; intros st H; simpl;
    [reflexivity|].
  destruct (q st) eqn:Eq; [reflexivity|].
  rewrite (walk_step_nonpositive Hm H). apply IH.
  now apply depths_nonneg_step.
Qed.
End DepthFacts.

Lemma depths_nonneg_initial roots : depths_nonneg (initial_state roots).
Proof.
  intros it Hit. unfold initial_state in Hit. cbn [q] in Hit.
  apply in_map_iff in Hit. destruct Hit as (r & <- & _). cbn. lia.
Qed.

(** X7. A depth limit that is zero or negative is the limit 0: for every
    crate and selector both walks return for [max_depth = m <= 0] what
    they return for [max_depth = 0]; the roots are still visited. *)
Theorem nonpositive_depth_is_zero (self : ProvenanceCrate)
  (selector : string) (m : Z) :
  (m <= 0)%Z ->
  get_file_ancestry self selector (Some m)
  = get_file_ancestry self selector (Some 0%Z)
  /\ get_file_descendants self selector (Some m)
     = get_file_descendants self selector (Some 0%Z).
Proof.
  intros Hm. split.
  - unfold get_file_ancestry, get_file_ancestry_fuel.
    destruct (get_file_entities self selector) as [|f files]; [reflexivity|].
    rewrite (walk_loop_ext _ _ (ancestry_step_walk self (Some m))).
    rewrite (walk_loop_ext _ _ (ancestry_step_walk self (Some 0%Z))).
    rewrite walk_loop_nonpositive
      by (try exact Hm; apply depths_nonneg_initial).
    reflexivity.
  - unfold get_file_descendants, get_file_descendants_fuel.
    destruct (get_file_entities self selector) as [|f files]; [reflexivity|].
    rewrite (walk_loop_ext _ _ (descend_step_walk self (Some m))).
    rewrite (walk_loop_ext _ _ (descend_step_walk self (Some 0%Z))).
    rewrite walk_loop_nonpositive
      by (try exact Hm; apply depths_nonneg_initial).
    reflexivity.
Qed.

Lemma nonpositive_depth_is_zero_witness :
  (-3 <= 0)%Z
  /\ get_file_ancestry (init multi_file_graph) "final_output.csv"
       (Some (-3)%Z)
     = get_file_ancestry (init multi_file_graph) "final_output.csv"
         (Some 0%Z).
Proof.
  assert (H : (-3 <= 0)%Z) by lia.
  split; [exact H|].
  exact (proj1 (@nonpositive_depth_is_zero (init multi_file_graph)
                  "final_output.csv" (-3)%Z H)).
Defined.

(** ** Site view: key lineages and step runs *)

Lemma Forall2_in_right (A B : Type) (h : A -> B -> Prop) l l' b :
  Forall2 h l l' -> In b l' -> exists a, In a l /\ h a b.
Proof.
  induction 1 as [|a b' l l' Hab _ IH]; simpl; [tauto|].
  intros [<- | Hin].
  - exists a. auto.
  - destruct (IH Hin) as (a' & Ha' & Hh). exists a'. auto.
Qed.

(** Every record of a direct lineage is the record of a resolved file
    without producer, or of a resolved file and one of its producers. *)
Lemma lineage_record_shape g selector rs s :
  get_file_lineage (init g) selector = Ok rs ->
  In s rs ->
  exists f,
    In f (get_file_entities (init g) selector)
    /\ ((producers (init g) (e_id f) = [] /\ s = orphan_record f)
        \/ exists aid act,
             In aid (producers (init g) (e_id f))
             /\ Dict.get aid (by_id (init g)) = Some act
             /\ s = produced_record (init g) f act).
Proof.
  intros E Hs.
  destruct (get_file_lineage_blocks g selector) as (blocks & E' & Hb).
  rewrite E in E'. injection E' as ->.
  apply in_concat in Hs. destruct Hs as (block & Hblock & Hs).
  destruct (@Forall2_in_right _ _ _ _ _ _ Hb Hblock) as (f & Hf & Horphan & Hprod).
  exists f. split; [exact Hf|].
  destruct (producers (init g) (e_id f)) as [|aid ps] eqn:Ep.
  - left. split; [reflexivity|]. rewrite (Horphan eq_refl) in Hs.
    destruct Hs as [<- | []]. reflexivity.
  - right. assert (Hne : aid :: ps <> []) by discriminate.
    destruct (@Forall2_in_right _ _ _ _ _ _ (Hprod Hne) Hs) as (a & Ha & act & Hact & ->).
    exists a, act. auto.
Qed.

(** The loop over the key base names: the entry of a base name is the
    first record of its lineage that mentions the site. *)
Lemma site_key_lineages_spec g site_id : forall bases acc,
  exists kl,
    site_key_lineages (init g) site_id bases acc = Ok kl
    /\ (forall b, In b (Dict.keys kl) -> In b (Dict.keys acc) \/ In b bases)
    /\ (forall b rs,
          get_file_lineage (init g) b = Ok rs ->
          (In b bases ->
           Dict.get b kl
           = match hd_error (filter (mentions_site site_id) rs) with
             | Some s => Some s
             | None => Dict.get b acc
             end)
          /\ (~ In b bases -> Dict.get b kl = Dict.get b acc)).
Proof.
  induction bases as [|base bases IH]; intros acc; simpl.
  - exists acc. split; [reflexivity|]. split; [auto|].
    intros b rs _. split; [intros [] | reflexivity].
  - destruct (get_file_lineage_ok g base) as [rs0 E0]. rewrite E0.
    cbn [bind].
    destruct (filter (mentions_site site_id) rs0) as [|s ss] eqn:Ef.
    + destruct (IH acc) as (kl & E & Hk & Hg). exists kl.
      split; [exact E|]. split.
      * intros b Hb. destruct (Hk b Hb) as [H | H]; auto.
      * intros b rs Hb. destruct (Hg b rs Hb) as [H1 H2]. split.
        -- intros [<- | Hin]; [|now apply H1].
           assert (rs = rs0) as -> by congruence.
           destruct (in_dec string_dec base bases) as [Hin | Hn].
           ++ now apply H1.
           ++ rewrite Ef. simpl. now apply H2.
        -- intros Hn. apply H2. tauto.
    + destruct (IH (Dict.set base s acc)) as (kl & E & Hk & Hg). exists kl.
      split; [exact E|]. split.
      * intros b Hb. destruct (Hk b Hb) as [H | H]; [|auto].
        apply dict_keys_set in H. destruct H as [-> | H]; auto.
      * intros b rs Hb. destruct (Hg b rs Hb) as [H1 H2]. split.
        -- intros Hin. destruct (string_dec base b) as [<- | Hne].
           ++ assert (rs = rs0) as -> by congruence. rewrite Ef. simpl.
              destruct (in_dec string_dec base bases) as [Hin' | Hn].
              ** rewrite (H1 Hin'), Ef. reflexivity.
              ** rewrite (H2 Hn). apply dict_get_set_same.
           ++ destruct Hin as [Heq | Hin]; [contradiction|].
              rewrite (H1 Hin). now rewrite dict_get_set_other.
        -- intros Hn. rewrite H2 by tauto.
           apply dict_get_set_other. tauto.
Qed.

(** X8. The key lineages of a site view.  [get_site_artifacts] files an
    entry only under one of its seven key base names; the entry of a base
    name is the first record of [get_file_lineage] for that name whose
    [site_ids] contain the site, and the base name has no entry when no
    record does.  Hence every entry names a producing action: its
    [produced_by] is present, it has no note, and its [site_ids] contain
    the site. *)
Theorem key_lineages_first (g : list entity) (site_id : string) :
  exists sv,
    get_site_artifacts (init g) site_id = Ok sv
    /\ (forall base, In base (Dict.keys (sv_key_lineages sv)) ->
          In base (key_base_names site_id))
    /\ (forall base, In base (key_base_names site_id) ->
          exists rs,
            get_file_lineage (init g) base = Ok rs
            /\ Dict.get base (sv_key_lineages sv)
               = hd_error (filter (mentions_site site_id) rs))
    /\ (forall base s, Dict.get base (sv_key_lineages sv) = Some s ->
          lr_produced_by s <> None /\ lr_note s = None
          /\ In (Some site_id) (lr_site_ids s)).
Proof.
  destruct (site_step_runs_spec g site_id) as (runs & Eruns & _).
  destruct (site_key_lineages_spec g site_id (key_base_names site_id)
              Dict.empty) as (kl & Ekl & Hkeys & Hget).
  unfold get_site_artifacts. rewrite Eruns. cbn [bind]. rewrite Ekl.
  cbn [bind]. eexists. split; [reflexivity|]. cbn [sv_key_lineages].
  assert (Hfirst : forall base, In base (key_base_names site_id) ->
            exists rs,
              get_file_lineage (init g) base = Ok rs
              /\ Dict.get base kl
                 = hd_error (filter (mentions_site site_id) rs)).
  { intros base Hbase. destruct (get_file_lineage_ok g base) as [rs Hrs].
    exists rs. split; [exact Hrs|].
    rewrite (proj1 (Hget base rs Hrs) Hbase).
    now destruct (hd_error (filter (mentions_site site_id) rs)). }
  split; [|split; [exact Hfirst|]].
  - intros base Hbase. destruct (Hkeys base Hbase) as [[] | H]. exact H.
  - intros base s Hs.
    assert (Hbase : In base (key_base_names site_id)).
    { apply dict_get_some_keys in Hs.
      destruct (Hkeys base Hs) as [[] | H]. exact H. }
    destruct (Hfirst base Hbase) as (rs & Hrs & Hhd). rewrite Hs in Hhd.
    assert (Hin : In s (filter (mentions_site site_id) rs)).
    { destruct (filter (mentions_site site_id) rs) as [|s' ss];
        [discriminate|]. injection Hhd as ->. now left. }
    apply filter_In in Hin. destruct Hin as [Hin Hm].
    assert (Hsite : In (Some site_id) (lr_site_ids s)).
    { unfold mentions_site in Hm. apply existsb_exists in Hm.
      destruct Hm as (v & Hv & Heq). apply opt_eqb_true in Heq.
      now subst v. }
    destruct (@lineage_record_shape g base rs s Hrs Hin)
      as (f & _ & [[_ ->] | (aid & act & _ & _ & ->)]).
    + destruct Hsite.
    + split; [discriminate|]. split; [reflexivity | exact Hsite].
Qed.

(** The key lineage of a site: the file ["s1.xlsx"] is produced by an
    action tagged with [s1]; an untagged file of the list has no entry. *)
Example key_lineage_example :
  let g := [ param_entity "#p" "site_id" "s1";
             file_entity "s1.xlsx" "s1.xlsx" None;
             file_entity "tides.csv" "tides.csv" None;
             action_entity "#fit" "fit" None [RefId "#p"] [RefId "s1.xlsx"];
             action_entity "#tide" "tide" None [] [RefId "tides.csv"] ] in
  exists sv,
    get_site_artifacts (init g) "s1" = Ok sv
    /\ Dict.keys (sv_key_lineages sv) = ["s1.xlsx"].
Proof. eexists. split; [vm_compute; reflexivity|]. reflexivity. Qed.

Lemma fold_site_ids d : forall objs sids,
  fold_left
    (fun sids obj =>
       match get_opt (ref_id obj) d with
       | Some ent =>
           if has_type ent "PropertyValue" && opt_eqb (e_name ent) "site_id"
           then sids ++ [e_value ent]
           else sids
       | None => sids
       end)
    objs sids
  = sids
    ++ map e_value
         (filter (fun e => has_type e "PropertyValue"
                           && opt_eqb (e_name e) "site_id")
            (resolve_refs d objs)).
Proof.
  induction objs as [|obj objs IH]; intros sids; simpl.
  - now rewrite app_nil_r.
  - rewrite IH. unfold resolve_refs. simpl.
    destruct (get_opt (ref_id obj) d) as [ent|]; simpl; [|reflexivity].
    destruct (has_type ent "PropertyValue" && opt_eqb (e_name ent) "site_id");
      simpl; [|reflexivity].
    now rewrite <- app_assoc.
Qed.

(** The [site_ids] of a step run: the values of the inputs that resolve
    to a [PropertyValue] named ["site_id"], in input order. *)
Lemma summarise_run_site_ids self act :
  sr_site_ids (summarise_run self act)
  = map e_value
      (filter (fun e => has_type e "PropertyValue"
                        && opt_eqb (e_name e) "site_id")
         (resolve_refs (by_id self) (get_list (e_object act)))).
Proof. unfold summarise_run. cbn [sr_site_ids]. now rewrite fold_site_ids. Qed.

Lemma tagged_site_ids self site_id act :
  tagged_with_site self site_id act ->
  In (Some site_id) (sr_site_ids (summarise_run self act)).
Proof.
  intros (obj & ent & Hobj & Hent & Ht & Hn & Hv).
  rewrite summarise_run_site_ids, <- Hv. apply in_map. apply filter_In.
  split.
  - unfold resolve_refs. apply in_flat_map. exists obj.
    split; [exact Hobj|]. rewrite Hent. now left.
  - rewrite Ht, Hn. reflexivity.
Qed.

(** X9. The step runs of a site view, with unique entity ids: every
    record is the run of an action of the graph, its [site_ids] are the
    values of all the inputs of that action that resolve to a
    [PropertyValue] named ["site_id"], in input order, and the requested
    site is among them. *)
Theorem step_runs_site_ids (g : list entity) (site_id : string) :
  NoDup (map e_id g) ->
  exists sv,
    get_site_artifacts (init g) site_id = Ok sv
    /\ forall r, In r (sv_step_runs sv) ->
         In (Some site_id) (sr_site_ids r)
         /\ exists act,
              In act (actions (init g))
              /\ sr_action r = summarise_action act
              /\ sr_site_ids r
                 = map e_value
                     (filter (fun e => has_type e "PropertyValue"
                                       && opt_eqb (e_name e) "site_id")
                        (resolve_refs (by_id (init g))
                           (get_list (e_object act)))).
Proof.
  intros Hnd.
  destruct (site_step_runs_spec g site_id) as (runs & Eruns & _ & Hruns).
  destruct (site_key_lineages_ok g site_id (key_base_names site_id)
              Dict.empty) as [kl Ekl].
  unfold get_site_artifacts. rewrite Eruns. cbn [bind]. rewrite Ekl.
  cbn [bind]. eexists. split; [reflexivity|]. cbn [sv_step_runs].
  intros r Hr.
  destruct (@Forall2_in_right _ _ _ _ _ _ Hruns Hr) as (aid & _ & act & _ & -> & Hact).
  destruct (Hact Hnd) as [Hin Htag]. split.
  - now apply tagged_site_ids.
  - exists act. split; [exact Hin|]. split; [reflexivity|].
    apply summarise_run_site_ids.
Qed.

Lemma site_graph_unique : NoDup (map e_id site_graph).
Proof. repeat constructor; simpl; intuition discriminate. Qed.

Lemma step_runs_site_ids_witness :
  NoDup (map e_id site_graph)
  /\ exists sv,
       get_site_artifacts (init site_graph) "site001" = Ok sv
       /\ forall r, In r (sv_step_runs sv) ->
            In (Some "site001") (sr_site_ids r).
Proof.
  split; [exact site_graph_unique|].
  destruct (@step_runs_site_ids site_graph "site001" site_graph_unique)
    as (sv & Hsv & Hall).
  exists sv. split; [exact Hsv|].
  intros r Hr. exact (proj1 (Hall r Hr)).
Defined.

(** ** The entity index *)

Lemma find_app (A : Type) (p : A -> bool) (l1 l2 : list A) :
  find p (l1 ++ l2)
  = match find p l1 with
    | Some x => Some x
    | None => find p l2
    end.
Proof.
  induction l1 as [|x l1 IH]; simpl; [reflexivity|].
  now destruct (p x).
Qed.

Lemma fold_set_get g : forall (d : Dict.t entity) k,
  Dict.get k (fold_left (fun d e => Dict.set (e_id e) e d) g d)
  = match find (fun e => e_id e =? k) (rev g) with
    | Some e => Some e
    | None => Dict.get k d
    end.
Proof.
  induction g as [|a g IH]; intros d k; simpl; [reflexivity|].
  rewrite IH, find_app. destruct (find _ (rev g)); [reflexivity|].
  simpl. destruct (e_id a =? k) eqn:E.
  - apply String.eqb_eq in E. subst k. apply dict_get_set_same.
  - apply String.eqb_neq in E. now apply dict_get_set_other.
Qed.

(** X10. The entity index [by_id] of a crate files under an id the last
    entity of the graph that carries it: an earlier entity with the same
    id is not reachable through the index.  Its keys are the ids of the
    graph, each once; and when the ids of the graph are unique its values
    are the graph itself, in graph order. *)
Theorem entity_index_last_wins (g : list entity) :
  (forall k,
      Dict.get k (by_id (init g)) = find (fun e => e_id e =? k) (rev g))
  /\ NoDup (Dict.keys (by_id (init g)))
  /\ (forall k, In k (Dict.keys (by_id (init g))) <-> In k (map e_id g))
  /\ (NoDup (map e_id g) -> Dict.values (by_id (init g)) = g).
Proof.
  split; [|split; [|split]].
  - intros k. rewrite by_id_init, fold_set_get.
    now destruct (find _ (rev g)).
  - apply by_id_keys_NoDup.
  - apply by_id_keys.
  - apply by_id_values_unique.
Qed.

(** Two entities with one id: the index holds the second one, at the
    position of the first.  The substring rule of the resolver reads the
    graph, not the index, and still finds the first. *)
Example duplicate_id_example :
  let g := [ file_entity "a.csv" "first" None;
             file_entity "b.csv" "other" None;
             file_entity "a.csv" "second" None ] in
  Dict.keys (by_id (init g)) = ["a.csv"; "b.csv"]
  /\ Dict.get "a.csv" (by_id (init g))
     = Some (file_entity "a.csv" "second" None)
  /\ get_file_entities (init g) "first" = [file_entity "a.csv" "first" None].
Proof. repeat split; reflexivity. Qed.

(** ** What the resolver returns *)

Lemma str_in_empty s : str_in "" s = true.
Proof. destruct s; reflexivity. Qed.

Lemma get_file_entities_sound g selector e :
  In e (get_file_entities (init g) selector) ->
  In e g /\ has_type e "File" = true
  /\ (e_id e = selector \/ str_in selector (altname_or_empty e) = true).
Proof.
  unfold get_file_entities, find_files_by_altname. rewrite graph_init.
  destruct (Dict.get selector (by_id (init g))) as [ent|] eqn:Eg.
  - destruct (has_type ent "File") eqn:Ef.
    + intros [<- | []]. destruct (by_id_get _ _ Eg) as [Hid Hin]. auto.
    + destruct (filter _ (Dict.values (by_id (init g)))) as [|x xs] eqn:Ee.
      * intros H. apply filter_In in H. destruct H as [Hin Hp].
        apply andb_true_iff in Hp. destruct Hp as [Hf Hs]. auto.
      * rewrite <- Ee. intros H. apply filter_In in H.
        destruct H as [Hin Hp]. apply andb_true_iff in Hp.
        destruct Hp as [Hf Hs]. apply by_id_value in Hin.
        split; [tauto|]. split; [exact Hf|]. right.
        apply opt_eqb_true in Hs. unfold altname_or_empty. rewrite Hs.
        apply str_in_refl.
  - destruct (filter _ (Dict.values (by_id (init g)))) as [|x xs] eqn:Ee.
    + intros H. apply filter_In in H. destruct H as [Hin Hp].
      apply andb_true_iff in Hp. destruct Hp as [Hf Hs]. auto.
    + rewrite <- Ee. intros H. apply filter_In in H.
      destruct H as [Hin Hp]. apply andb_true_iff in Hp.
      destruct Hp as [Hf Hs]. apply by_id_value in Hin.
      split; [tauto|]. split; [exact Hf|]. right.
      apply opt_eqb_true in Hs. unfold altname_or_empty. rewrite Hs.
      apply str_in_refl.
Qed.

Lemma resolve_rules_nil g selector e :
  resolve_rules g selector = [] ->
  In e g -> has_type e "File" = true ->
  e_id e <> selector /\ str_in selector (altname_or_empty e) = false.
Proof.
  unfold resolve_rules. intros H Hin Hf.
  destruct (find _ g) as [x|] eqn:Efind; [discriminate|].
  destruct (filter _ g) as [|x xs] eqn:Ee; [|discriminate].
  split.
  - intros Hid. apply (find_none _ _ Efind) in Hin.
    rewrite Hf, Hid, String.eqb_refl in Hin. discriminate.
  - destruct (str_in selector (altname_or_empty e)) eqn:Es; [|reflexivity].
    assert (Hin' : In e (filter
                (fun e => has_type e "File"
                          && str_in selector (altname_or_empty e)) g)).
    { apply filter_In. split; [exact Hin|]. now rewrite Hf, Es. }
    rewrite H in Hin'. destruct Hin'.
Qed.

(** X11. What [get_file_entities] returns.  On every graph each result is
    a [File] entity of the graph that has the selector as its id or
    inside its display name.  With unique ids the result is empty only if
    the graph has no such [File], so a selector that names or occurs in
    some [File] always resolves. *)
Theorem resolver_sound_and_complete (g : list entity) (selector : string) :
  (forall e, In e (get_file_entities (init g) selector) ->
     In e g /\ has_type e "File" = true
     /\ (e_id e = selector \/ str_in selector (altname_or_empty e) = true))
  /\ (NoDup (map e_id g) ->
      get_file_entities (init g) selector = [] ->
      forall e, In e g -> has_type e "File" = true ->
        e_id e <> selector /\ str_in selector (altname_or_empty e) = false).
Proof.
  split.
  - intros e. apply get_file_entities_sound.
  - intros Hnd H e. rewrite (@get_file_entities_rules g selector Hnd) in H.
    now apply resolve_rules_nil.
Qed.

(** X12. The empty pattern.  The name test of [_find_files_by_altname]
    accepts, for the empty pattern, an absent [alternateName] and every
    string, and rejects a value of any other kind; on the names an entity
    record holds it is the test [find_files_by_altname] applies.  So on a
    graph whose [File]s have an absent or string [alternateName],
    [_find_files_by_altname] matches every [File] for the empty pattern,
    and with unique ids [get_file_entities] resolves the empty selector
    to all the [File]s of the graph unless one of them has the empty id
    or the empty display name. *)
Theorem empty_selector_matches_all (g : list entity) :
  (forall name, altname_matches "" name = true <-> name <> NameOther)
  /\ (forall pattern e,
        str_in pattern (altname_or_empty e)
        = altname_matches pattern (name_of e))
  /\ find_files_by_altname (init g) ""
     = filter (fun e => has_type e "File") g
  /\ (NoDup (map e_id g) ->
      (forall e, In e g -> has_type e "File" = true ->
         e_id e <> "" /\ e_alternateName e <> Some "") ->
      get_file_entities (init g) "" = filter (fun e => has_type e "File") g).
Proof.
  assert (H0 : find_files_by_altname (init g) ""
               = filter (fun e => has_type e "File") g).
  { unfold find_files_by_altname. rewrite graph_init. apply filter_ext.
    intros e. now rewrite str_in_empty, andb_true_r. }
  split; [|split; [|split; [exact H0|]]].
  { intros [|alt|]; simpl.
    - split; [discriminate | reflexivity].
    - rewrite str_in_empty. split; [discriminate | reflexivity].
    - split; [discriminate | congruence]. }
  { intros pattern e. unfold altname_or_empty, name_of.
    now destruct (e_alternateName e). }
  intros Hnd H. rewrite (@get_file_entities_rules g "" Hnd).
  unfold resolve_rules.
  destruct (find _ g) as [x|] eqn:Efind.
  { apply find_some in Efind. destruct Efind as [Hin Hp].
    apply andb_true_iff in Hp. destruct Hp as [Hf Hid].
    apply String.eqb_eq in Hid. destruct (H x Hin Hf) as [Hne _].
    contradiction. }
  rewrite filter_nil.
  - unfold find_files_by_altname in H0. rewrite graph_init in H0. exact H0.
  - intros e Hin. destruct (has_type e "File") eqn:Hf; [|reflexivity].
    destruct (H e Hin Hf) as [_ Hne]. simpl.
    destruct (opt_eqb (e_alternateName e) "") eqn:Eo; [|reflexivity].
    apply opt_eqb_true in Eo. contradiction.
Qed.

Lemma resolver_sound_and_complete_witness :
  NoDup (map e_id multi_file_graph)
  /\ get_file_entities (init multi_file_graph) "missing" = []
  /\ forall e, In e multi_file_graph -> has_type e "File" = true ->
       e_id e <> "missing".
Proof.
  assert (H : get_file_entities (init multi_file_graph) "missing" = [])
    by reflexivity.
  split; [exact multi_file_graph_unique|]. split; [exact H|].
  intros e Hin Hf.
  exact (proj1 (proj2 (resolver_sound_and_complete multi_file_graph
                         "missing")
                  multi_file_graph_unique H e Hin Hf)).
Defined.

Lemma empty_selector_matches_all_witness :
  NoDup (map e_id multi_file_graph)
  /\ map e_id (get_file_entities (init multi_file_graph) "")
     = ["raw_data.csv"; "processed_data.csv"; "final_output.csv"].
Proof.
  split; [exact multi_file_graph_unique|].
  rewrite (proj2 (proj2 (proj2 (empty_selector_matches_all
                                  multi_file_graph)))
             multi_file_graph_unique).
  - reflexivity.
  - intros e Hin Hf. simpl in Hin.
    repeat (destruct Hin as [<- | Hin]; [try discriminate Hf|]).
    + split; discriminate.
    + split; discriminate.
    + split; discriminate.
    + destruct Hin.
Defined.

(** ** Direct lineage inside the ancestry *)

(** X13. The direct lineage of a selector is part of its ancestry, at
    every depth limit.  With unique ids, the file of every lineage record
    is recorded in [entities] of the ancestry result; and for a record
    with a producer, [actions] holds under the producer's id a record with
    the same action summary, tool summary and input buckets, and [edges]
    holds the ["generated"] edge from that action to the file. *)
Theorem lineage_in_ancestry (g : list entity) (selector : string)
  (max_depth : option Z) :
  NoDup (map e_id g) ->
  exists rs r,
    get_file_lineage (init g) selector = Ok rs
    /\ get_file_ancestry (init g) selector max_depth = Some r
    /\ forall s, In s rs ->
         In (fs_id (lr_file s)) (Dict.keys (r_entities r))
         /\ forall pb, lr_produced_by s = Some pb ->
              exists node,
                Dict.get (as_id (pb_action pb)) (r_actions r) = Some node
                /\ an_action node = pb_action pb
                /\ an_tool node = pb_tool pb
                /\ an_inputs node = pb_inputs pb
                /\ In {| edge_type := "generated";
                         edge_action := as_id (pb_action pb);
                         edge_entity := fs_id (lr_file s) |} (r_edges r).
Proof.
  intros Hnd.
  destruct (get_file_lineage_ok g selector) as [rs Hrs].
  destruct (ancestry_walk_facts g selector max_depth) as (r & Hr & Hcase).
  exists rs, r. split; [exact Hrs|]. split; [exact Hr|].
  intros s Hs.
  destruct (@lineage_record_shape g selector rs s Hrs Hs)
    as (f & Hf & Hshape).
  destruct Hcase as [[E _] | (st & HF & Hq & -> & -> & ->)].
  { rewrite E in Hf. destruct Hf. }
  destruct HF as (N & A & T & X & _).
  assert (Hroot : In (e_id f) (Dict.keys (entity_nodes st))).
  { assert (Hin : In (e_id f)
                    (map e_id (get_file_entities (init g) selector)))
      by now apply in_map.
    destruct (@roots_resolve g selector (e_id f) Hnd Hin)
      as (ent & sm & Hg & Hc).
    destruct N as (_ & _ & N3).
    destruct (T (e_id f) Hin) as [Hv | Hqd].
    - exact (N3 (e_id f) ent sm Hv Hg Hc).
    - rewrite Hq in Hqd. destruct Hqd. }
  destruct Hshape as [[_ ->] | (aid & act & Haid & Hact & ->)].
  - split; [exact Hroot|]. intros pb Hpb. discriminate Hpb.
  - split; [exact Hroot|]. intros pb Hpb.
    cbn [lr_produced_by produced_record] in Hpb. injection Hpb as <-.
    cbn [pb_action pb_tool pb_inputs summarise_action as_id lr_file
         produced_record summarise_file fs_id].
    destruct (by_id_get _ _ Hact) as [Hid _]. rewrite Hid.
    destruct A as (_ & _ & A3).
    assert (Hres : Dict.get aid (by_id (init g)) <> None) by congruence.
    destruct (A3 (e_id f) aid Hroot Haid Hres) as [Hedge Hkey].
    apply dict_get_keys in Hkey.
    destruct (Dict.get aid (action_nodes st)) as [node|] eqn:En;
      [|contradiction].
    exists node. split; [reflexivity|].
    apply dict_get_In in En. destruct (X aid node En) as (act' & Hact' & ->).
    assert (act' = act) as -> by congruence.
    unfold ancestry_expand. cbn [fst an_action an_tool an_inputs].
    rewrite partition_inputs_buckets.
    split; [reflexivity|]. split; [reflexivity|].
    split; [reflexivity | exact Hedge].
Qed.

Lemma sample_graph_unique : NoDup (map e_id sample_graph).
Proof. repeat constructor; simpl; intuition discriminate. Qed.

Lemma lineage_in_ancestry_witness :
  NoDup (map e_id sample_graph)
  /\ exists rs r,
       get_file_lineage (init sample_graph) "test_output.csv" = Ok rs
       /\ get_file_ancestry (init sample_graph) "test_output.csv" (Some 0%Z)
          = Some r
       /\ forall s, In s rs ->
            In (fs_id (lr_file s)) (Dict.keys (r_entities r)).
Proof.
  split; [exact sample_graph_unique|].
  destruct (@lineage_in_ancestry sample_graph "test_output.csv" (Some 0%Z)
              sample_graph_unique) as (rs & r & Hrs & Hr & Hall).
  exists rs, r. split; [exact Hrs|]. split; [exact Hr|].
  intros s Hs. exact (proj1 (Hall s Hs)).
Defined.

(** ** Media types *)

Lemma string_length_append (s1 s2 : string) :
  String.length (s1 ++ s2)%string = String.length s1 + String.length s2.
Proof. induction s1 as [|c s1 IH]; simpl; [reflexivity | now rewrite IH]. Qed.

Lemma endswith_split s t :
  endswith s t = true -> exists pre, s = (pre ++ t)%string.
Proof.
  induction s as [|c s IH]; cbn [endswith]; rewrite orb_true_iff.
  - intros [H | H]; [|discriminate]. apply String.eqb_eq in H.
    exists "". now subst.
  - intros [H | H].
    + apply String.eqb_eq in H. exists "". now subst.
    + destruct (IH H) as [pre ->]. now exists (String c pre).
Qed.

Lemma endswith_append pre suf t :
  String.length t <= String.length suf ->
  endswith (pre ++ suf)%string t = endswith suf t.
Proof.
  intros Hlen. induction pre as [|c pre IH]; [reflexivity|].
  cbn [append endswith]. rewrite IH. destruct (String c (pre ++ suf) =? t) eqn:E; [|reflexivity].
  apply String.eqb_eq in E. subst t. simpl in Hlen.
  rewrite string_length_append in Hlen. lia.
Qed.

(** Two suffixes of one string: the shorter is a suffix of the longer. *)
Lemma endswith_exclusive s a b :
  endswith s a = true ->
  endswith a b = false -> endswith b a = false ->
  endswith s b = false.
Proof.
  intros Ha Hab Hba. destruct (endswith s b) eqn:Hb; [|reflexivity].
  destruct (Nat.le_ge_cases (String.length a) (String.length b)) as [H | H].
  - destruct (endswith_split _ _ Hb) as [pre ->].
    rewrite (endswith_append pre b a H) in Ha. congruence.
  - destruct (endswith_split _ _ Ha) as [pre ->].
    rewrite (endswith_append pre a b H) in Hb. congruence.
Qed.

Lemma guess_declared lower summary fmt :
  fs_encodingFormat summary = Some fmt -> fmt <> "" ->
  guess_media_type lower summary = Some fmt.
Proof.
  intros E Hne. unfold guess_media_type. rewrite E. simpl.
  unfold str_truthy. apply String.eqb_neq in Hne. now rewrite Hne.
Qed.

(** X14. The media type [guess_media_type] reports.  A non-empty declared
    [encodingFormat] is returned as it is, whatever the name, and the type
    is never the empty string.  Without a declared format the type is read
    off the lower-cased name by its suffix: the nine suffixes exclude each
    other, so the order of the tests does not show, and a name with one of
    them gets the type of that suffix, a name with none gets no type.
    This holds for every lower-casing function. *)
Theorem guess_media_type_by_name (lower : string -> string)
  (summary : file_summary) :
  (truthy (fs_encodingFormat summary) = true ->
   guess_media_type lower summary = fs_encodingFormat summary)
  /\ guess_media_type lower summary <> Some ""
  /\ (truthy (fs_encodingFormat summary) = false ->
      (forall suffix mt,
          In (suffix, mt) media_table ->
          endswith (lower (or_empty (fs_name summary))) suffix = true ->
          guess_media_type lower summary = Some mt)
      /\ ((forall suffix mt,
              In (suffix, mt) media_table ->
              endswith (lower (or_empty (fs_name summary))) suffix = false) ->
          guess_media_type lower summary = None)).
Proof.
  unfold guess_media_type. cbv zeta.
  generalize (lower (or_empty (fs_name summary))). intros name.
  destruct (truthy (fs_encodingFormat summary)) eqn:Et.
  - split; [reflexivity|]. split; [|discriminate].
    intros H. rewrite H in Et. discriminate Et.
  - split; [discriminate|]. split.
    + destruct (endswith name ".csv"); [discriminate|].
      destruct (endswith name ".json"); [discriminate|].
      destruct (endswith name ".geojson"); [discriminate|].
      destruct (endswith name ".png"); [discriminate|].
      destruct (endswith name ".jpg" || endswith name ".jpeg");
        [discriminate|].
      destruct (endswith name ".tif" || endswith name ".tiff");
        [discriminate|].
      destruct (endswith name ".xlsx"); discriminate.
    + intros _. split.
      * intros suffix mt Hin Hs. unfold media_table in Hin. simpl in Hin.
        repeat (destruct Hin as [Hin | Hin];
                [injection Hin as <- <-;
                 repeat match goal with
                 | |- context [endswith name ?t] =>
                     first
                       [ rewrite Hs
                       | rewrite (@endswith_exclusive name _ t Hs
                                    eq_refl eq_refl) ]
                 end; reflexivity|]).
        destruct Hin.
      * intros Hnone.
        rewrite (Hnone ".csv" "text/csv") by (simpl; tauto).
        rewrite (Hnone ".json" "application/json") by (simpl; tauto).
        rewrite (Hnone ".geojson" "application/geo+json") by (simpl; tauto).
        rewrite (Hnone ".png" "image/png") by (simpl; tauto).
        rewrite (Hnone ".jpg" "image/jpeg") by (simpl; tauto).
        rewrite (Hnone ".jpeg" "image/jpeg") by (simpl; tauto).
        rewrite (Hnone ".tif" "image/tiff") by (simpl; tauto).
        rewrite (Hnone ".tiff" "image/tiff") by (simpl; tauto).
        rewrite (Hnone ".xlsx"
                   "application/vnd.openxmlformats-officedocument.spreadsheetml.sheet")
          by (simpl; tauto).
        reflexivity.
Qed.

Example geojson_example :
  guess_media_type ascii_lower
    {| fs_id := "map"; fs_name := Some "Coast.GeoJSON"; fs_sha1 := None;
       fs_encodingFormat := None; fs_exampleOfWork := None |}
  = Some "application/geo+json".
Proof. reflexivity. Qed.

(** X15. The three media predicates exclude each other: for every file
    summary and every lower-casing function at most one of [is_csv],
    [is_image] and [is_json] holds. *)
Theorem media_predicates_exclusive (lower : string -> string)
  (summary : file_summary) :
  is_csv lower summary && is_image lower summary = false
  /\ is_csv lower summary && is_json lower summary = false
  /\ is_image lower summary && is_json lower summary = false.
Proof.
  unfold is_csv, is_image, is_json. cbv zeta.
  generalize (lower (or_empty (guess_media_type lower summary))).
  intros mt. split; [|split].
  - destruct (mem mt ["text/csv"; "text/comma-separated-values"]) eqn:E;
      [|reflexivity].
    apply mem_In in E. simpl in E.
    destruct E as [<- | [<- | []]]; reflexivity.
  - destruct (mem mt ["text/csv"; "text/comma-separated-values"]) eqn:E;
      [|reflexivity].
    apply mem_In in E. simpl in E.
    destruct E as [<- | [<- | []]]; reflexivity.
  - rewrite andb_comm.
    destruct (mem mt ["application/json"; "application/ld+json";
                      "application/geo+json"]) eqn:E; [|reflexivity].
    apply mem_In in E. simpl in E.
    destruct E as [<- | [<- | [<- | []]]]; reflexivity.
Qed.

Lemma fold_image_files lower : forall l images,
  fold_left
    (fun images ent =>
       if negb (has_type ent "File") then images
       else
         let summary := summarise_file ent in
         if is_image lower summary then images ++ [summary] else images)
    l images
  = images
    ++ filter (is_image lower)
         (map summarise_file (filter (fun e => has_type e "File") l)).
Proof.
  induction l as [|ent l IH]; intros images; simpl.
  - now rewrite app_nil_r.
  - rewrite IH. destruct (has_type ent "File"); simpl; [|reflexivity].
    destruct (is_image lower (summarise_file ent)); [|reflexivity].
    now rewrite <- app_assoc.
Qed.

(** X16. The image files of a crate are the summaries of the [File]
    entities of the graph that [is_image] accepts, in graph order.  The
    summary carries [fileFormat] when [encodingFormat] is absent or empty,
    so a [File] that declares an image type in [fileFormat] only is
    listed. *)
Theorem image_files_listed (lower : string -> string)
  (self : ProvenanceCrate) :
  get_image_files lower self
  = filter (is_image lower)
      (map summarise_file (filter (fun e => has_type e "File") (graph self)))
  /\ (forall ent fmt,
        In ent (graph self) -> has_type ent "File" = true ->
        truthy (e_encodingFormat ent) = false ->
        e_fileFormat ent = Some fmt -> fmt <> "" ->
        prefix "image/" (lower fmt) = true ->
        In (summarise_file ent) (get_image_files lower self)).
Proof.
  assert (H : get_image_files lower self
              = filter (is_image lower)
                  (map summarise_file
                     (filter (fun e => has_type e "File") (graph self)))).
  { unfold get_image_files. now rewrite fold_image_files. }
  split; [exact H|].
  intros ent fmt Hin Hf He Hff Hne Hp. rewrite H. apply filter_In. split.
  - apply in_map. apply filter_In. now split.
  - assert (Efmt : fs_encodingFormat (summarise_file ent) = Some fmt).
    { unfold summarise_file, py_or. cbn [fs_encodingFormat].
      now rewrite He. }
    unfold is_image. cbv zeta. rewrite (guess_declared lower _ Efmt Hne).
    unfold or_empty, py_or. simpl. unfold str_truthy.
    apply String.eqb_neq in Hne. now rewrite Hne.
Qed.

(** X17. [open_as_dataframe] tests the media type as it is, [is_csv] its
    lower-cased form.  So for a file that is found on disk and declares a
    format that is a CSV type only after lower-casing, [is_csv] holds and
    [open_as_dataframe] raises [ValueError]. *)
Theorem csv_check_is_case_sensitive (lower : string -> string)
  (path frame : Type) (get_local_path : entity -> option path)
  (read_csv : path -> frame) (self : ProvenanceCrate) (selector : string)
  (ent : entity) (rest : list entity) (p : path) (fmt : string) :
  get_file_entities self selector = ent :: rest ->
  get_local_path ent = Some p ->
  fs_encodingFormat (summarise_file ent) = Some fmt -> fmt <> "" ->
  mem (lower fmt) ["text/csv"; "text/comma-separated-values"] = true ->
  mem fmt ["text/csv"; "text/comma-separated-values"] = false ->
  is_csv lower (summarise_file ent) = true
  /\ open_as_dataframe lower get_local_path read_csv self selector
     = ValueError frame.
Proof.
  intros He Hp Hfmt Hne Hl Hm. split.
  - unfold is_csv. cbv zeta. rewrite (guess_declared lower _ Hfmt Hne).
    unfold or_empty, py_or. simpl. unfold str_truthy.
    apply String.eqb_neq in Hne. rewrite Hne. exact Hl.
  - unfold open_as_dataframe. rewrite He, Hp. cbv zeta.
    rewrite (guess_declared lower _ Hfmt Hne). unfold opt_mem.
    now rewrite Hm.
Qed.

(** X18. When [open_as_dataframe] returns a frame, it is the frame read
    from the path of the first resolved file, and [is_csv] accepts the
    summary of that file, provided lower-casing leaves the two CSV media
    types as they are. *)
Theorem opened_frames_are_csv (lower : string -> string)
  (path frame : Type) (get_local_path : entity -> option path)
  (read_csv : path -> frame) (self : ProvenanceCrate) (selector : string)
  (fr : frame) :
  lower "text/csv" = "text/csv" ->
  lower "text/comma-separated-values" = "text/comma-separated-values" ->
  open_as_dataframe lower get_local_path read_csv self selector = Frame fr ->
  exists ent rest p,
    get_file_entities self selector = ent :: rest
    /\ get_local_path ent = Some p
    /\ fr = read_csv p
    /\ is_csv lower (summarise_file ent) = true.
Proof.
  intros H1 H2. unfold open_as_dataframe.
  destruct (get_file_entities self selector) as [|ent rest];
    [discriminate|].
  destruct (get_local_path ent) as [p|] eqn:Ep; [|discriminate].
  cbv zeta.
  destruct (opt_mem (guess_media_type lower (summarise_file ent))
              ["text/csv"; "text/comma-separated-values"]) eqn:Em;
    simpl; [|discriminate].
  intros [= <-]. exists ent, rest, p.
  split; [reflexivity|]. split; [exact Ep|]. split; [reflexivity|].
  unfold is_csv. cbv zeta.
  destruct (guess_media_type lower (summarise_file ent)) as [mt|];
    [|discriminate].
  unfold opt_mem in Em. apply mem_In in Em. simpl in Em.
  destruct Em as [<- | [<- | []]].
  - unfold or_empty, py_or. simpl. now rewrite H1.
  - unfold or_empty, py_or. simpl. now rewrite H2.
Qed.

(** A file on disk that declares its format in capitals. *)
Lemma csv_check_is_case_sensitive_witness :
  let ent :=
    {| e_id := "DATA.CSV"; e_type := TypeOne "File";
       e_alternateName := Some "DATA.CSV"; e_name := None; e_value := None;
       e_sha1 := None; e_encodingFormat := Some "TEXT/CSV";
       e_fileFormat := None; e_exampleOfWork := None; e_startTime := None;
       e_endTime := None; e_instrument := None; e_object := None;
       e_result := None; e_input := None; e_output := None |} in
  is_csv ascii_lower (summarise_file ent) = true
  /\ open_as_dataframe ascii_lower (fun e => Some (e_id e)) String.length
       (init [ent]) "DATA.CSV"
     = ValueError nat.
Proof.
  intros ent.
  apply (@csv_check_is_case_sensitive ascii_lower string nat
           (fun e => Some (e_id e)) String.length (init [ent]) "DATA.CSV"
           ent [] "DATA.CSV" "TEXT/CSV").
  - reflexivity.
  - reflexivity.
  - reflexivity.
  - discriminate.
  - reflexivity.
  - reflexivity.
Defined.

Lemma opened_frames_are_csv_witness :
  exists ent rest p,
    get_file_entities (init multi_file_graph) "raw_data.csv" = ent :: rest
    /\ (fun e => Some (e_id e)) ent = Some p
    /\ 12 = String.length p
    /\ is_csv ascii_lower (summarise_file ent) = true.
Proof.
  apply (@opened_frames_are_csv ascii_lower string nat
           (fun e => Some (e_id e)) String.length (init multi_file_graph)
           "raw_data.csv" 12).
  - reflexivity.
  - reflexivity.
  - reflexivity.
Defined.

Lemma image_files_listed_witness :
  let ent :=
    {| e_id := "plot"; e_type := TypeOne "File";
       e_alternateName := None; e_name := None; e_value := None;
       e_sha1 := None; e_encodingFormat := Some "";
       e_fileFormat := Some "Image/PNG"; e_exampleOfWork := None;
       e_startTime := None; e_endTime := None; e_instrument := None;
       e_object := None; e_result := None; e_input := None;
       e_output := None |} in
  In (summarise_file ent) (get_image_files ascii_lower (init [ent])).
Proof.
  intros ent.
  apply (proj2 (image_files_listed ascii_lower (init [ent])) ent
           "Image/PNG").
  - now left.
  - reflexivity.
  - reflexivity.
  - reflexivity.
  - discriminate.
  - reflexivity.
Defined.
